(** * Muddle: the label algebra, the dependency solver and the
      distribution actions, embedded from [muddled/depend.py],
      [muddled/distribute.py] and [muddled/commands.py].

    Python values are modelled as follows.
    - [str] is [string]; a value that may be [None] is an [option].
    - The two label flags hold [True], [False] or (after [re_tag]) [None]:
      they are [option bool], read through Python truthiness.
    - A [set] or the key view of a [dict] is a duplicate-free list; the
      order in which Python iterates it is unspecified, so every loop over
      a set goes through an explicit [iteration] order.
    - An exception is a value of an error type, returned in [Raise]. *)

From Stdlib Require Import String Ascii List ZArith Lia Permutation Bool Arith.
From stdpp Require Import base strings gmap.

#[local] Unset Default Proof Using.

(* ================================================================== *)
(** * Results of fallible code                                         *)
(* ================================================================== *)

Inductive result (E A : Type) : Type :=
| Ok (a : A)
| Raise (e : E).
Arguments Ok {E A} a.
Arguments Raise {E A} e.

(** Sequencing: the first exception raised is the outcome. *)
#[global] Instance result_bind {E} : MBind (result E) :=
  fun A B f x =>
    match x with
    | Ok a => f a
    | Raise e => Raise e
    end.

#[global] Instance result_ret {E} : MRet (result E) := fun A a => Ok a.

(* ================================================================== *)
(** * Backtracking regular expressions (the part of [re] that
      [depend.py] uses)                                                *)
(* ================================================================== *)

Module Re.

(** The constructs that occur in [Label.label_part] and
    [Label.label_string_re]: literals, a greedy [[...]+] over a character
    class, sequencing, [|], a greedy [(...)?] and (named) groups. *)
Inductive regex : Type :=
| Lit (c : ascii)
| Rep1 (cls : ascii -> bool)
| Seq (r1 r2 : regex)
| Alt (r1 r2 : regex)
| Opt (r : regex)
| Group (name : option string) (r : regex).

(** Text captured by the named groups; a group that took no part in the
    match has no entry, and [group] then gives [None] as [m.group] does. *)
Definition captures := list (string * string).

Definition group (caps : captures) (n : string) : option string :=
  match List.find (fun p => String.eqb (fst p) n) caps with
  | Some p => Some (snd p)
  | None => None
  end.

Definition set_group (n : option string) (text : string) (caps : captures)
  : captures :=
  match n with
  | Some n => (n, text) :: caps
  | None => caps
  end.

(** What was consumed between the input [s] and its suffix [s']. *)
Definition consumed (s s' : string) : string :=
  String.substring 0 (String.length s - String.length s') s.

Section Matcher.
Context {R : Type}.

(** [[cls]*] then the continuation: longest repetition first, one
    character given back at a time on failure. *)
Fixpoint rep0 (cls : ascii -> bool) (s : string)
         (k : string -> option R) : option R :=
  match s with
  | String c s' =>
      if cls c then
        match rep0 cls s' k with
        | Some m => Some m
        | None => k s
        end
      else k s
  | EmptyString => k s
  end.

Definition rep1 (cls : ascii -> bool) (s : string)
           (k : string -> option R) : option R :=
  match s with
  | String c s' => if cls c then rep0 cls s' k else None
  | EmptyString => None
  end.

(** The matcher in continuation-passing style: the first success in
    priority order, as a backtracking engine finds it. *)
Fixpoint run (r : regex) (s : string) (caps : captures)
         (k : string -> captures -> option R) : option R :=
  match r with
  | Lit c =>
      match s with
      | String c' s' => if Ascii.eqb c c' then k s' caps else None
      | EmptyString => None
      end
  | Rep1 cls => rep1 cls s (fun s' => k s' caps)
  | Seq r1 r2 => run r1 s caps (fun s' caps' => run r2 s' caps' k)
  | Alt r1 r2 =>
      match run r1 s caps k with
      | Some m => Some m
      | None => run r2 s caps k
      end
  | Opt r1 =>
      match run r1 s caps k with
      | Some m => Some m
      | None => k s caps
      end
  | Group n r1 =>
      run r1 s caps
          (fun s' caps' => k s' (set_group n (consumed s s') caps'))
  end.
End Matcher.

(** A match object: where the match ended, and the groups. *)
Record match_object : Type := { m_end : nat; m_groups : captures }.

(** [pattern.match(s)]: anchored at the start of [s], not at its end. *)
Definition re_match (r : regex) (s : string) : option match_object :=
  run r s []
      (fun s' caps =>
         Some {| m_end := String.length s - String.length s';
                 m_groups := caps |}).

End Re.

(* ================================================================== *)
(** * Labels                                                           *)
(* ================================================================== *)

(** Truthiness of a flag ([True], [False] or [None]). *)
Definition flag_true (f : option bool) : bool :=
  match f with
  | Some true => true
  | _ => false
  end.

(** Truthiness of a string that may be [None]. *)
Definition str_true (s : option string) : bool :=
  match s with
  | Some s => negb (String.eqb s "")
  | None => false
  end.

Record Label : Type := mkLabel {
  type : string;
  domain : option string;
  name : string;
  role : option string;
  tag : string;
  transient : option bool;
  system : option bool
}.

Inductive label_error : Type :=
| NotAllowed (what value : string)
    (* utils.Failure("Label %s '%s' is not allowed") *)
| NotAValidLabel (label_string : string).
    (* utils.Failure('Label string %s is not a valid Label') *)

Definition in_range (lo hi c : ascii) : bool :=
  (Ascii.leb lo c && Ascii.leb c hi)%bool.

(** The character class [[A-Za-z0-9._+-]]. *)
Definition label_char (c : ascii) : bool :=
  (in_range "A" "Z" c || in_range "a" "z" c || in_range "0" "9" c
   || Ascii.eqb c "." || Ascii.eqb c "_" || Ascii.eqb c "+"
   || Ascii.eqb c "-")%bool.

(** The character class [[A-Za-z0-9]]. *)
Definition flag_char (c : ascii) : bool :=
  (in_range "A" "Z" c || in_range "a" "z" c || in_range "0" "9" c)%bool.

(** [label_part = r"[A-Za-z0-9._+-]+|\*"] *)
Definition label_part : Re.regex :=
  Re.Alt (Re.Rep1 label_char) (Re.Lit "*").

Definition named (n : string) (r : Re.regex) : Re.regex :=
  Re.Group (Some n) r.
Definition unnamed (r : Re.regex) : Re.regex := Re.Group None r.

(** [label_string_re], the verbose pattern with its comments and white
    space removed and [label_part] substituted for each [%s]. *)
Definition label_string_re : Re.regex :=
  Re.Seq (named "type" label_part)
  (Re.Seq (Re.Lit ":")
  (Re.Seq (Re.Opt (unnamed (Re.Seq (Re.Lit "(")
                           (Re.Seq (named "domain" label_part)
                                   (Re.Lit ")")))))
  (Re.Seq (named "name" label_part)
  (Re.Seq (Re.Opt (unnamed (Re.Seq (Re.Lit "{")
                           (Re.Seq (Re.Opt (named "role" label_part))
                                   (Re.Lit "}")))))
  (Re.Seq (Re.Lit "/")
  (Re.Seq (named "tag" label_part)
          (Re.Opt (unnamed (Re.Seq (Re.Lit "[")
                           (Re.Seq (named "flags" (Re.Rep1 flag_char))
                                   (Re.Lit "]"))))))))))).

(** [Label._check_value] *)
Definition Label_check_value (what value : string) : result label_error unit :=
  match Re.re_match label_part value with
  | None => Raise (NotAllowed what value)
  | Some m =>
      if negb (Nat.eqb (Re.m_end m) (String.length value))
      then Raise (NotAllowed what value)
      else Ok tt
  end.

Definition check_optional (what : string) (value : option string)
  : result label_error unit :=
  match value with
  | Some v => Label_check_value what v
  | None => Ok tt
  end.

(** [Label.__init__]; the argument order is the signature's. *)
Definition Label_init (type name : string) (role : option string)
           (tag : string) (transient system : option bool)
           (domain : option string) : result label_error Label :=
  _ ← Label_check_value "type" type;
  _ ← Label_check_value "name" name;
  _ ← check_optional "role" role;
  _ ← Label_check_value "tag" tag;
  _ ← check_optional "domain" domain;
  Ok (mkLabel type domain name role tag transient system).

(** [Label.copy] *)
Definition Label_copy (self : Label) : Label := self.

(** Attribute assignments [l.tag = t], [l.system = f], [l.transient = f]. *)
Definition set_tag (l : Label) (t : string) : Label :=
  mkLabel (type l) (domain l) (name l) (role l) t (transient l) (system l).
Definition set_system (l : Label) (f : option bool) : Label :=
  mkLabel (type l) (domain l) (name l) (role l) (tag l) (transient l) f.
Definition set_transient (l : Label) (f : option bool) : Label :=
  mkLabel (type l) (domain l) (name l) (role l) (tag l) f (system l).

(** [Label.re_tag(new_tag, system = None, transient = None)] *)
Definition Label_re_tag_with (self : Label) (new_tag : string)
           (system_ transient_ : option bool) : Label :=
  let cp := Label_copy self in
  let cp := set_tag cp new_tag in
  let cp := set_system cp system_ in
  let cp := set_transient cp transient_ in
  cp.

(** [Label.re_tag(new_tag)], both keyword arguments left at their default. *)
Definition Label_re_tag (self : Label) (new_tag : string) : Label :=
  Label_re_tag_with self new_tag None None.

Definition is_star (s : string) : bool := String.eqb s "*".

Definition opt_eqb (a b : option string) : bool :=
  match a, b with
  | Some x, Some y => String.eqb x y
  | None, None => true
  | _, _ => false
  end.

Definition is_star_opt (s : option string) : bool :=
  match s with
  | Some s => is_star s
  | None => false
  end.

(** One of the five blocks of [Label.match]: [differ] is [self.x != other.x],
    [wild] is [self.x == "*" or other.x == "*"]. *)
Definition match_block (differ wild : bool) (nr_wildcards : Z) : option Z :=
  if differ then
    if wild then Some (nr_wildcards + 1)%Z else None
  else Some nr_wildcards.

(** [Label.match] *)
Definition Label_match (self other : Label) : option Z :=
  let nr_wildcards := 0%Z in
  nr_wildcards ←
    match_block (negb (String.eqb (type self) (type other)))
                (is_star (type self) || is_star (type other)) nr_wildcards;
  nr_wildcards ←
    match_block (negb (opt_eqb (domain self) (domain other)))
                (is_star_opt (domain self) || is_star_opt (domain other))
                nr_wildcards;
  nr_wildcards ←
    match_block (negb (String.eqb (name self) (name other)))
                (is_star (name self) || is_star (name other)) nr_wildcards;
  nr_wildcards ←
    match_block (negb (opt_eqb (role self) (role other)))
                (is_star_opt (role self) || is_star_opt (role other))
                nr_wildcards;
  nr_wildcards ←
    match_block (negb (String.eqb (tag self) (tag other)))
                (is_star (tag self) || is_star (tag other)) nr_wildcards;
  Some (- nr_wildcards)%Z.

(** [Label.match_without_tag] *)
Definition Label_match_without_tag (self other : Label) : bool :=
  String.eqb (type self) (type other)
  && opt_eqb (domain self) (domain other)
  && String.eqb (name self) (name other)
  && opt_eqb (role self) (role other).

(** [Label.__str__] *)
Definition Label_str (self : Label) : string :=
  let basename :=
    if str_true (role self)
    then name self +:+ "{" +:+ default "" (role self) +:+ "}"
    else name self in
  let domain_ :=
    if str_true (domain self)
    then "(" +:+ default "" (domain self) +:+ ")"
    else "" in
  let rv := type self +:+ ":" +:+ domain_ +:+ basename +:+ "/" +:+ tag self in
  if flag_true (transient self) || flag_true (system self) then
    let extra :=
      "[" +:+ (if flag_true (transient self) then "T" else "")
          +:+ (if flag_true (system self) then "S" else "") +:+ "]" in
    rv +:+ extra
  else rv.

(** The value of [Label.as_tuple]: [(type, domain, name, role, tag)]. *)
Definition label_tuple : Type :=
  string * option string * string * option string * string.

(** [Label.as_tuple] *)
Definition Label_as_tuple (self : Label) : label_tuple :=
  (type self, domain self, name self, role self, tag self).

(** Python 2 ordering of the values found in a label tuple: strings by
    their bytes, [None] below every string. *)
Definition cmp_str (a b : string) : comparison := String.compare a b.

Definition cmp_opt (a b : option string) : comparison :=
  match a, b with
  | None, None => Eq
  | None, Some _ => Lt
  | Some _, None => Gt
  | Some x, Some y => String.compare x y
  end.

(** Tuple comparison: the first position that differs decides. *)
Definition cmp_then (c rest : comparison) : comparison :=
  match c with
  | Eq => rest
  | _ => c
  end.

Definition cmp_tuple (x y : label_tuple) : comparison :=
  let '(t1, d1, n1, r1, g1) := x in
  let '(t2, d2, n2, r2, g2) := y in
  cmp_then (cmp_str t1 t2)
    (cmp_then (cmp_opt d1 d2)
       (cmp_then (cmp_str n1 n2)
          (cmp_then (cmp_opt r1 r2) (cmp_str g1 g2)))).

Definition tuple_lt (x y : label_tuple) : bool :=
  match cmp_tuple x y with Lt => true | _ => false end.
Definition tuple_gt (x y : label_tuple) : bool :=
  match cmp_tuple x y with Gt => true | _ => false end.

(** [Label.__cmp__] *)
Definition Label_cmp (self other : Label) : Z :=
  let this_as_tuple := Label_as_tuple self in
  let that_as_tuple := Label_as_tuple other in
  if tuple_lt this_as_tuple that_as_tuple then (-1)%Z
  else if tuple_gt this_as_tuple that_as_tuple then 1%Z
  else 0%Z.

(** [a == b] on labels, which Python 2 answers through [__cmp__]. *)
Definition Label_eqb (a b : Label) : bool := Z.eqb (Label_cmp a b) 0.

(** [Label.__hash__]; [py_hash] is the builtin [hash] on tuples. *)
Definition Label_hash (py_hash : label_tuple -> Z) (self : Label) : Z :=
  py_hash (Label_as_tuple self).

(** ['c' in flags] for a one-character string. *)
Fixpoint str_contains (c : ascii) (s : string) : bool :=
  match s with
  | String c' s' => Ascii.eqb c c' || str_contains c s'
  | EmptyString => false
  end.

(** [Label.from_string] *)
Definition Label_from_string (label_string : string)
  : result label_error Label :=
  match Re.re_match label_string_re label_string with
  | None => Raise (NotAValidLabel label_string)
  | Some m =>
      if negb (Nat.eqb (Re.m_end m) (String.length label_string))
      then Raise (NotAValidLabel label_string)
      else
        let type_ := Re.group (Re.m_groups m) "type" in
        let domain_ := Re.group (Re.m_groups m) "domain" in
        let name_ := Re.group (Re.m_groups m) "name" in
        let role_ := Re.group (Re.m_groups m) "role" in
        let tag_ := Re.group (Re.m_groups m) "tag" in
        let flags := Re.group (Re.m_groups m) "flags" in
        let transient_ := false in
        let system_ := false in
        let '(transient_, system_) :=
          if str_true flags
          then (str_contains "T" (default "" flags),
                str_contains "S" (default "" flags))
          else (transient_, system_) in
        match type_, name_, tag_ with
        | Some type_, Some name_, Some tag_ =>
            Label_init type_ name_ role_ tag_
                       (Some transient_) (Some system_) domain_
        | _, _, _ =>
            (* not reached: these three groups take part in every match *)
            Raise (NotAValidLabel label_string)
        end
  end.

(** [label_from_string]: [None] instead of the failure. *)
Definition label_from_string (str : string) : option Label :=
  match Label_from_string str with
  | Ok l => Some l
  | Raise _ => None
  end.

(* ================================================================== *)
(** * Sets of labels                                                   *)
(* ================================================================== *)

(** [label in s]: hashing and equality of labels go through [as_tuple]. *)
Definition label_in (l : Label) (s : list Label) : bool :=
  existsb (Label_eqb l) s.

(** [s.add(l)]: nothing changes when an equal label is already there. *)
Definition set_add (l : Label) (s : list Label) : list Label :=
  if label_in l s then s else s ++ [l].

(** [s1 - s2] *)
Definition set_difference (s1 s2 : list Label) : list Label :=
  List.filter (fun l => negb (label_in l s2)) s1.

(* ================================================================== *)
(** * Rules and rule sets                                              *)
(* ================================================================== *)

(** [class Rule]; [A] is the type of the objects that do the work. *)
Record Rule (A : Type) : Type := mkRule {
  target : Label;
  obj : option A;
  deps : list Label
}.
Arguments mkRule {A} target obj deps.
Arguments target {A} r.
Arguments obj {A} r.
Arguments deps {A} r.

(** The order in which Python walks a set is not specified. An
    [iteration] fixes one: any rearrangement of the elements. *)
Record iteration (A : Type) : Type := mkIteration {
  iter_labels : list Label -> list Label;
  iter_labels_perm : forall s, Permutation (iter_labels s) s;
  iter_rules : list (Rule A) -> list (Rule A);
  iter_rules_perm : forall s, Permutation (iter_rules s) s
}.
Arguments iter_labels {A} i s.
Arguments iter_rules {A} i s.
Arguments iter_labels_perm {A} i s.
Arguments iter_rules_perm {A} i s.

(** The iteration that walks every set in the order of its list. *)
Definition in_list_order (A : Type) : iteration A :=
  mkIteration A (fun s => s) (fun s => Permutation_refl s)
              (fun s => s) (fun s => Permutation_refl s).

Section Rules.
Context {A : Type}.

(** [Rule.__init__(target_dep, obj)] *)
Definition Rule_init (target_dep : Label) (obj_ : option A) : Rule A :=
  mkRule target_dep obj_ [].

(** [Rule.add] *)
Definition Rule_add (self : Rule A) (label : Label) : Rule A :=
  mkRule (target self) (obj self) (set_add label (deps self)).

(** [Rule.merge] *)
Definition Rule_merge (it : iteration A) (self deps_ : Rule A) : Rule A :=
  let self := fold_left Rule_add (iter_labels it (deps deps_)) self in
  match obj deps_ with
  | Some o => mkRule (target self) (Some o) (deps self)
  | None => self
  end.

(** [RuleSet.map], a dict from labels to rules, as its items. The rules
    of a rule set have pairwise different targets, so no two of them are
    equal under [Rule.__cmp__] and a set of them holds each once. *)
Definition RuleSet : Type := list (Label * Rule A).

(** [self.map.get(label, None)] *)
Fixpoint map_get (self : RuleSet) (label : Label) : option (Rule A) :=
  match self with
  | [] => None
  | (k, v) :: rest => if Label_eqb k label then Some v else map_get rest label
  end.

(** [self.map[label] = rule] for a new or an old key. *)
Fixpoint map_set (self : RuleSet) (label : Label) (rule : Rule A) : RuleSet :=
  match self with
  | [] => [(label, rule)]
  | (k, v) :: rest =>
      if Label_eqb k label then (k, rule) :: rest
      else (k, v) :: map_set rest label rule
  end.

(** [RuleSet.add]; [inst.merge(rule)] changes the rule stored in the map. *)
Definition RuleSet_add (it : iteration A) (self : RuleSet) (rule : Rule A)
  : RuleSet :=
  match map_get self (target rule) with
  | None => map_set self (target rule) rule
  | Some inst => map_set self (target rule) (Rule_merge it inst rule)
  end.

(** [RuleSet.rules_for_target] *)
Definition rules_for_target (self : RuleSet) (label : Label)
           (useTags useMatch : bool) : list (Rule A) :=
  if useMatch then
    List.map snd
      (List.filter (fun kv => bool_decide (is_Some (Label_match label (fst kv))))
                   self)
  else if useTags then
    match map_get self label with
    | Some rule => [rule]
    | None => []
    end
  else
    List.map snd
      (List.filter (fun kv => Label_match_without_tag (fst kv) label) self).

(** [RuleSet.targets_match] *)
Definition targets_match (self : RuleSet) (target_ : Label) (useMatch : bool)
  : list Label :=
  if useMatch then
    fold_left
      (fun result_set k =>
         if bool_decide (is_Some (Label_match k target_))
         then set_add k result_set else result_set)
      (List.map fst self) []
  else set_add target_ [].

(** [RuleSet.rule_for_target(target)], with [createIfNotPresent] left
    at [False]. *)
Definition rule_for_target (self : RuleSet) (target_ : Label)
  : option (Rule A) :=
  map_get self target_.

(** A rule set as [RuleSet.add] builds it: every rule is filed under its
    own target, and no two keys are equal. *)
Fixpoint RuleSet_wfb (self : RuleSet) : bool :=
  match self with
  | [] => true
  | (k, v) :: rest =>
      Label_eqb k (target v)
      && negb (label_in k (List.map fst rest))
      && RuleSet_wfb rest
  end.

Definition RuleSet_wf (self : RuleSet) : Prop := RuleSet_wfb self = true.

(* -------------------------------------------------------------- *)
(** ** [needed_to_build]                                           *)
(* -------------------------------------------------------------- *)

Inductive depend_error : Type :=
| RuleListEmpty (tgt : Label)
    (* utils.Error("Rule list is empty for target %s") *)
| CircularOrIncomplete (building : Label) (targets : list Label)
                       (rule_list : list (Rule A)) (ruleset : RuleSet)
    (* utils.Error("Dependency graph is circular or incomplete. ...") *)
| NoRulesMatch (label : Label).
    (* utils.Failure("No rules match label %s .") *)

(** The variables that the body of the [while] loop updates. *)
Record loop_state : Type := mkState {
  rule_list : list (Rule A);
  rule_target_set : list Label;
  new_targets : list Label;
  done_something : bool
}.

(** The body of [for dep in rule.deps]; the third component is
    [can_build_target]. *)
Definition visit_dep (rule_target_set_ targets : list Label)
           (st : list Label * bool * bool) (dep : Label)
  : list Label * bool * bool :=
  let '(new_targets_, done_something_, can_build_target) := st in
  if negb (label_in dep rule_target_set_) then
    let '(new_targets_, done_something_) :=
      if negb (label_in dep new_targets_) && negb (label_in dep targets)
      then (set_add dep new_targets_, true)
      else (new_targets_, done_something_) in
    (new_targets_, done_something_, false)
  else st.

(** The body of [for rule in rules]. *)
Definition visit_rule (it : iteration A)
           (rule_target_set_ targets : list Label)
           (st : list Label * bool * bool) (rule : Rule A)
  : list Label * bool * bool :=
  fold_left (visit_dep rule_target_set_ targets)
            (iter_labels it (deps rule)) st.

(** The body of [for tgt in targets]. [rules] is a set and never
    [None], so of the two tests on it only [len(rules) == 0] can raise.
    The rule appended is the one the variable [rule] still holds after
    [for rule in rules]: the last. *)
Definition visit_target (it : iteration A) (ruleset : RuleSet)
           (useTags : bool) (targets : list Label)
           (st : loop_state) (tgt : Label)
  : result depend_error loop_state :=
  let rules := iter_rules it (rules_for_target ruleset tgt useTags true) in
  let can_build_target := true in
  match rules with
  | [] => Raise (RuleListEmpty tgt)
  | first :: _ =>
      let '(new_targets_, done_something_, can_build_target) :=
        fold_left (visit_rule it (rule_target_set st) targets) rules
                  (new_targets st, done_something st, can_build_target) in
      let rule := List.last rules first in
      if can_build_target then
        Ok (mkState (rule_list st ++ [rule])
                    (set_add tgt (rule_target_set st))
                    new_targets_ true)
      else
        Ok (mkState (rule_list st) (rule_target_set st)
                    (set_add tgt new_targets_) done_something_)
  end.

(** A [for] loop whose body may raise. *)
Fixpoint for_each {E S X : Type} (body : S -> X -> result E S)
         (xs : list X) (s : S) : result E S :=
  match xs with
  | [] => Ok s
  | x :: xs' => s' ← body s x; for_each body xs' s'
  end.

(** The [while done_something] loop, one pass per unit of [fuel];
    [None] when the fuel runs out. *)
Fixpoint while_done_something (fuel : nat) (it : iteration A)
         (ruleset : RuleSet) (target_ : Label) (useTags : bool)
         (rule_list_ : list (Rule A)) (rule_target_set_ targets : list Label)
  : option (result depend_error (list (Rule A))) :=
  match fuel with
  | O => None
  | S fuel' =>
      let targets := set_difference targets rule_target_set_ in
      if Nat.eqb (length targets) 0 then Some (Ok rule_list_)
      else
        match for_each (visit_target it ruleset useTags targets)
                       (iter_labels it targets)
                       (mkState rule_list_ rule_target_set_ [] false) with
        | Raise e => Some (Raise e)
        | Ok st =>
            if done_something st then
              while_done_something fuel' it ruleset target_ useTags
                (rule_list st) (rule_target_set st) (new_targets st)
            else
              Some (Raise (CircularOrIncomplete target_ (new_targets st)
                                                (rule_list st) ruleset))
        end
  end.

(** Every label the solver can come to handle: the first targets and the
    dependencies of the rules. *)
Definition all_labels (ruleset : RuleSet) (targets : list Label)
  : list Label :=
  targets ++ flat_map (fun kv => deps (snd kv)) ruleset.

(** [needed_to_build(ruleset, target, useTags, useMatch)]. The passes
    allowed are more than the loop can make (see
    [needed_to_build_returns]). *)
Definition needed_to_build (it : iteration A) (ruleset : RuleSet)
           (target_ : Label) (useTags useMatch : bool)
  : option (result depend_error (list (Rule A))) :=
  let rule_list_ := [] in
  let rule_target_set_ := [] in
  let targets := targets_match ruleset target_ useMatch in
  while_done_something (S (2 * length (all_labels ruleset targets)))
    it ruleset target_ useTags rule_list_ rule_target_set_ targets.

(* -------------------------------------------------------------- *)
(** ** [required_by]                                               *)
(* -------------------------------------------------------------- *)

(** [RuleSet.rules_which_depend_on] *)
Definition rules_which_depend_on (it : iteration A) (self : RuleSet)
           (label : Label) (useTags useMatch : bool) : list (Rule A) :=
  List.filter
    (fun v =>
       if useMatch then
         existsb (fun dep => bool_decide (is_Some (Label_match dep label)))
                 (iter_labels it (deps v))
       else if useTags then label_in label (deps v)
       else existsb (fun dep => Label_match_without_tag dep label)
                    (iter_labels it (deps v)))
    (List.map snd self).

(** [depends.union(extra)] *)
Definition set_union (s1 s2 : list Label) : list Label :=
  fold_left (fun s l => set_add l s) s2 s1.

(** One round of the [while True] loop of [required_by]: [extra]. *)
Definition required_by_extra (it : iteration A) (ruleset : RuleSet)
           (useTags useMatch : bool) (depends : list Label) : list Label :=
  fold_left
    (fun extra dep =>
       let new_rules :=
         iter_rules it (rules_which_depend_on it ruleset dep useTags useMatch) in
       fold_left
         (fun extra rule =>
            if negb (label_in (target rule) depends)
            then set_add (target rule) extra else extra)
         new_rules extra)
    (iter_labels it depends) [].

Fixpoint required_by_loop (fuel : nat) (it : iteration A)
         (ruleset : RuleSet) (useTags useMatch : bool)
         (depends : list Label) : option (list Label) :=
  match fuel with
  | O => None
  | S fuel' =>
      let extra := required_by_extra it ruleset useTags useMatch depends in
      if Nat.ltb 0 (length extra)
      then required_by_loop fuel' it ruleset useTags useMatch
                            (set_union depends extra)
      else Some depends
  end.

(** [required_by(ruleset, label, useTags, useMatch)]; every round but
    the last adds the target of some rule, so the rounds allowed are one
    more than there are rules. *)
Definition required_by (it : iteration A) (ruleset : RuleSet)
           (label : Label) (useTags useMatch : bool)
  : option (result depend_error (list Label)) :=
  let rules := iter_rules it (rules_for_target ruleset label true useMatch) in
  if Nat.eqb (length rules) 0 then Some (Raise (NoRulesMatch label))
  else
    let depends := fold_left (fun s r => set_add (target r) s) rules [] in
    match required_by_loop (S (length ruleset)) it ruleset useTags useMatch
                           depends with
    | Some depends => Some (Ok depends)
    | None => None
    end.

End Rules.
Arguments RuleSet A : clear implicits.
Arguments depend_error A : clear implicits.
Arguments loop_state A : clear implicits.

(* ================================================================== *)
(** * Names from modules that are not embedded                         *)
(* ================================================================== *)

(** [utils.LabelType]; [utils.py] is not among the modules embedded
    here, so its three constants are taken as given. *)
Record LabelType_t : Type := mkLabelType {
  Checkout : string;
  Package : string;
  Deployment : string
}.

(** Modelled from the spec: [Label.copy_with_tag], which [commands.py]
    calls and [depend.py] does not define; "with_tag(new_tag): a
    value-preserving copy". *)
Definition copy_with_tag (self : Label) (new_tag : string) : Label :=
  set_tag (Label_copy self) new_tag.

(* ================================================================== *)
(** * Distribution actions ([muddled/distribute.py])                   *)
(* ================================================================== *)

Module Distribute.

(** [class DistributeAction]: a dictionary from the name of a
    distribution to what is to be done for it. [D] is [bool]
    ([copy_vcs_dir]) for a checkout and the triple
    [(binary, source, copy_vcs_dir)] for a package. *)
Record DistributeAction (D : Type) : Type := mkAction {
  distributions : gmap string D
}.
Arguments mkAction {D} distributions.
Arguments distributions {D} d.

Inductive distribute_error : Type :=
| MuddleBug_no_data (name : string).
    (* MuddleBug('This Action does not have data for distribution "%s"') *)

Section Action.
Context {D : Type}.

(** [DistributeAction.__init__(name, data)] *)
Definition DistributeAction_init (name : string) (data : D)
  : DistributeAction D :=
  mkAction {[ name := data ]}.

(** [DistributeAction.add_distribution] *)
Definition add_distribution (self : DistributeAction D)
           (name : string) (data : D) : DistributeAction D :=
  mkAction (<[ name := data ]> (distributions self)).

(** [DistributeAction.get_distribution] *)
Definition get_distribution (self : DistributeAction D) (name : string)
  : result distribute_error D :=
  match distributions self !! name with
  | Some data => Ok data
  | None => Raise (MuddleBug_no_data name)
  end.

(** [DistributeAction.does_distribution] *)
Definition does_distribution (self : DistributeAction D) (name : string)
  : bool :=
  bool_decide (is_Some (distributions self !! name)).

(** The names of the distributions an action serves. *)
Definition distribution_names (self : DistributeAction D) : gset string :=
  dom (distributions self).
End Action.

(** [DistributeCheckout.__init__(name, copy_vcs_dir=False)] *)
Definition DistributeCheckout (name : string) (copy_vcs_dir : bool)
  : DistributeAction bool :=
  DistributeAction_init name copy_vcs_dir.

(** [DistributePackage.__init__(name, binary=True, source=False,
    copy_vcs_dir=False)] *)
Definition DistributePackage (name : string)
           (binary source copy_vcs_dir : bool)
  : DistributeAction (bool * bool * bool) :=
  DistributeAction_init name (binary, source, copy_vcs_dir).

(** What the aggregation of two requests for one name would store if the
    booleans were composed by OR. *)
Definition or_data (old new : bool * bool * bool) : bool * bool * bool :=
  let '(b1, s1, v1) := old in
  let '(b2, s2, v2) := new in
  (b1 || b2, s1 || s2, v2).

(** [utils.LabelTag]; [utils.py] is not among the modules embedded
    here, so the constants used are taken as given. *)
Record LabelTag_t : Type := mkLabelTag {
  CheckedOut : string;
  PostInstalled : string;
  Distributed : string
}.

Inductive request_error : Type :=
| MuddleBug_wrong_type (label : Label)
    (* MuddleBug('Attempt to use non-checkout label %s for a distribute
       checkout rule') and its package twin *)
| KeyError (label : Label)
    (* ruleset.map[target_label] without such a key *)
| AttributeError (attribute : string).
    (* a method looked up on an object whose class does not define it *)

Section Requests.
Context {D : Type}.
Variable it : iteration (DistributeAction D).
Variable LabelTag : LabelTag_t.
(** [builder.invocation.target_label_exists]; [mechanics.py] is not
    among the modules embedded here. *)
Variable target_label_exists :
  RuleSet (DistributeAction D) -> Label -> bool.

(** The common shape of [distribute_checkout] and
    [distribute_package]. In the branch for an existing rule the
    variable called [action] is bound to [ruleset.map[target_label]],
    which is the [Rule], and [class Rule] defines neither
    [add_distribution] nor [add_context_name]: the call raises. *)
Definition request (expected_type : string) (source_tag : string)
           (method : string) (new_action : DistributeAction D)
           (ruleset : RuleSet (DistributeAction D)) (label : Label)
  : result request_error (RuleSet (DistributeAction D)) :=
  if negb (String.eqb (type label) expected_type)
  then Raise (MuddleBug_wrong_type label)
  else
    let source_label := copy_with_tag label source_tag in
    let target_label := copy_with_tag label (Distributed LabelTag) in
    if target_label_exists ruleset target_label then
      match map_get ruleset target_label with
      | None => Raise (KeyError target_label)
      | Some action => Raise (AttributeError method)
      end
    else
      let rule := Rule_init target_label (Some new_action) in
      let rule := Rule_add rule source_label in
      Ok (RuleSet_add it ruleset rule).
End Requests.

(** [distribute_checkout(builder, name, label, copy_vcs_dir)]; the rule
    set stands for [builder.invocation.ruleset]. *)
Definition distribute_checkout it LabelTag target_label_exists
           (LabelType : LabelType_t)
           (ruleset : RuleSet (DistributeAction bool))
           (name : string) (label : Label) (copy_vcs_dir : bool) :=
  request it LabelTag target_label_exists (Checkout LabelType)
          (CheckedOut LabelTag) "add_distribution"
          (DistributeCheckout name copy_vcs_dir) ruleset label.

(** [distribute_package(builder, name, label, binary, source,
    copy_vcs_dir)]; the new action is [DistributePackage(name)], built
    with the defaults whatever the three booleans passed. *)
Definition distribute_package it LabelTag target_label_exists
           (LabelType : LabelType_t)
           (ruleset : RuleSet (DistributeAction (bool * bool * bool)))
           (name : string) (label : Label)
           (binary source copy_vcs_dir : bool) :=
  request it LabelTag target_label_exists (Package LabelType)
          (PostInstalled LabelTag) "add_context_name"
          (DistributePackage name true false false) ruleset label.

End Distribute.

(* ================================================================== *)
(** * Commands ([muddled/commands.py])                                 *)
(* ================================================================== *)

(** [a in b] for two strings: [a] occurs in [b]. *)
Fixpoint str_in (a b : string) : bool :=
  String.prefix a b
  || match b with
     | String _ b' => str_in a b'
     | EmptyString => false
     end.

(** [enumerate(l)], counting from [start]. *)
Fixpoint enumerate_from {X : Type} (start : nat) (l : list X)
  : list (nat * X) :=
  match l with
  | [] => []
  | x :: l' => (start, x) :: enumerate_from (S start) l'
  end.

Definition enumerate {X : Type} (l : list X) : list (nat * X) :=
  enumerate_from 0 l.

Section Commands.
Context {A : Type}.

Inductive command_error : Type :=
| GiveUp_not_a_target (labels : list Label) (word : string)
    (* GiveUp("Label %s, from argument '%s', is not a target") and
       GiveUp("None of the labels %s, from argument '%s', is a target") *)
| GiveUp_cannot_cope (label : Label) (arg : string)
    (* GiveUp("Cannot cope with label '%s', from arg '%s'") *)
| IndexError (index : nat)
    (* [args[index]], read for that message, past the end of [args] *)
| GiveUp_fragment (word : string)
    (* whatever label_from_fragment raises *)
| Depend (e : depend_error A)
    (* an exception of depend.py, passed on *)
| Unfinished.
    (* a loop of depend.py out of passes; it does not happen, see
       [needed_to_build_returns] and [required_by_returns] *)

(** What the commands use of [builder.invocation]; [mechanics.py] is not
    among the modules embedded here. *)
Record Invocation : Type := mkInvocation {
  ruleset : RuleSet A;
  label_from_fragment :
    string -> string -> result command_error (list Label);
    (* the word and [default_type]; [default_role] and [default_domain]
       are [None] at both call sites *)
  target_label_exists : Label -> bool;
  all_checkout_labels : list Label;
  all_package_labels : list Label;
  default_roles : list string
}.

Variable LabelType : LabelType_t.
Variable it : iteration A.
Variable invocation : Invocation.

(** [if self.required_tag and label.tag != self.required_tag:
       label = label.copy_with_tag(self.required_tag)] *)
Definition force_required_tag (required_tag : option string)
           (label : Label) : Label :=
  match required_tag with
  | Some t =>
      if str_true required_tag && negb (String.eqb (tag label) t)
      then copy_with_tag label t
      else label
  | None => label
  end.

(** The first loop of both [decode_args]: the labels the arguments
    stand for, in order. *)
Definition initial_list_of (default_type : string)
           (all_labels_ : list Label) (args : list string)
  : result command_error (list Label) :=
  for_each
    (fun initial_list word =>
       if String.eqb word "_all" then Ok (initial_list ++ all_labels_)
       else
         labels ← label_from_fragment invocation word default_type;
         let used_labels :=
           List.filter (target_label_exists invocation) labels in
         if Nat.eqb (length used_labels) 0
         then Raise (GiveUp_not_a_target labels word)
         else Ok (initial_list ++ used_labels))
    args [].

(** A result of [depend.py] as the command sees it. *)
Definition from_depend {X : Type}
           (r : option (result (depend_error A) X))
  : result command_error X :=
  match r with
  | Some (Ok x) => Ok x
  | Some (Raise e) => Raise (Depend e)
  | None => Raise Unfinished
  end.

(** [raise GiveUp("Cannot cope with label '%s', from arg '%s'"
                 %(label, args[index]))]: [index] counts the labels of
    [initial_list], not the arguments, so [args[index]] may not be
    there. *)
Definition cannot_cope {X : Type} (args : list string) (index : nat)
           (label : Label) : result command_error X :=
  match nth_error args index with
  | Some arg => Raise (GiveUp_cannot_cope label arg)
  | None => Raise (IndexError index)
  end.

(** [for r in rules]: the targets of type [kind], at the required tag,
    added to [result_set]. *)
Definition add_rule_targets (kind : string) (required_tag : option string)
           (rules : list (Rule A)) (result_set : list Label) : list Label :=
  fold_left
    (fun result_set r =>
       let l := target r in
       if String.eqb (type l) kind
       then set_add (force_required_tag required_tag l) result_set
       else result_set)
    rules result_set.

(** [CheckoutCommand.decode_args]; [current_dir] is not used. *)
Definition CheckoutCommand_decode_args (required_tag : option string)
           (args : list string) : result command_error (list Label) :=
  initial_list ←
    initial_list_of (Checkout LabelType) (all_checkout_labels invocation)
                    args;
  result_set ←
    for_each
      (fun result_set '(index, label) =>
         if String.eqb (type label) (Checkout LabelType) then
           let label := force_required_tag required_tag label in
           Ok (set_add label result_set)
         else if String.eqb (type label) (Package LabelType)
                 || String.eqb (type label) (Deployment LabelType) then
           rules ← from_depend
                     (needed_to_build it (ruleset invocation) label
                                      true false);
           Ok (add_rule_targets (Checkout LabelType) required_tag
                                rules result_set)
         else cannot_cope args index label)
      (enumerate initial_list) [];
  Ok (iter_labels it result_set).

(** [PackageCommand.packages_from_checkout_label] *)
Definition packages_from_checkout_label (required_tag : option string)
           (label : Label) : result command_error (list Label) :=
  let result_set := [] in
  required_labels ←
    from_depend (required_by it (ruleset invocation) label true true);
  Ok (fold_left
        (fun result_set l =>
           if String.eqb (type l) (Package LabelType)
              && match role l with
                 | Some r => existsb (String.eqb r) (default_roles invocation)
                 | None => false
                 end
           then set_add (force_required_tag required_tag l) result_set
           else result_set)
        (iter_labels it required_labels) result_set).

(** [PackageCommand.decode_args]. The third test reads
    [label.type in (LabelType.Deployment)], and the parentheses make no
    tuple: it asks whether the type occurs in that string. *)
Definition PackageCommand_decode_args (required_tag : option string)
           (args : list string) : result command_error (list Label) :=
  initial_list ←
    initial_list_of (Package LabelType) (all_package_labels invocation)
                    args;
  result_set ←
    for_each
      (fun result_set '(index, label) =>
         if String.eqb (type label) (Package LabelType) then
           let label := force_required_tag required_tag label in
           Ok (set_add label result_set)
         else if String.eqb (type label) (Checkout LabelType) then
           more ← packages_from_checkout_label required_tag label;
           Ok (set_union result_set (iter_labels it more))
         else if str_in (type label) (Deployment LabelType) then
           rules ← from_depend
                     (needed_to_build it (ruleset invocation) label
                                      true false);
           Ok (add_rule_targets (Package LabelType) required_tag
                                rules result_set)
         else cannot_cope args index label)
      (enumerate initial_list) [];
  Ok (iter_labels it result_set).

(** The two categories of command whose arguments are decoded above. *)
Inductive category : Type := CAT_CHECKOUT | CAT_PACKAGE.

Definition own_kind (c : category) : string :=
  match c with
  | CAT_CHECKOUT => Checkout LabelType
  | CAT_PACKAGE => Package LabelType
  end.

(** What [_all] stands for: [all_checkout_labels()],
    [all_package_labels()]. *)
Definition all_labels_of (c : category) : list Label :=
  match c with
  | CAT_CHECKOUT => all_checkout_labels invocation
  | CAT_PACKAGE => all_package_labels invocation
  end.

Definition decode_args (c : category) (required_tag : option string)
           (args : list string) : result command_error (list Label) :=
  match c with
  | CAT_CHECKOUT => CheckoutCommand_decode_args required_tag args
  | CAT_PACKAGE => PackageCommand_decode_args required_tag args
  end.

End Commands.
Arguments command_error A : clear implicits.
Arguments Invocation A : clear implicits.

(* ================================================================== *)
(** * The notions the properties are stated with                       *)
(* ================================================================== *)

(** ** Label strings *)

Fixpoint all_chars (p : ascii -> bool) (s : string) : bool :=
  match s with
  | String c s' => p c && all_chars p s'
  | EmptyString => true
  end.

(** A part of a label as the grammar has it: a non-empty word over
    [[A-Za-z0-9._+-]], or the wildcard. *)
Definition valid_part (w : string) : Prop :=
  w = "*" \/ (w <> "" /\ all_chars label_char w = true).

Definition valid_optional_part (o : option string) : Prop :=
  match o with
  | Some w => valid_part w
  | None => True
  end.

(** Normalized flags: [T] before [S], no brackets around nothing. *)
Definition flags_text (transient_ system_ : bool) : string :=
  if transient_ || system_
  then "[" +:+ (if transient_ then "T" else "")
           +:+ (if system_ then "S" else "") +:+ "]"
  else "".

(** The string [kind:(domain)name{role}/tag[flags]] written out from its
    parts; an absent domain or role leaves no brackets behind. *)
Definition label_text (kind : string) (domain_ : option string)
           (name_ : string) (role_ : option string) (tag_ : string)
           (flags : string) : string :=
  kind +:+ ":"
  +:+ match domain_ with Some d => "(" +:+ d +:+ ")" | None => "" end
  +:+ name_
  +:+ match role_ with Some r => "{" +:+ r +:+ "}" | None => "" end
  +:+ "/" +:+ tag_ +:+ flags.

(** ** Matching *)

(** The five parts of a label that [match] looks at, in its order. *)
Definition parts (l : Label) : list (option string) :=
  [Some (type l); domain l; Some (name l); role l; Some (tag l)].

(** How many positions hold different parts, one of them the wildcard. *)
Definition wildcard_differences (a b : Label) : nat :=
  length
    (List.filter
       (fun xy => negb (opt_eqb (fst xy) (snd xy))
                  && (is_star_opt (fst xy) || is_star_opt (snd xy)))
       (combine (parts a) (parts b))).

(** How many positions hold different parts. *)
Definition differences (a b : Label) : nat :=
  length
    (List.filter (fun xy => negb (opt_eqb (fst xy) (snd xy)))
                 (combine (parts a) (parts b))).

(** ** Ordering *)

(** The lexicographic order on label tuples: the first position where
    the tuples differ holds the smaller value. *)
Inductive lex_lt : label_tuple -> label_tuple -> Prop :=
| lex_type t1 d1 n1 r1 g1 t2 d2 n2 r2 g2 :
    cmp_str t1 t2 = Lt ->
    lex_lt (t1, d1, n1, r1, g1) (t2, d2, n2, r2, g2)
| lex_domain t d1 n1 r1 g1 d2 n2 r2 g2 :
    cmp_opt d1 d2 = Lt ->
    lex_lt (t, d1, n1, r1, g1) (t, d2, n2, r2, g2)
| lex_name t d n1 r1 g1 n2 r2 g2 :
    cmp_str n1 n2 = Lt ->
    lex_lt (t, d, n1, r1, g1) (t, d, n2, r2, g2)
| lex_role t d n r1 g1 r2 g2 :
    cmp_opt r1 r2 = Lt ->
    lex_lt (t, d, n, r1, g1) (t, d, n, r2, g2)
| lex_tag t d n r g1 g2 :
    cmp_str g1 g2 = Lt ->
    lex_lt (t, d, n, r, g1) (t, d, n, r, g2).

(** A label with both flags replaced. *)
Definition with_flags (l : Label) (transient_ system_ : option bool) : Label :=
  set_transient (set_system l system_) transient_.

(** ** The dependency graph of a rule set *)

Section Graph.
Context {A : Type}.
Variable ruleset : RuleSet A.

(** The rules that apply to a label: all those whose key matches it. *)
Definition matching_rules (t : Label) : list (Rule A) :=
  rules_for_target ruleset t true true.

(** [t] depends on [d]: a rule that applies to [t] lists [d], or a
    label equal to it, among its dependencies. *)
Definition depends_on (t d : Label) : Prop :=
  exists r d0,
    In r (matching_rules t) /\ In d0 (deps r) /\ Label_eqb d0 d = true.

(** The labels that building [targets] needs: the targets, and what
    these depend on, at any depth. *)
Inductive needed (targets : list Label) : Label -> Prop :=
| needed_target t : label_in t targets = true -> needed targets t
| needed_dep t d : needed targets t -> depends_on t d -> needed targets d.

(** A chain of one or more dependencies from the first label down to
    the second. *)
Inductive chain : Label -> Label -> Prop :=
| chain_one t d : depends_on t d -> chain t d
| chain_more t d e : depends_on t d -> chain d e -> chain t e.

(** No needed label depends on itself, however far down. *)
Definition acyclic (targets : list Label) : Prop :=
  forall t, needed targets t -> ~ chain t t.

(** Every needed label has a rule that applies to it. *)
Definition complete (targets : list Label) : Prop :=
  forall t, needed targets t -> matching_rules t <> [].
End Graph.

(** ** What a successful run of the solver has done *)

Section Order.
Context {A : Type}.
Variable it : iteration A.
Variable ruleset : RuleSet A.

(** The rule appended for a target: the last of the rules that apply
    to it, in the order the loop walks them. *)
Definition chosen_rule (tgt : Label) : option (Rule A) :=
  last (iter_rules it (matching_rules ruleset tgt)).

(** [satisfied] lists labels in the order in which they were marked
    ready and [rules] the rule appended for each: when a label is
    marked, it is new, and all that it depends on has been marked. *)
Inductive build_order : list Label -> list (Rule A) -> Prop :=
| order_nil : build_order [] []
| order_snoc satisfied rules tgt r :
    build_order satisfied rules ->
    label_in tgt satisfied = false ->
    chosen_rule tgt = Some r ->
    (forall d, depends_on ruleset tgt d -> label_in d satisfied = true) ->
    build_order (satisfied ++ [tgt]) (rules ++ [r]).
End Order.

(** ** What a list of rules achieves *)

Section Achieved.
Context {A : Type}.

(** Every target matches the target of one of the rules. *)
Definition targets_satisfied (targets : list Label) (rl : list (Rule A))
  : Prop :=
  forall t, In t targets ->
            exists r, In r rl /\ is_Some (Label_match t (target r)).

(** Every dependency of every rule is the target of a rule earlier in
    the list. *)
Definition deps_are_earlier_targets (rl : list (Rule A)) : Prop :=
  forall i r d,
    rl !! i = Some r -> In d (deps r) ->
    exists j r', j < i /\ rl !! j = Some r'
                 /\ Label_eqb d (target r') = true.

(** Every dependency of every rule matches the target of a rule
    earlier in the list. *)
Definition deps_match_earlier_targets (rl : list (Rule A)) : Prop :=
  forall i r d,
    rl !! i = Some r -> In d (deps r) ->
    exists j r', j < i /\ rl !! j = Some r'
                 /\ is_Some (Label_match d (target r')).
End Achieved.

(** Of the rules that apply to [t], one at most is in the list. *)
Definition one_matching_rule_in {A : Type} (ruleset : RuleSet A)
           (t : Label) (rl : list (Rule A)) : Prop :=
  forall r1 r2,
    In r1 (matching_rules ruleset t) -> In r2 (matching_rules ruleset t) ->
    In r1 rl -> In r2 rl -> r1 = r2.

(** ** Inputs used as examples *)

(** [package:a/built] needs [checkout:b/checked_out], for which there
    is only the wildcard rule [checkout:*/checked_out]. *)
Definition example_label (kind nm tg : string) : Label :=
  mkLabel kind None nm None tg (Some false) (Some false).

Definition wildcard_ruleset : RuleSet unit :=
  [ (example_label "package" "a" "built",
     mkRule (example_label "package" "a" "built") None
            [example_label "checkout" "b" "checked_out"]);
    (example_label "checkout" "*" "checked_out",
     mkRule (example_label "checkout" "*" "checked_out") None []) ].

(** Two packages that need each other. *)
Definition circular_ruleset : RuleSet unit :=
  [ (example_label "package" "a" "built",
     mkRule (example_label "package" "a" "built") None
            [example_label "package" "b" "built"]);
    (example_label "package" "b" "built",
     mkRule (example_label "package" "b" "built") None
            [example_label "package" "a" "built"]) ].

(** Two rules apply to [package:a/built]: its own and a wildcard rule. *)
Definition overlapping_ruleset : RuleSet unit :=
  [ (example_label "package" "a" "built",
     mkRule (example_label "package" "a" "built") None
            [example_label "checkout" "a" "checked_out"]);
    (example_label "package" "*" "built",
     mkRule (example_label "package" "*" "built") None
            [example_label "checkout" "c" "checked_out"]);
    (example_label "checkout" "a" "checked_out",
     mkRule (example_label "checkout" "a" "checked_out") None []);
    (example_label "checkout" "c" "checked_out",
     mkRule (example_label "checkout" "c" "checked_out") None []) ].

(** A deployment that needs [package:a/built], [package:c/built] and
    [package:a/installed], which two wildcard rules provide between
    them: both apply to [package:a/built]. *)
Definition shared_ruleset : RuleSet unit :=
  [ (example_label "deployment" "d" "deployed",
     mkRule (example_label "deployment" "d" "deployed") None
            [example_label "package" "a" "built";
             example_label "package" "c" "built";
             example_label "package" "a" "installed"]);
    (example_label "package" "*" "built",
     mkRule (example_label "package" "*" "built") None []);
    (example_label "package" "a" "*",
     mkRule (example_label "package" "a" "*") None []) ].

(** What the solver answers for [deployment:d/deployed] on that rule
    set. *)
Definition shared_answer : list (Rule unit) :=
  [ mkRule (example_label "package" "a" "*") None [];
    mkRule (example_label "package" "*" "built") None [];
    mkRule (example_label "package" "a" "*") None [];
    mkRule (example_label "deployment" "d" "deployed") None
           [example_label "package" "a" "built";
            example_label "package" "c" "built";
            example_label "package" "a" "installed"] ].

(** What the solver answers for [package:a/built] on the two rule sets
    above that can be solved. *)
Definition wildcard_answer : list (Rule unit) :=
  [ mkRule (example_label "checkout" "*" "checked_out") None [];
    mkRule (example_label "package" "a" "built") None
           [example_label "checkout" "b" "checked_out"] ].

Definition overlapping_answer : list (Rule unit) :=
  [ mkRule (example_label "checkout" "a" "checked_out") None [];
    mkRule (example_label "checkout" "c" "checked_out") None [];
    mkRule (example_label "package" "*" "built") None
           [example_label "checkout" "c" "checked_out"] ].

(** [package:a/built] needs [checkout:b/checked_out], for which there
    is no rule at all. *)
Definition incomplete_ruleset : RuleSet unit :=
  [ (example_label "package" "a" "built",
     mkRule (example_label "package" "a" "built") None
            [example_label "checkout" "b" "checked_out"]) ].

(** A build with the one checkout [b]; whatever the user writes is read
    as a label of the default type with the tag [pulled]. *)
Definition example_LabelType : LabelType_t :=
  mkLabelType "checkout" "package" "deployment".

Definition example_invocation : Invocation unit :=
  mkInvocation wildcard_ruleset
    (fun word default_type => Ok [example_label default_type word "pulled"])
    (fun _ => true)
    [example_label "checkout" "b" "checked_out"]
    [example_label "package" "a" "built"]
    [].

(* ================================================================== *)
(** * Auxiliary notions of the proofs                                  *)
(* ================================================================== *)

(** ** The matcher on label strings *)

(** The input goes on with something outside the class, or ends. *)
Definition stops (cls : ascii -> bool) (rest : string) : Prop :=
  match rest with
  | String c _ => cls c = false
  | EmptyString => True
  end.

(** [commits r s caps rest caps']: on the input [s] the first way the
    matcher gets through [r] leaves [rest] and the groups [caps'], and a
    continuation that accepts them is never undone. *)
Definition commits (r : Re.regex) (s : string) (caps : Re.captures)
           (rest : string) (caps' : Re.captures) : Prop :=
  forall (R : Type) (k : string -> Re.captures -> option R) (x : R),
    k rest caps' = Some x -> Re.run r s caps k = Some x.

(** [fails r s caps]: no way through [r] at the head of [s]. *)
Definition fails (r : Re.regex) (s : string) (caps : Re.captures) : Prop :=
  forall (R : Type) (k : string -> Re.captures -> option R),
    Re.run r s caps k = None.

(** The pieces of [label_string_re] after the colon, and the text and
    the groups of an optional part. *)
Definition domain_re : Re.regex :=
  Re.Opt (unnamed (Re.Seq (Re.Lit "(")
                  (Re.Seq (named "domain" label_part) (Re.Lit ")")))).
Definition role_re : Re.regex :=
  Re.Opt (unnamed (Re.Seq (Re.Lit "{")
                  (Re.Seq (Re.Opt (named "role" label_part)) (Re.Lit "}")))).
Definition flags_re : Re.regex :=
  Re.Opt (unnamed (Re.Seq (Re.Lit "[")
                  (Re.Seq (named "flags" (Re.Rep1 flag_char)) (Re.Lit "]")))).

Definition domain_text (o : option string) : string :=
  match o with Some d => "(" +:+ d +:+ ")" | None => "" end.
Definition role_text (o : option string) : string :=
  match o with Some r => "{" +:+ r +:+ "}" | None => "" end.
Definition optional_group (n : string) (o : option string) : Re.captures :=
  match o with Some w => [(n, w)] | None => [] end.

(** The groups that normalized flags leave. *)
Definition flags_group (transient_ system_ : bool) : Re.captures :=
  if transient_ || system_
  then [("flags", (if transient_ then "T" else "")
                  +:+ (if system_ then "S" else ""))]
  else [].

(** ** Sets of labels, and the solver *)

(** Membership and distinctness of labels through their tuples. *)
Definition keys (s : list Label) : list label_tuple :=
  List.map Label_as_tuple s.

Definition kin (l : Label) (s : list Label) : Prop :=
  In (Label_as_tuple l) (keys s).

Definition distinct (s : list Label) : Prop := List.NoDup (keys s).

(** The first position of a label in a list, or the length of the list. *)
Fixpoint index_of (l : Label) (s : list Label) : nat :=
  match s with
  | [] => 0
  | x :: s' => if Label_eqb l x then 0 else S (index_of l s')
  end.

(** All the dependencies the loops over the rules of a target look at,
    in order. *)
Definition deps_in_order {A : Type} (it : iteration A)
           (rules : list (Rule A)) : list Label :=
  flat_map (fun r => iter_labels it (deps r)) rules.

(** What holds in the middle of a pass of the [while] loop of
    [needed_to_build]. The pass started with the satisfied labels [B0],
    the rules [rl0] and the targets [T1]; the targets [V] have been
    visited and [W] are still to visit. *)
Record pass_inv {A : Type} (it : iteration A) (ruleset : RuleSet A)
       (targets0 B0 : list Label) (rl0 : list (Rule A)) (T1 V W : list Label)
       (st : loop_state A) : Prop := mkPassInv {
  pi_order : build_order it ruleset (rule_target_set st) (rule_list st);
  pi_mono : forall x, kin x B0 -> kin x (rule_target_set st);
  pi_built : forall x, kin x (rule_target_set st) -> kin x B0 \/ kin x V;
  pi_new : forall x, kin x (new_targets st) ->
                     (kin x V \/ ~ kin x T1) /\ ~ kin x B0
                     /\ needed ruleset targets0 x;
  pi_disj : forall x, kin x (new_targets st) -> ~ kin x (rule_target_set st);
  pi_distinct : distinct (new_targets st);
  pi_visited : forall x, kin x V ->
                         kin x (new_targets st) \/ kin x (rule_target_set st);
  pi_measure : 2 * length B0 + length T1
               + (if done_something st then 1 else 0)
               <= 2 * length (rule_target_set st) + length (new_targets st)
                  + length W;
  pi_rules : forall t, kin t V -> matching_rules ruleset t <> [];
  pi_idle : done_something st = false ->
            rule_target_set st = B0 /\ rule_list st = rl0
            /\ (forall x, kin x (new_targets st) -> kin x V)
            /\ (forall t, kin t V ->
                          (exists d, depends_on ruleset t d /\ ~ kin d B0)
                          /\ (forall d, depends_on ruleset t d ->
                                        kin d B0 \/ kin d T1))
}.

(** What holds of the outcome of the solver started on the targets
    [targets0] for the query [target_]. *)
Definition outcome {A : Type} (it : iteration A) (ruleset : RuleSet A)
           (target_ : Label) (targets0 : list Label)
           (res : result (depend_error A) (list (Rule A))) : Prop :=
  match res with
  | Ok rl =>
      exists B, build_order it ruleset B rl
                /\ (forall x, kin x targets0 -> kin x B)
                /\ (forall x, kin x B -> needed ruleset targets0 x)
  | Raise (RuleListEmpty t) =>
      needed ruleset targets0 t /\ matching_rules ruleset t = []
  | Raise (CircularOrIncomplete building T rl rs) =>
      building = target_ /\ rs = ruleset /\ T <> []
      /\ exists B,
          build_order it ruleset B rl
          /\ (forall x, kin x targets0 -> kin x T \/ kin x B)
          /\ (forall x, kin x B -> needed ruleset targets0 x)
          /\ (forall t, kin t T ->
                        needed ruleset targets0 t /\ ~ kin t B
                        /\ matching_rules ruleset t <> []
                        /\ (exists d, depends_on ruleset t d /\ ~ kin d B
                                      /\ kin d T)
                        /\ (forall d, depends_on ruleset t d ->
                                      kin d B \/ kin d T))
  | Raise (NoRulesMatch _) => False
  end.

(* ================================================================== *)
(** * More of [muddled/depend.py]                                      *)
(* ================================================================== *)

(** [retag_label_list] *)
Definition retag_label_list (labels : list Label) (new_tag : string)
  : list Label :=
  fold_left
    (fun result l =>
       let next_l := Label_copy l in
       let next_l := set_tag next_l new_tag in
       result ++ [next_l])
    labels [].

(** [a < b] on labels, which Python 2 answers through [__cmp__]. *)
Definition Label_ltb (a b : Label) : bool := Z.ltb (Label_cmp a b) 0.

(** [list.sort()] on a list of labels. The sort of Python is stable, and
    the stable sort of a list is one list whatever the method; this one
    puts each label in turn behind those that are not greater. *)
Fixpoint insert_sorted (x : Label) (l : list Label) : list Label :=
  match l with
  | [] => [x]
  | y :: l' => if Label_ltb x y then x :: y :: l' else y :: insert_sorted x l'
  end.

Definition list_sort (l : list Label) : list Label :=
  fold_left (fun sorted x => insert_sorted x sorted) l [].

Section MoreRules.
Context {A : Type}.

(** [depend_none] *)
Definition depend_none (obj_ : option A) (label : Label) : Rule A :=
  Rule_init label obj_.

(** [depend_one] *)
Definition depend_one (obj_ : option A) (label dep_label : Label) : Rule A :=
  let rv := Rule_init label obj_ in
  Rule_add rv dep_label.

(** [depend_self] *)
Definition depend_self (obj_ : option A) (label : Label) (old_tag : string)
  : Rule A :=
  let rv := Rule_init label obj_ in
  let dep_label := Label_copy label in
  let dep_label := set_tag dep_label old_tag in
  Rule_add rv dep_label.

(** [depend_empty] *)
Definition depend_empty (obj_ : option A) (label : Label) : Rule A :=
  Rule_init label obj_.

(** The body of [for tag in tags] in [depend_chain], on the variables
    [last] and [ruleset]. *)
Definition depend_chain_step (it : iteration A) (obj_ : option A)
           (st : Label * RuleSet A) (tag_ : string) : Label * RuleSet A :=
  let '(last, ruleset) := st in
  let next := Label_copy last in
  let next := set_tag next tag_ in
  let r := Rule_init next obj_ in
  let r := Rule_add r last in
  (next, RuleSet_add it ruleset r).

(** [depend_chain(obj, label, tags, ruleset)]; the rule set it has
    added to is the result. *)
Definition depend_chain (it : iteration A) (obj_ : option A) (label : Label)
           (tags : list string) (ruleset : RuleSet A) : RuleSet A :=
  let last := Label_copy label in
  let r := Rule_init last obj_ in
  let ruleset := RuleSet_add it ruleset r in
  snd (fold_left (depend_chain_step it obj_) tags (last, ruleset)).

(** [RuleSet.rule_for_target(target, createIfNotPresent)]: what is
    returned, and the rule set after the call. *)
Definition rule_for_target_create (self : RuleSet A) (target_ : Label)
           (createIfNotPresent : bool) : option (Rule A) * RuleSet A :=
  let rv := map_get self target_ in
  match rv with
  | None =>
      if createIfNotPresent then
        let rv := Rule_init target_ None in
        (Some rv, map_set self target_ rv)
      else (rv, self)
  | Some _ => (rv, self)
  end.

(** [rule_with_least_dependencies]; [None] is what [best_r] holds when
    the set is empty. *)
Definition rule_with_least_dependencies (it : iteration A)
           (rules : list (Rule A)) : option (Rule A) :=
  fold_left
    (fun best_r r =>
       match best_r with
       | None => Some r
       | Some best =>
           if Nat.ltb (length (deps r)) (length (deps best))
           then Some r else best_r
       end)
    (iter_rules it rules) None.

End MoreRules.

(* ================================================================== *)
(** * More of [muddled/commands.py]                                    *)
(* ================================================================== *)

(** [l.remove(x)]: the first item equal to [x] goes. Python raises
    [ValueError] when there is none; below, [x] has just been read from
    the list. *)
Fixpoint remove_first (x : string) (l : list string) : list string :=
  match l with
  | [] => []
  | y :: l' => if String.eqb y x then l' else y :: remove_first x l'
  end.

(** The loop of [QueryCommand.get_switches]. [for arg in args] reads
    [args] by position, one further at each turn, until the position is
    outside the list as it is then; the body takes items out of that same
    list. [i] is the position, [fuel] bounds the turns. *)
Fixpoint get_switches_loop (fuel i : nat) (args allowed_switches : list string)
         (switches : list string) : option (list string * list string) :=
  match fuel with
  | O => None
  | S fuel' =>
      match args !! i with
      | None => Some (switches, args)
      | Some arg =>
          if existsb (String.eqb arg) allowed_switches
          then get_switches_loop fuel' (S i) (remove_first arg args)
                                 allowed_switches (switches ++ [arg])
          else get_switches_loop fuel' (S i) args allowed_switches switches
      end
  end.

(** [QueryCommand.get_switches(args, allowed_switches)]: the switches
    returned, and [args] as the call leaves it. *)
Definition get_switches (args allowed_switches : list string)
  : option (list string * list string) :=
  get_switches_loop (S (length args)) 0 args allowed_switches [].

Section MoreCommands.
Context {A : Type}.

(** The exceptions of the two [decode_args] below. *)
Inductive decode_error : Type :=
| GiveUp_all_not_allowed
    (* GiveUp('Command %s does not allow _all as an argument') *)
| Failure_label (e : label_error)
    (* utils.Failure from Label(...) *)
| Command_error (e : command_error A).
    (* as in the checkout and package commands *)

Definition from_command {X : Type} (r : result (command_error A) X)
  : result decode_error X :=
  match r with
  | Ok x => Ok x
  | Raise e => Raise (Command_error e)
  end.

Definition from_label {X : Type} (r : result label_error X)
  : result decode_error X :=
  match r with
  | Ok x => Ok x
  | Raise e => Raise (Failure_label e)
  end.

Variable LabelType : LabelType_t.
Variable it : iteration A.
Variable invocation : Invocation A.

(** [DeploymentCommand.all_deployment_labels]; [default_domain] is not
    used. [required_tag] is [LabelTag.Deployed] or the tag of a
    subclass: a string. *)
Definition all_deployment_labels (required_tag : string)
  : result decode_error (list Label) :=
  match_lbl ← from_label (Label_init (Deployment LabelType) "*" None "*"
                                     (Some false) (Some false) (Some "*"));
  let matching :=
    iter_rules it (rules_for_target (ruleset invocation) match_lbl
                                    true true) in
  let return_set :=
    fold_left
      (fun return_set m =>
         let label := target m in
         if String.eqb (tag label) required_tag
         then set_add label return_set
         else set_add (copy_with_tag label required_tag) return_set)
      matching [] in
  Ok (iter_labels it return_set).

(** How the first loop of [DeploymentCommand.decode_args] ends: with
    the [return] under [_all], or at the end of the arguments. *)
Inductive first_loop : Type :=
| Returned (return_list : list Label)
| Went_through (initial_list : list Label).

Fixpoint deployment_first_loop (required_tag : string)
         (args : list string) (initial_list : list Label)
  : result decode_error first_loop :=
  match args with
  | [] => Ok (Went_through initial_list)
  | word :: args' =>
      if String.eqb word "_all" then
        return_list ← all_deployment_labels required_tag;
        let return_list := list_sort return_list in
        Ok (Returned return_list)
      else
        labels ← from_command
                   (label_from_fragment invocation word
                                        (Deployment LabelType));
        let used_labels :=
          List.filter (target_label_exists invocation) labels in
        if Nat.eqb (length used_labels) 0
        then Raise (Command_error (GiveUp_not_a_target labels word))
        else deployment_first_loop required_tag args'
                                   (initial_list ++ used_labels)
  end.

(** [for l in required_labels] in [DeploymentCommand.decode_args]. *)
Definition add_required_deployments (required_tag : string)
           (required_labels result_set : list Label) : list Label :=
  fold_left
    (fun result_set l =>
       if String.eqb (type l) (Deployment LabelType)
       then set_add (force_required_tag (Some required_tag) l) result_set
       else result_set)
    required_labels result_set.

(** [DeploymentCommand.decode_args]; [current_dir] is not used. *)
Definition DeploymentCommand_decode_args (required_tag : string)
           (args : list string) : result decode_error (list Label) :=
  first ← deployment_first_loop required_tag args [];
  match first with
  | Returned return_list => Ok return_list
  | Went_through initial_list =>
      result_set ←
        for_each
          (fun result_set '(index, label) =>
             if String.eqb (type label) (Deployment LabelType) then
               let label := force_required_tag (Some required_tag) label in
               Ok (set_add label result_set)
             else if String.eqb (type label) (Checkout LabelType)
                     || String.eqb (type label) (Package LabelType) then
               required_labels ←
                 from_command
                   (from_depend (required_by it (ruleset invocation) label
                                             true true));
               Ok (add_required_deployments required_tag
                     (iter_labels it required_labels) result_set)
             else from_command (cannot_cope args index label))
          (enumerate initial_list) [];
      Ok (iter_labels it result_set)
  end.

(** [AnyLabelCommand.decode_args]; [current_dir] is not used. *)
Definition AnyLabelCommand_decode_args (args : list string)
  : result decode_error (list Label) :=
  for_each
    (fun result_list word =>
       if String.eqb word "_all" then Raise GiveUp_all_not_allowed
       else
         labels ← from_command
                    (label_from_fragment invocation word
                                         (Package LabelType));
         let used_labels :=
           List.filter (target_label_exists invocation) labels in
         if Nat.eqb (length used_labels) 0
         then Raise (Command_error (GiveUp_not_a_target labels word))
         else Ok (result_list ++ used_labels))
    args [].

End MoreCommands.
Arguments decode_error A : clear implicits.

(* ================================================================== *)
(** * More notions the properties are stated with                      *)
(* ================================================================== *)

(** Two parts clash: they differ and neither is the wildcard. *)
Definition clash (x y : option string) : bool :=
  negb (opt_eqb x y) && negb (is_star_opt x || is_star_opt y).

(** A label none of whose parts is the wildcard. *)
Definition definite (l : Label) : Prop :=
  forallb (fun p => negb (is_star_opt p)) (parts l) = true.

(** The labels that [depend_chain] strings together: the label, then
    the label at each of the tags in turn. *)
Definition chain_labels (label : Label) (tags : list string) : list Label :=
  label :: List.map (set_tag label) tags.

Section ChainRules.
Context {A : Type}.

(** The rule of one link: to reach [l], after the link before it if
    there is one, with the object given. *)
Definition chain_rule (obj_ : option A) (prev : option Label) (l : Label)
  : Rule A :=
  mkRule l obj_ (match prev with Some p => [p] | None => [] end).

(** The rules of the links [chain], one after the other, each filed
    under its label. *)
Fixpoint chain_rules (obj_ : option A) (prev : option Label)
         (chain : list Label) : RuleSet A :=
  match chain with
  | [] => []
  | l :: chain' =>
      (l, chain_rule obj_ prev l) :: chain_rules obj_ (Some l) chain'
  end.
End ChainRules.

Section Dependants.
Context {A : Type}.
Variable it : iteration A.
Variable ruleset : RuleSet A.
Variable useTags useMatch : bool.

(** What needs [label], at any depth: the targets of the rules found
    for [label], and the target of every rule that
    [rules_which_depend_on] finds for a label that needs it. *)
Inductive dependant (label : Label) : Label -> Prop :=
| dependant_first r :
    In r (rules_for_target ruleset label true useMatch) ->
    dependant label (target r)
| dependant_next d r :
    dependant label d ->
    In r (rules_which_depend_on it ruleset d useTags useMatch) ->
    dependant label (target r).
End Dependants.

(** ** More inputs used as examples *)

(** The tags of [utils.LabelTag] that the distribution requests use. *)
Definition example_LabelTag : Distribute.LabelTag_t :=
  Distribute.mkLabelTag "checked_out" "postinstalled" "distributed".

(* ================================================================== *)
(* ================================================================== *)
(** * Proofs                                                           *)
(* ================================================================== *)
(* ================================================================== *)

(* ================================================================== *)
(** * Labels: comparison                                               *)
(* ================================================================== *)

Lemma string_compare_refl (s : string) : String.compare s s = Eq.
Proof.
  induction s as [|c s IH]; simpl; [reflexivity|].
  assert (Hc : Ascii.compare c c = Eq).
  { destruct (Ascii.compare c c) eqn:E; try reflexivity;
      pose proof (Ascii.compare_antisym c c) as Ha; rewrite E in Ha;
      discriminate. }
  rewrite Hc. exact IH.
Qed.

Lemma cmp_str_eq (a b : string) : cmp_str a b = Eq <-> a = b.
Proof.
  split; [apply String.compare_eq_iff|].
  intros ->. apply string_compare_refl.
Qed.

Lemma cmp_opt_eq (a b : option string) : cmp_opt a b = Eq <-> a = b.
Proof.
  destruct a as [x|], b as [y|]; simpl; try (split; congruence).
  rewrite (cmp_str_eq x y). split; congruence.
Qed.

Lemma cmp_str_gt (a b : string) : cmp_str a b = Gt <-> cmp_str b a = Lt.
Proof.
  unfold cmp_str. rewrite (String.compare_antisym b a).
  destruct (String.compare a b); simpl; split; congruence.
Qed.

Lemma cmp_opt_gt (a b : option string) : cmp_opt a b = Gt <-> cmp_opt b a = Lt.
Proof.
  destruct a as [x|], b as [y|]; simpl; try (split; congruence).
  apply cmp_str_gt.
Qed.

Lemma cmp_tuple_eq (x y : label_tuple) : cmp_tuple x y = Eq <-> x = y.
Proof.
  destruct x as [[[[t1 d1] n1] r1] g1], y as [[[[t2 d2] n2] r2] g2].
  unfold cmp_tuple, cmp_then. split.
  - destruct (cmp_str t1 t2) eqn:E1; try discriminate.
    destruct (cmp_opt d1 d2) eqn:E2; try discriminate.
    destruct (cmp_str n1 n2) eqn:E3; try discriminate.
    destruct (cmp_opt r1 r2) eqn:E4; try discriminate.
    intros E5.
    apply cmp_str_eq in E1, E3, E5. apply cmp_opt_eq in E2, E4.
    congruence.
  - intros [= -> -> -> -> ->].
    rewrite !(proj2 (cmp_str_eq _ _) eq_refl), !(proj2 (cmp_opt_eq _ _) eq_refl).
    reflexivity.
Qed.

Lemma cmp_tuple_lt (x y : label_tuple) : cmp_tuple x y = Lt <-> lex_lt x y.
Proof.
  destruct x as [[[[t1 d1] n1] r1] g1], y as [[[[t2 d2] n2] r2] g2].
  unfold cmp_tuple, cmp_then. split.
  - destruct (cmp_str t1 t2) eqn:E1; try discriminate;
      [apply cmp_str_eq in E1; subst t2 | intros _; now apply lex_type].
    destruct (cmp_opt d1 d2) eqn:E2; try discriminate;
      [apply cmp_opt_eq in E2; subst d2 | intros _; now apply lex_domain].
    destruct (cmp_str n1 n2) eqn:E3; try discriminate;
      [apply cmp_str_eq in E3; subst n2 | intros _; now apply lex_name].
    destruct (cmp_opt r1 r2) eqn:E4; try discriminate;
      [apply cmp_opt_eq in E4; subst r2 | intros _; now apply lex_role].
    intros E5. now apply lex_tag.
  - intros H. inversion H; subst;
      repeat first [ rewrite (proj2 (cmp_str_eq _ _) eq_refl)
                   | rewrite (proj2 (cmp_opt_eq _ _) eq_refl) ];
      match goal with E : _ = Lt |- _ => rewrite E end; reflexivity.
Qed.

Lemma cmp_opt_antisym (a b : option string) :
  cmp_opt b a = CompOpp (cmp_opt a b).
Proof.
  destruct a as [x|], b as [y|]; simpl; try reflexivity.
  apply String.compare_antisym.
Qed.

Lemma cmp_tuple_antisym (x y : label_tuple) :
  cmp_tuple y x = CompOpp (cmp_tuple x y).
Proof.
  destruct x as [[[[t1 d1] n1] r1] g1], y as [[[[t2 d2] n2] r2] g2].
  unfold cmp_tuple, cmp_then, cmp_str.
  rewrite (String.compare_antisym t2 t1), (cmp_opt_antisym d1 d2),
    (String.compare_antisym n2 n1), (cmp_opt_antisym r1 r2),
    (String.compare_antisym g2 g1).
  destruct (String.compare t1 t2), (cmp_opt d1 d2), (String.compare n1 n2),
    (cmp_opt r1 r2); reflexivity.
Qed.

Lemma cmp_tuple_gt (x y : label_tuple) : cmp_tuple x y = Gt <-> cmp_tuple y x = Lt.
Proof.
  rewrite (cmp_tuple_antisym x y).
  destruct (cmp_tuple x y); simpl; split; congruence.
Qed.

Lemma Label_eqb_tuple (a b : Label) :
  Label_eqb a b = true <-> Label_as_tuple a = Label_as_tuple b.
Proof.
  unfold Label_eqb, Label_cmp, tuple_lt, tuple_gt.
  rewrite <- cmp_tuple_eq.
  destruct (cmp_tuple (Label_as_tuple a) (Label_as_tuple b));
    simpl; split; congruence.
Qed.

Lemma Label_eqb_refl (a : Label) : Label_eqb a a = true.
Proof. now apply Label_eqb_tuple. Qed.

Lemma Label_eqb_sym (a b : Label) : Label_eqb a b = Label_eqb b a.
Proof.
  destruct (Label_eqb a b) eqn:E1, (Label_eqb b a) eqn:E2; try reflexivity.
  - apply Label_eqb_tuple in E1. symmetry in E1.
    apply Label_eqb_tuple in E1. congruence.
  - apply Label_eqb_tuple in E2. symmetry in E2.
    apply Label_eqb_tuple in E2. congruence.
Qed.

(** C6. Equality, ordering and hashing of labels go through [as_tuple]
    alone: [a == b] holds exactly when the tuples are equal, [__cmp__]
    answers -1 and 1 exactly along the lexicographic order of the tuples,
    equal tuples hash alike, and none of the three changes when the
    [transient] and [system] flags of either label are replaced. *)
Theorem label_comparison_ignores_flags
        (py_hash : label_tuple -> Z) (a b : Label) :
  (Label_eqb a b = true <-> Label_as_tuple a = Label_as_tuple b)
  /\ (Label_cmp a b = (-1)%Z <-> lex_lt (Label_as_tuple a) (Label_as_tuple b))
  /\ (Label_cmp a b = 1%Z <-> lex_lt (Label_as_tuple b) (Label_as_tuple a))
  /\ (Label_as_tuple a = Label_as_tuple b ->
      Label_hash py_hash a = Label_hash py_hash b)
  /\ (forall ta sa tb sb,
         Label_eqb (with_flags a ta sa) (with_flags b tb sb) = Label_eqb a b
         /\ Label_cmp (with_flags a ta sa) (with_flags b tb sb) = Label_cmp a b
         /\ Label_hash py_hash (with_flags a ta sa) = Label_hash py_hash a).
Proof.
  split; [apply Label_eqb_tuple|].
  split.
  { unfold Label_cmp, tuple_lt, tuple_gt. rewrite <- cmp_tuple_lt.
    destruct (cmp_tuple (Label_as_tuple a) (Label_as_tuple b));
      split; congruence. }
  split.
  { unfold Label_cmp, tuple_lt, tuple_gt.
    rewrite <- cmp_tuple_lt, <- cmp_tuple_gt.
    destruct (cmp_tuple (Label_as_tuple a) (Label_as_tuple b));
      split; congruence. }
  split.
  { unfold Label_hash. now intros ->. }
  intros ta sa tb sb. repeat split.
Qed.

(* ================================================================== *)
(** * Labels: matching                                                 *)
(* ================================================================== *)

Lemma opt_eqb_refl (o : option string) : opt_eqb o o = true.
Proof. destruct o; simpl; [apply String.eqb_refl | reflexivity]. Qed.

Lemma opt_eqb_eq (a b : option string) : opt_eqb a b = true <-> a = b.
Proof.
  destruct a, b; simpl; try (split; congruence).
  rewrite String.eqb_eq. split; congruence.
Qed.

Lemma Label_match_refl (a : Label) : Label_match a a = Some 0%Z.
Proof.
  unfold Label_match.
  rewrite !String.eqb_refl, !opt_eqb_refl. reflexivity.
Qed.

(** The score of [match] written as one expression. *)
Lemma Label_match_score (a b : Label) (n : Z) :
  Label_match a b = Some n ->
  n = (- Z.of_nat (wildcard_differences a b))%Z
  /\ wildcard_differences a b = differences a b.
Proof.
  unfold Label_match, wildcard_differences, differences, parts, match_block.
  cbn [combine List.filter fst snd opt_eqb is_star_opt mbind option_bind].
  destruct (String.eqb (type a) (type b)),
           (opt_eqb (domain a) (domain b)),
           (String.eqb (name a) (name b)),
           (opt_eqb (role a) (role b)),
           (String.eqb (tag a) (tag b));
    cbn [negb andb];
    destruct (is_star (type a) || is_star (type b)),
             (is_star_opt (domain a) || is_star_opt (domain b)),
             (is_star (name a) || is_star (name b)),
             (is_star_opt (role a) || is_star_opt (role b)),
             (is_star (tag a) || is_star (tag b));
    cbn; intros [= <-]; split; reflexivity.
Qed.

(** C10. A label matches itself with score 0, wildcard parts included:
    parts that are equal on both sides never count. Whenever two labels
    match, the score is minus the number of positions at which they
    differ, and at each of those one side is the wildcard. *)
Theorem match_reflexive_at_full_specificity (a : Label) :
  Label_match a a = Some 0%Z
  /\ (forall b n,
         Label_match a b = Some n ->
         n = (- Z.of_nat (differences a b))%Z
         /\ differences a b = wildcard_differences a b).
Proof.
  split; [apply Label_match_refl|].
  intros b n H. destruct (Label_match_score a b n H) as [-> E].
  rewrite E. split; reflexivity.
Qed.

#[local] Arguments String.append : simpl nomatch.

(* ================================================================== *)
(** * Labels: [re_tag]                                                 *)
(* ================================================================== *)

(** What [re_tag] keeps and what it overwrites. *)
Lemma Label_re_tag_fields (l : Label) (t : string) :
  type (Label_re_tag l t) = type l
  /\ domain (Label_re_tag l t) = domain l
  /\ name (Label_re_tag l t) = name l
  /\ role (Label_re_tag l t) = role l
  /\ tag (Label_re_tag l t) = t
  /\ transient (Label_re_tag l t) = None
  /\ system (Label_re_tag l t) = None.
Proof. repeat split. Qed.

(** C5. [re_tag] on the transient system label
    [package:busybox/built[TS]]: the copy has the new tag and the same
    kind, domain, name and role, but both flags are overwritten with the
    defaults of the keyword arguments ([None]), so the copy is neither
    transient nor system and prints without its flags. *)
Theorem re_tag_loses_flags :
  let l := mkLabel "package" None "busybox" None "built"
                   (Some true) (Some true) in
  let l' := Label_re_tag l "installed" in
  Label_as_tuple l' = ("package", None, "busybox", None, "installed")
  /\ flag_true (transient l) = true /\ flag_true (system l) = true
  /\ transient l' = None /\ system l' = None
  /\ transient l' <> transient l /\ system l' <> system l
  /\ Label_str l = "package:busybox/built[TS]"
  /\ Label_str l' = "package:busybox/installed".
Proof. cbn. repeat split; discriminate. Qed.

(* ================================================================== *)
(** * Labels: parsing                                                  *)
(* ================================================================== *)

Lemma append_assoc (a b c : string) : (a +:+ b) +:+ c = a +:+ (b +:+ c).
Proof. induction a as [|x a IH]; simpl; [reflexivity | now rewrite IH]. Qed.

Lemma append_nil_r (a : string) : a +:+ "" = a.
Proof. induction a as [|x a IH]; simpl; [reflexivity | now rewrite IH]. Qed.

Lemma length_append (a b : string) :
  String.length (a +:+ b) = String.length a + String.length b.
Proof. induction a as [|x a IH]; simpl; [reflexivity | now rewrite IH]. Qed.

Lemma substring_all (a : string) : substring 0 (String.length a) a = a.
Proof. induction a as [|x a IH]; simpl; [reflexivity | now rewrite IH]. Qed.

Lemma substring_prefix (a b : string) :
  substring 0 (String.length a) (a +:+ b) = a.
Proof.
  induction a as [|x a IH]; simpl; [now destruct b | now rewrite IH].
Qed.

Lemma consumed_append (w rest : string) : Re.consumed (w +:+ rest) rest = w.
Proof.
  unfold Re.consumed. rewrite length_append.
  replace (String.length w + String.length rest - String.length rest)
    with (String.length w) by lia.
  apply substring_prefix.
Qed.

Section Completeness.
Context {R : Type}.

(** A greedy repetition over [w], all of it in the class, when the
    continuation accepts what follows. *)
Lemma rep0_word (cls : ascii -> bool) (w rest : string)
      (k : string -> option R) (x : R) :
  all_chars cls w = true -> stops cls rest -> k rest = Some x ->
  Re.rep0 cls (w +:+ rest) k = Some x.
Proof.
  intros Hw Hs Hk. induction w as [|c w IH]; simpl in *.
  - destruct rest as [|c r]; simpl in *; [exact Hk|].
    rewrite Hs. exact Hk.
  - apply andb_true_iff in Hw as [Hc Hw]. rewrite Hc, (IH Hw).
    reflexivity.
Qed.

Lemma rep1_word (cls : ascii -> bool) (w rest : string)
      (k : string -> option R) (x : R) :
  w <> "" -> all_chars cls w = true -> stops cls rest -> k rest = Some x ->
  Re.rep1 cls (w +:+ rest) k = Some x.
Proof.
  intros Hne Hw Hs Hk. destruct w as [|c w]; [congruence|].
  simpl in *. apply andb_true_iff in Hw as [Hc Hw]. rewrite Hc.
  now apply rep0_word.
Qed.

Lemma rep1_stops (cls : ascii -> bool) (s : string)
      (k : string -> option R) :
  stops cls s -> Re.rep1 cls s k = None.
Proof.
  destruct s as [|c s]; simpl; [reflexivity|]. now intros ->.
Qed.

(** [label_part] on a valid part. *)
Lemma run_label_part (w rest : string) (caps : Re.captures)
      (k : string -> Re.captures -> option R) (x : R) :
  valid_part w -> stops label_char rest -> k rest caps = Some x ->
  Re.run label_part (w +:+ rest) caps k = Some x.
Proof.
  intros [-> | [Hne Hw]] Hs Hk; unfold label_part; cbn [Re.run].
  - exact Hk.
  - rewrite (rep1_word label_char w rest (fun s' => k s' caps) x);
      auto.
Qed.

Lemma run_named_part (n w rest : string) (caps : Re.captures)
      (k : string -> Re.captures -> option R) (x : R) :
  valid_part w -> stops label_char rest ->
  k rest ((n, w) :: caps) = Some x ->
  Re.run (named n label_part) (w +:+ rest) caps k = Some x.
Proof.
  intros Hw Hs Hk. unfold named.
  change (Re.run (Re.Group (Some n) label_part) (w +:+ rest) caps k)
    with (Re.run label_part (w +:+ rest) caps
            (fun s' caps' =>
               k s' (Re.set_group (Some n)
                       (Re.consumed (w +:+ rest) s') caps'))).
  apply run_label_part; auto.
  rewrite consumed_append. exact Hk.
Qed.

(** [label_part] where no part starts. *)
Lemma run_label_part_none (s : string) (caps : Re.captures)
      (k : string -> Re.captures -> option R) :
  stops label_char s ->
  match s with String c _ => c <> "*"%char | EmptyString => True end ->
  Re.run label_part s caps k = None.
Proof.
  intros Hs Hstar. unfold label_part. cbn [Re.run].
  rewrite rep1_stops by exact Hs.
  destruct s as [|c s]; [reflexivity|].
  destruct (Ascii.eqb_spec "*" c) as [<-|]; [congruence | reflexivity].
Qed.
End Completeness.

(** A valid part begins with a character of the class or the star. *)
Lemma valid_part_head (w : string) :
  valid_part w ->
  exists c w', w = String c w' /\ (label_char c = true \/ c = "*"%char).
Proof.
  intros [-> | [Hne Hw]].
  - exists "*"%char, ""%string. auto.
  - destruct w as [|c w]; [congruence|]. simpl in Hw.
    apply andb_true_iff in Hw as [Hc _]. exists c, w. auto.
Qed.

Lemma valid_part_nonempty (w : string) : valid_part w -> w <> "".
Proof. intros [-> | [Hne _]]; [discriminate | exact Hne]. Qed.

(** [_check_value] accepts exactly what it should of a valid part. *)
Lemma Label_check_value_valid (what w : string) :
  valid_part w -> Label_check_value what w = Ok tt.
Proof.
  intros Hw. unfold Label_check_value, Re.re_match.
  rewrite <- (append_nil_r w) at 1.
  erewrite run_label_part; [| exact Hw | exact I | reflexivity].
  cbn [Re.m_end String.length]. rewrite Nat.sub_0_r, Nat.eqb_refl.
  reflexivity.
Qed.

Lemma check_optional_valid (what : string) (o : option string) :
  valid_optional_part o -> check_optional what o = Ok tt.
Proof. destruct o; simpl; [apply Label_check_value_valid | reflexivity]. Qed.

Lemma Label_init_valid ty nm rl tg tr sy dom :
  valid_part ty -> valid_part nm -> valid_optional_part rl ->
  valid_part tg -> valid_optional_part dom ->
  Label_init ty nm rl tg tr sy dom = Ok (mkLabel ty dom nm rl tg tr sy).
Proof.
  intros Hty Hnm Hrl Htg Hdom. unfold Label_init.
  rewrite !Label_check_value_valid, !check_optional_valid by assumption.
  reflexivity.
Qed.

Lemma commits_seq r1 r2 s caps s1 caps1 s2 caps2 :
  commits r1 s caps s1 caps1 -> commits r2 s1 caps1 s2 caps2 ->
  commits (Re.Seq r1 r2) s caps s2 caps2.
Proof.
  intros H1 H2 R k x Hk. cbn [Re.run]. apply H1. now apply H2.
Qed.

Lemma commits_lit c s caps : commits (Re.Lit c) (String c "" +:+ s) caps s caps.
Proof.
  intros R k x Hk. cbn [Re.run]. simpl. now rewrite Ascii.eqb_refl.
Qed.

Lemma commits_named_part n w rest caps :
  valid_part w -> stops label_char rest ->
  commits (named n label_part) (w +:+ rest) caps rest ((n, w) :: caps).
Proof. intros Hw Hs R k x Hk. now apply run_named_part. Qed.

Lemma commits_opt r s caps rest caps' :
  commits r s caps rest caps' -> commits (Re.Opt r) s caps rest caps'.
Proof. intros H R k x Hk. cbn [Re.run]. now rewrite (H R k x Hk). Qed.

Lemma commits_opt_skip r s caps :
  fails r s caps -> commits (Re.Opt r) s caps s caps.
Proof. intros H R k x Hk. cbn [Re.run]. now rewrite (H R k). Qed.

Lemma commits_unnamed r s caps rest caps' :
  commits r s caps rest caps' -> commits (unnamed r) s caps rest caps'.
Proof. intros H R k x Hk. unfold unnamed. cbn [Re.run]. now apply H. Qed.

Lemma fails_unnamed r s caps : fails r s caps -> fails (unnamed r) s caps.
Proof. intros H R k. unfold unnamed. cbn [Re.run]. apply H. Qed.

Lemma fails_seq r1 r2 s caps : fails r1 s caps -> fails (Re.Seq r1 r2) s caps.
Proof. intros H R k. cbn [Re.run]. apply H. Qed.

Lemma fails_after_lit c r s caps :
  fails r s caps -> fails (Re.Seq (Re.Lit c) r) (String c "" +:+ s) caps.
Proof.
  intros H R k. cbn [Re.run]. simpl. rewrite Ascii.eqb_refl. apply H.
Qed.

Lemma fails_lit c s caps :
  match s with String c' _ => c' <> c | EmptyString => True end ->
  fails (Re.Lit c) s caps.
Proof.
  intros H R k. cbn [Re.run]. destruct s as [|c' s]; [reflexivity|].
  destruct (Ascii.eqb_spec c c'); [congruence | reflexivity].
Qed.

(** A bracket does not open where a part begins. *)
Lemma fails_lit_at_part c w rest caps :
  label_char c = false -> c <> "*"%char -> valid_part w ->
  fails (Re.Lit c) (w +:+ rest) caps.
Proof.
  intros Hc Hstar Hw. apply fails_lit.
  destruct (valid_part_head w Hw) as (c' & w' & -> & Hc'). simpl.
  intros ->. destruct Hc' as [Hc' | Hc']; congruence.
Qed.

Lemma label_string_re_pieces :
  label_string_re =
  Re.Seq (named "type" label_part)
    (Re.Seq (Re.Lit ":")
       (Re.Seq domain_re
          (Re.Seq (named "name" label_part)
             (Re.Seq role_re
                (Re.Seq (Re.Lit "/")
                   (Re.Seq (named "tag" label_part) flags_re)))))).
Proof. reflexivity. Qed.

Lemma commits_domain dom w rest caps :
  valid_optional_part dom -> valid_part w ->
  commits domain_re (domain_text dom +:+ w +:+ rest) caps
          (w +:+ rest) (optional_group "domain" dom ++ caps).
Proof.
  intros Hdom Hw. destruct dom as [d|]; simpl in Hdom |- *.
  - rewrite !append_assoc. apply commits_opt, commits_unnamed.
    eapply commits_seq; [apply commits_lit|].
    eapply commits_seq; [|apply commits_lit].
    apply commits_named_part; [exact Hdom | reflexivity].
  - apply commits_opt_skip, fails_unnamed, fails_seq.
    now apply fails_lit_at_part.
Qed.

Lemma commits_role rl rest caps :
  valid_optional_part rl ->
  commits role_re (role_text rl +:+ "/" +:+ rest) caps
          ("/" +:+ rest) (optional_group "role" rl ++ caps).
Proof.
  intros Hrl. destruct rl as [r|]; simpl in Hrl |- *.
  - rewrite !append_assoc. apply commits_opt, commits_unnamed.
    eapply commits_seq; [apply commits_lit|].
    eapply commits_seq; [|apply commits_lit].
    apply commits_opt, commits_named_part; [exact Hrl | reflexivity].
  - apply commits_opt_skip, fails_unnamed, fails_seq, fails_lit.
    simpl. discriminate.
Qed.

Lemma commits_flags t s caps :
  commits flags_re (flags_text t s) caps "" (flags_group t s ++ caps).
Proof.
  destruct t, s; intros R k x Hk; cbn in Hk |- *; now rewrite Hk.
Qed.

Lemma stops_flags_text t s : stops label_char (flags_text t s).
Proof. destruct t, s; reflexivity. Qed.

Lemma label_text_pieces kind dom nm rl tg fl :
  label_text kind dom nm rl tg fl =
  kind +:+ ":" +:+ domain_text dom +:+ nm +:+ role_text rl +:+ "/"
       +:+ tg +:+ fl.
Proof. reflexivity. Qed.

(** The matcher on a label string up to the tag, whatever stands for
    the domain and the role: what is left is whatever follows the tag. *)
Lemma commits_up_to_tag kind dtext dcaps nm rtext rcaps tg fl_re fl s' caps' :
  valid_part kind -> valid_part nm -> valid_part tg ->
  (forall rest caps,
      commits domain_re (dtext +:+ nm +:+ rest) caps
              (nm +:+ rest) (dcaps ++ caps)) ->
  (forall rest, stops label_char (rtext +:+ "/" +:+ rest)) ->
  (forall rest caps,
      commits role_re (rtext +:+ "/" +:+ rest) caps
              ("/" +:+ rest) (rcaps ++ caps)) ->
  stops label_char fl ->
  commits fl_re fl
          ([("tag", tg)] ++ rcaps ++ [("name", nm)] ++ dcaps
             ++ [("type", kind)])
          s' caps' ->
  commits
    (Re.Seq (named "type" label_part)
       (Re.Seq (Re.Lit ":")
          (Re.Seq domain_re
             (Re.Seq (named "name" label_part)
                (Re.Seq role_re
                   (Re.Seq (Re.Lit "/")
                      (Re.Seq (named "tag" label_part) fl_re)))))))
    (kind +:+ ":" +:+ dtext +:+ nm +:+ rtext +:+ "/" +:+ tg +:+ fl)
    [] s' caps'.
Proof.
  intros Hk Hn Ht Hdom Hstop Hrole Hfl Hflags.
  eapply commits_seq; [apply commits_named_part; [exact Hk | reflexivity]|].
  eapply commits_seq; [apply commits_lit|].
  eapply commits_seq; [apply Hdom|].
  eapply commits_seq; [apply commits_named_part; [exact Hn | apply Hstop]|].
  eapply commits_seq; [apply Hrole|].
  eapply commits_seq; [apply commits_lit|].
  eapply commits_seq; [apply commits_named_part; [exact Ht | exact Hfl]|].
  exact Hflags.
Qed.

Lemma stops_role_text rl rest : stops label_char (role_text rl +:+ "/" +:+ rest).
Proof. destruct rl; reflexivity. Qed.

(** [from_string] on a label string written from valid parts with
    normalized flags. *)
Lemma Label_from_string_label_text
      (kind : string) (dom : option string) (nm : string)
      (rl : option string) (tg : string) (t s : bool) :
  valid_part kind -> valid_optional_part dom -> valid_part nm ->
  valid_optional_part rl -> valid_part tg ->
  Label_from_string (label_text kind dom nm rl tg (flags_text t s))
  = Ok (mkLabel kind dom nm rl tg (Some t) (Some s)).
Proof.
  intros Hk Hd Hn Hr Ht.
  pose proof (commits_up_to_tag kind (domain_text dom)
                (optional_group "domain" dom) nm (role_text rl)
                (optional_group "role" rl) tg flags_re (flags_text t s)
                "" _ Hk Hn Ht
                (fun rest caps => commits_domain dom nm rest caps Hd Hn)
                (stops_role_text rl)
                (fun rest caps => commits_role rl rest caps Hr)
                (stops_flags_text t s)
                (commits_flags t s _)) as Hm.
  unfold Label_from_string, Re.re_match.
  rewrite label_string_re_pieces, label_text_pieces.
  erewrite Hm by reflexivity.
  cbn [Re.m_end Re.m_groups String.length].
  rewrite Nat.sub_0_r, Nat.eqb_refl. cbn [negb].
  set (caps := flags_group t s ++ _).
  replace (Re.group caps "type") with (Some kind)
    by (subst caps; destruct t, s, rl, dom; reflexivity).
  replace (Re.group caps "domain") with dom
    by (subst caps; destruct t, s, rl, dom; reflexivity).
  replace (Re.group caps "name") with (Some nm)
    by (subst caps; destruct t, s, rl, dom; reflexivity).
  replace (Re.group caps "role") with rl
    by (subst caps; destruct t, s, rl, dom; reflexivity).
  replace (Re.group caps "tag") with (Some tg)
    by (subst caps; destruct t, s, rl, dom; reflexivity).
  replace (Re.group caps "flags") with (Re.group (flags_group t s) "flags")
    by (subst caps; destruct t, s, rl, dom; reflexivity).
  replace (if str_true (Re.group (flags_group t s) "flags")
           then (str_contains "T" (default "" (Re.group (flags_group t s) "flags")),
                 str_contains "S" (default "" (Re.group (flags_group t s) "flags")))
           else (false, false)) with (t, s)
    by (destruct t, s; reflexivity).
  now apply Label_init_valid.
Qed.

(** [__str__] of a label with valid parts and boolean flags. *)
Lemma Label_str_label_text
      (kind : string) (dom : option string) (nm : string)
      (rl : option string) (tg : string) (t s : bool) :
  valid_optional_part dom -> valid_optional_part rl ->
  Label_str (mkLabel kind dom nm rl tg (Some t) (Some s))
  = label_text kind dom nm rl tg (flags_text t s).
Proof.
  intros Hd Hr. unfold Label_str, label_text, flags_text.
  cbn [type domain name role tag transient system flag_true].
  assert (Hrole : str_true rl = match rl with Some _ => true | None => false end).
  { destruct rl as [r|]; [|reflexivity]. simpl.
    destruct (String.eqb_spec r ""); [|reflexivity].
    now apply valid_part_nonempty in Hr. }
  assert (Hdom : str_true dom = match dom with Some _ => true | None => false end).
  { destruct dom as [d|]; [|reflexivity]. simpl.
    destruct (String.eqb_spec d ""); [|reflexivity].
    now apply valid_part_nonempty in Hd. }
  rewrite Hrole, Hdom.
  destruct rl, dom; cbn [default]; rewrite ?append_assoc;
    destruct t, s; cbn [orb]; rewrite ?append_assoc, ?append_nil_r;
    reflexivity.
Qed.

(** C3. A label string written from valid parts in the form
    [kind:(domain)name{role}/tag[flags]], the domain and the role present
    or absent with their brackets (so neither [()] nor [{}] is empty) and
    the flags normalized (a subset of T, S in that order, no brackets
    around the empty subset), parses, and the label parsed prints as the
    very same string. *)
Theorem label_parse_print_round_trip
        (kind : string) (dom : option string) (nm : string)
        (rl : option string) (tg : string) (t s : bool) :
  valid_part kind -> valid_optional_part dom -> valid_part nm ->
  valid_optional_part rl -> valid_part tg ->
  exists l,
    Label_from_string (label_text kind dom nm rl tg (flags_text t s)) = Ok l
    /\ Label_str l = label_text kind dom nm rl tg (flags_text t s).
Proof.
  intros Hk Hd Hn Hr Ht.
  exists (mkLabel kind dom nm rl tg (Some t) (Some s)). split.
  - now apply Label_from_string_label_text.
  - now apply Label_str_label_text.
Qed.

Lemma label_parse_print_round_trip_witness :
  exists l,
    Label_from_string "package:(arm.hello)busybox{firmware}/installed[TS]" = Ok l
    /\ Label_str l = "package:(arm.hello)busybox{firmware}/installed[TS]".
Proof.
  apply (label_parse_print_round_trip
           "package" (Some "arm.hello") "busybox" (Some "firmware")
           "installed" true true);
    right; split; (discriminate || reflexivity).
Defined.

(** The degenerate role [{}]: the group is entered and left empty. *)
Lemma commits_empty_role rest caps :
  commits role_re ("{}" +:+ "/" +:+ rest) caps ("/" +:+ rest) ([] ++ caps).
Proof.
  apply commits_opt, commits_unnamed.
  change ("{}" +:+ "/" +:+ rest) with ("{" +:+ "}" +:+ "/" +:+ rest).
  eapply commits_seq; [apply commits_lit|].
  eapply commits_seq; [|apply commits_lit].
  apply commits_opt_skip. intros R k. unfold named. cbn [Re.run].
  apply run_label_part_none; simpl; [reflexivity | discriminate].
Qed.

Lemma commits_no_domain nm rest caps :
  valid_part nm ->
  commits domain_re ("" +:+ nm +:+ rest) caps (nm +:+ rest) ([] ++ caps).
Proof. intros Hn. now apply (commits_domain None nm rest caps). Qed.

(** The degenerate flags [[]]: the group needs a flag, so it is skipped
    and the brackets are left unread. *)
Lemma commits_empty_flags caps : commits flags_re "[]" caps "[]" caps.
Proof.
  apply commits_opt_skip, fails_unnamed.
  change "[]" with ("[" +:+ "]").
  apply fails_after_lit, fails_seq. intros R k. unfold named. cbn [Re.run].
  now apply rep1_stops.
Qed.

(** C4. For valid [kind], [name] and [tag], [kind:name/tag] parses, and
    so does [kind:name{}/tag] with the same label; but
    [kind:name{}/tag[]] is refused as not a valid label: the pattern wants
    at least one flag between the brackets, the match stops before them,
    and a match that does not reach the end of the string is a failure. *)
Theorem degenerate_form_is_refused (kind nm tg : string) :
  valid_part kind -> valid_part nm -> valid_part tg ->
  Label_from_string (kind +:+ ":" +:+ nm +:+ "/" +:+ tg)
  = Ok (mkLabel kind None nm None tg (Some false) (Some false))
  /\ Label_from_string (kind +:+ ":" +:+ nm +:+ "{}" +:+ "/" +:+ tg)
     = Ok (mkLabel kind None nm None tg (Some false) (Some false))
  /\ Label_from_string (kind +:+ ":" +:+ nm +:+ "{}" +:+ "/" +:+ tg +:+ "[]")
     = Raise (NotAValidLabel
                (kind +:+ ":" +:+ nm +:+ "{}" +:+ "/" +:+ tg +:+ "[]")).
Proof.
  intros Hk Hn Ht. split; [|split].
  - pose proof (Label_from_string_label_text kind None nm None tg false false
                  Hk I Hn I Ht) as H.
    unfold label_text, flags_text in H. cbn [orb] in H.
    simpl in H. rewrite append_nil_r in H. exact H.
  - pose proof (commits_up_to_tag kind "" [] nm "{}" [] tg flags_re ""
                  "" _ Hk Hn Ht
                  (fun rest caps => commits_no_domain nm rest caps Hn)
                  (fun rest => eq_refl)
                  commits_empty_role I (commits_flags false false _)) as Hm.
    assert (E : kind +:+ ":" +:+ nm +:+ "{}" +:+ "/" +:+ tg
                = kind +:+ ":" +:+ "" +:+ nm +:+ "{}" +:+ "/" +:+ tg +:+ "")
      by (simpl; now rewrite append_nil_r).
    rewrite E at 1. clear E.
    unfold Label_from_string, Re.re_match.
    rewrite label_string_re_pieces.
    erewrite Hm by reflexivity.
    cbn [Re.m_end Re.m_groups String.length].
    rewrite Nat.sub_0_r, Nat.eqb_refl. cbn.
    now apply Label_init_valid.
  - pose proof (commits_up_to_tag kind "" [] nm "{}" [] tg flags_re "[]"
                  "[]" _ Hk Hn Ht
                  (fun rest caps => commits_no_domain nm rest caps Hn)
                  (fun rest => eq_refl)
                  commits_empty_role eq_refl (commits_empty_flags _)) as Hm.
    change ("" +:+ nm +:+ "{}" +:+ "/" +:+ tg +:+ "[]")
      with (nm +:+ "{}" +:+ "/" +:+ tg +:+ "[]") in Hm.
    unfold Label_from_string, Re.re_match.
    rewrite label_string_re_pieces.
    erewrite Hm by reflexivity.
    cbn [Re.m_end Re.m_groups].
    rewrite !length_append. cbn [String.length].
    replace (_ =? _) with false; [reflexivity|].
    symmetry. apply Nat.eqb_neq. lia.
Qed.

Lemma degenerate_form_is_refused_witness :
  Label_from_string "package:busybox/installed"
  = Ok (mkLabel "package" None "busybox" None "installed"
                (Some false) (Some false))
  /\ Label_from_string "package:busybox{}/installed"
     = Ok (mkLabel "package" None "busybox" None "installed"
                   (Some false) (Some false))
  /\ Label_from_string "package:busybox{}/installed[]"
     = Raise (NotAValidLabel "package:busybox{}/installed[]").
Proof.
  apply (degenerate_form_is_refused "package" "busybox" "installed");
    right; split; (discriminate || reflexivity).
Defined.

(* ================================================================== *)
(** * Distribution actions                                             *)
(* ================================================================== *)

Module DistributeFacts.
Import Distribute.

(** Asking again for a name an action already serves replaces what was
    filed under it: nothing of the earlier request is kept. *)
Lemma add_distribution_twice {D} (a : DistributeAction D)
      (name_ : string) (old new : D) :
  add_distribution (add_distribution a name_ old) name_ new
  = add_distribution a name_ new.
Proof.
  unfold add_distribution. cbn [distributions].
  now rewrite insert_insert_eq.
Qed.

(** C8, as the claim has it, at one input: a package action serving
    "release" in binary only, asked again for "release" in source only
    and with the VCS directories. OR would give (binary, source) =
    (true, true); the action holds (false, true). *)
Lemma add_distribution_does_not_or :
  let a := DistributePackage "release" true false false in
  let a' := add_distribution a "release" (false, true, true) in
  distributions a !! "release" = Some (true, false, false)
  /\ distributions a' !! "release" = Some (false, true, true)
  /\ distributions a' !! "release"
     <> Some (or_data (true, false, false) (false, true, true)).
Proof.
  cbn. unfold DistributePackage, DistributeAction_init, add_distribution.
  cbn [distributions].
  rewrite lookup_singleton_eq, lookup_insert_eq.
  repeat split. discriminate.
Qed.

(** C8, amended. [add_distribution] upgrades an action in place: the
    names it serves become the old names and the new one; what is filed
    under the new name is the data just given, whatever was there
    before; every other name keeps its data. So the data (the
    [copy_vcs_dir] of a checkout; [binary], [source] and [copy_vcs_dir]
    of a package) is kept per distribution name, and it is replaced,
    not combined. *)
Theorem add_distribution_upgrades_in_place {D}
        (a : DistributeAction D) (name_ : string) (data : D) :
  distribution_names (add_distribution a name_ data)
  = distribution_names a ∪ {[ name_ ]}
  /\ get_distribution (add_distribution a name_ data) name_ = Ok data
  /\ does_distribution (add_distribution a name_ data) name_ = true
  /\ (forall other,
         other <> name_ ->
         distributions (add_distribution a name_ data) !! other
         = distributions a !! other).
Proof.
  unfold distribution_names, get_distribution, does_distribution,
    add_distribution. cbn [distributions].
  split; [|split; [|split]].
  - rewrite dom_insert_L. apply union_comm_L.
  - now rewrite lookup_insert_eq.
  - rewrite lookup_insert_eq. now apply bool_decide_eq_true.
  - intros other Hne. now apply lookup_insert_ne.
Qed.

(** The request functions themselves do not get as far as
    [add_distribution] when the rule exists: what they call it on is
    the rule. *)
Lemma request_again_raises {D} it LabelTag tle expected source_tag
      method (new_action : DistributeAction D) ruleset label rule :
  String.eqb (type label) expected = true ->
  tle ruleset (copy_with_tag label (Distributed LabelTag)) = true ->
  map_get ruleset (copy_with_tag label (Distributed LabelTag)) = Some rule ->
  request it LabelTag tle expected source_tag method new_action
          ruleset label
  = Raise (AttributeError method).
Proof.
  intros Ht He Hr. unfold request. now rewrite Ht, He, Hr.
Qed.

End DistributeFacts.

(* ================================================================== *)
(** * Sets of labels                                                   *)
(* ================================================================== *)

Lemma label_in_kin (l : Label) (s : list Label) :
  label_in l s = true <-> kin l s.
Proof.
  unfold label_in, kin, keys. rewrite existsb_exists, in_map_iff.
  split.
  - intros (y & Hy & E). apply Label_eqb_tuple in E. eauto.
  - intros (y & E & Hy). exists y. split; [exact Hy|].
    now apply Label_eqb_tuple.
Qed.

Lemma label_in_not_kin (l : Label) (s : list Label) :
  label_in l s = false <-> ~ kin l s.
Proof.
  rewrite <- label_in_kin. destruct (label_in l s); split; congruence.
Qed.

Lemma kin_dec (l : Label) (s : list Label) : kin l s \/ ~ kin l s.
Proof.
  destruct (label_in l s) eqn:E.
  - left. now apply label_in_kin.
  - right. now apply label_in_not_kin.
Qed.

Lemma kin_In (l : Label) (s : list Label) : In l s -> kin l s.
Proof. intros H. unfold kin, keys. now apply in_map. Qed.

Lemma kin_inv (l : Label) (s : list Label) :
  kin l s -> exists y, In y s /\ Label_as_tuple y = Label_as_tuple l.
Proof. unfold kin, keys. rewrite in_map_iff. intros (y & E & H). eauto. Qed.

Lemma kin_eq (a b : Label) (s : list Label) :
  Label_as_tuple a = Label_as_tuple b -> kin a s -> kin b s.
Proof. unfold kin. now intros ->. Qed.

Lemma kin_nil (l : Label) : ~ kin l [].
Proof. intros []. Qed.

Lemma kin_app (l : Label) (s1 s2 : list Label) :
  kin l (s1 ++ s2) <-> kin l s1 \/ kin l s2.
Proof. unfold kin, keys. rewrite map_app. apply in_app_iff. Qed.

Lemma kin_cons (l x : Label) (s : list Label) :
  kin l (x :: s) <-> Label_as_tuple x = Label_as_tuple l \/ kin l s.
Proof. reflexivity. Qed.

Lemma kin_perm (l : Label) (s s' : list Label) :
  Permutation s s' -> kin l s -> kin l s'.
Proof.
  intros P. unfold kin, keys.
  apply Permutation_in. now apply Permutation_map.
Qed.

Lemma distinct_perm (s s' : list Label) :
  Permutation s s' -> distinct s -> distinct s'.
Proof.
  intros P. unfold distinct, keys.
  apply Permutation_NoDup. now apply Permutation_map.
Qed.

Lemma distinct_nil : distinct [].
Proof. constructor. Qed.

Lemma distinct_snoc (s : list Label) (l : Label) :
  distinct s -> ~ kin l s -> distinct (s ++ [l]).
Proof.
  unfold distinct, kin, keys. intros Hs Hl. rewrite map_app. simpl.
  apply List.NoDup_app.
  - exact Hs.
  - repeat constructor. intros [].
  - intros x Hx [<- | []]. now apply Hl.
Qed.

Lemma set_add_old (l : Label) (s : list Label) : kin l s -> set_add l s = s.
Proof. intros H. unfold set_add. now rewrite (proj2 (label_in_kin l s) H). Qed.

Lemma set_add_new (l : Label) (s : list Label) :
  ~ kin l s -> set_add l s = s ++ [l].
Proof.
  intros H. unfold set_add. now rewrite (proj2 (label_in_not_kin l s) H).
Qed.

Lemma set_add_kin (x l : Label) (s : list Label) :
  kin x (set_add l s)
  <-> kin x s \/ Label_as_tuple x = Label_as_tuple l.
Proof.
  destruct (kin_dec l s) as [H | H].
  - rewrite set_add_old by exact H. split; [auto|].
    intros [Hx | E]; [exact Hx|]. apply (kin_eq l x); auto.
  - rewrite set_add_new by exact H. rewrite kin_app, kin_cons.
    split; intros [Hx | Hx]; auto.
    + destruct Hx as [E | []]. auto.
Qed.

Lemma set_add_In (x l : Label) (s : list Label) :
  In x (set_add l s) -> In x s \/ x = l.
Proof.
  unfold set_add. destruct (label_in l s); [auto|].
  rewrite in_app_iff. simpl. intuition.
Qed.

Lemma set_add_keeps (x l : Label) (s : list Label) :
  In x s -> In x (set_add l s).
Proof.
  unfold set_add. destruct (label_in l s); [auto|].
  rewrite in_app_iff. auto.
Qed.

Lemma set_add_distinct (l : Label) (s : list Label) :
  distinct s -> distinct (set_add l s).
Proof.
  intros Hs. destruct (kin_dec l s) as [H | H].
  - now rewrite set_add_old.
  - rewrite set_add_new by exact H. now apply distinct_snoc.
Qed.

Lemma set_add_length (l : Label) (s : list Label) :
  length s <= length (set_add l s).
Proof.
  unfold set_add. destruct (label_in l s); [lia|].
  rewrite length_app. simpl. lia.
Qed.

Lemma set_difference_In (x : Label) (s1 s2 : list Label) :
  In x (set_difference s1 s2) <-> In x s1 /\ ~ kin x s2.
Proof.
  unfold set_difference. rewrite filter_In, negb_true_iff.
  now rewrite label_in_not_kin.
Qed.

Lemma set_difference_kin (x : Label) (s1 s2 : list Label) :
  kin x (set_difference s1 s2) <-> kin x s1 /\ ~ kin x s2.
Proof.
  split.
  - intros H. apply kin_inv in H as (y & Hy & E).
    apply set_difference_In in Hy as [Hy Hn]. split.
    + apply (kin_eq y x _ E). now apply kin_In.
    + intros Hx. apply Hn. apply (kin_eq x y); auto.
  - intros [H Hn]. apply kin_inv in H as (y & Hy & E).
    apply (kin_eq y x _ E). apply kin_In. apply set_difference_In.
    split; [exact Hy|]. intros Hx. apply Hn. now apply (kin_eq y x).
Qed.

Lemma distinct_filter (f : Label -> bool) (s : list Label) :
  distinct s -> distinct (List.filter f s).
Proof.
  unfold distinct, keys. induction s as [|x s IH]; simpl; [auto|].
  intros H. inversion H as [|? ? Hx Hs]; subst.
  destruct (f x); simpl; [|auto].
  constructor; [|auto].
  intros Hin. apply Hx. apply in_map_iff in Hin as (y & E & Hy).
  apply filter_In in Hy as [Hy _]. rewrite <- E. now apply in_map.
Qed.

Lemma set_difference_distinct (s1 s2 : list Label) :
  distinct s1 -> distinct (set_difference s1 s2).
Proof. apply distinct_filter. Qed.

(** A duplicate-free list of labels drawn from [u] is no longer than [u]. *)
Lemma distinct_length (s u : list Label) :
  distinct s -> (forall x, kin x s -> kin x u) -> length s <= length u.
Proof.
  intros Hs Hincl.
  rewrite <- (length_map Label_as_tuple s), <- (length_map Label_as_tuple u).
  apply NoDup_incl_length; [exact Hs|].
  intros k Hk. apply in_map_iff in Hk as (y & <- & Hy).
  apply Hincl. now apply kin_In.
Qed.

(** Two disjoint duplicate-free lists drawn from [u]. *)
Lemma distinct_length2 (s1 s2 u : list Label) :
  distinct s1 -> distinct s2 ->
  (forall x, kin x s1 -> ~ kin x s2) ->
  (forall x, kin x s1 -> kin x u) -> (forall x, kin x s2 -> kin x u) ->
  length s1 + length s2 <= length u.
Proof.
  intros H1 H2 Hd Hi1 Hi2. rewrite <- length_app.
  apply distinct_length.
  - unfold distinct, keys in *. rewrite map_app.
    apply List.NoDup_app; auto.
    intros k Hk1 Hk2. apply in_map_iff in Hk1 as (y & <- & Hy).
    apply (Hd y); [now apply kin_In | exact Hk2].
  - intros x Hx. apply kin_app in Hx as [Hx | Hx]; auto.
Qed.

(* ================================================================== *)
(** * Rule sets                                                        *)
(* ================================================================== *)

Lemma Label_eqb_trans (a b c : Label) :
  Label_eqb a b = true -> Label_eqb b c = true -> Label_eqb a c = true.
Proof.
  rewrite !Label_eqb_tuple. congruence.
Qed.

Section RuleSetFacts.
Context {A : Type}.
Variable it : iteration A.

Lemma Rule_merge_target (self deps_ : Rule A) :
  target (Rule_merge it self deps_) = target self.
Proof.
  unfold Rule_merge.
  assert (H : forall ds (r : Rule A),
             target (fold_left Rule_add ds r) = target r).
  { induction ds as [|d ds IH]; intros r; [reflexivity|].
    simpl. now rewrite IH. }
  destruct (obj deps_); cbn [target]; apply H.
Qed.

Lemma map_get_None (self : RuleSet A) (label : Label) :
  map_get self label = None <-> ~ kin label (List.map fst self).
Proof.
  induction self as [|[k v] self IH]; simpl.
  - split; [intros _ [] | reflexivity].
  - rewrite kin_cons. destruct (Label_eqb k label) eqn:E.
    + split; [discriminate|]. intros H. exfalso. apply H. left.
      now apply Label_eqb_tuple.
    + rewrite IH. split.
      * intros H [Ek | Hk]; [|contradiction].
        apply Label_eqb_tuple in Ek. congruence.
      * intros H Hk. apply H. now right.
Qed.

Lemma map_get_Some (self : RuleSet A) (label : Label) (v : Rule A) :
  map_get self label = Some v ->
  exists k, In (k, v) self /\ Label_eqb k label = true.
Proof.
  induction self as [|[k v'] self IH]; simpl; [discriminate|].
  destruct (Label_eqb k label) eqn:E.
  - intros [= ->]. exists k. auto.
  - intros H. destruct (IH H) as (k' & Hin & Ek). exists k'. auto.
Qed.

Lemma RuleSet_wf_target (self : RuleSet A) (k : Label) (v : Rule A) :
  RuleSet_wf self -> In (k, v) self -> Label_eqb k (target v) = true.
Proof.
  unfold RuleSet_wf. induction self as [|[k' v'] self IH]; [intros _ []|].
  cbn [RuleSet_wfb]. intros H. apply andb_true_iff in H as [H Hrs].
  apply andb_true_iff in H as [Hk _].
  intros [[= -> ->] | Hin]; [exact Hk | now apply IH].
Qed.

(** Writing under a key that is there keeps the keys; writing under a
    new key adds it at the end. *)
Lemma map_set_keys (self : RuleSet A) (label : Label) (rule : Rule A) :
  List.map fst (map_set self label rule)
  = List.map fst self
    ++ (if label_in label (List.map fst self) then [] else [label]).
Proof.
  induction self as [|[k v] self IH]; [reflexivity|].
  cbn [map_set List.map fst label_in existsb].
  rewrite (Label_eqb_sym label k).
  destruct (Label_eqb k label); cbn [orb List.map fst app].
  - now rewrite app_nil_r.
  - now rewrite IH.
Qed.

Lemma map_set_wf (self : RuleSet A) (label : Label) (rule : Rule A) :
  RuleSet_wf self -> Label_eqb label (target rule) = true ->
  RuleSet_wf (map_set self label rule).
Proof.
  unfold RuleSet_wf. intros Hwf Ht.
  induction self as [|[k v] self IH].
  - cbn. now rewrite Ht.
  - cbn [RuleSet_wfb] in Hwf. apply andb_true_iff in Hwf as [H Hrs].
    apply andb_true_iff in H as [Hk Hnew].
    cbn [map_set]. destruct (Label_eqb k label) eqn:E; cbn [RuleSet_wfb].
    + rewrite Hnew, Hrs, (Label_eqb_trans k label (target rule) E Ht).
      reflexivity.
    + rewrite Hk, (IH Hrs), map_set_keys. cbn [andb].
      rewrite andb_true_r. apply negb_true_iff, label_in_not_kin.
      apply negb_true_iff, label_in_not_kin in Hnew.
      intros H. apply kin_app in H as [H | H]; [contradiction|].
      destruct (label_in label (List.map fst self)); [now apply kin_nil in H|].
      apply kin_cons in H as [Ek | []].
      symmetry in Ek. apply Label_eqb_tuple in Ek. congruence.
Qed.

(** [RuleSet.add] keeps a rule set well formed: every rule stays
    filed under its own target, and no key comes twice. *)
Lemma RuleSet_add_wf (self : RuleSet A) (rule : Rule A) :
  RuleSet_wf self -> RuleSet_wf (RuleSet_add it self rule).
Proof.
  intros Hwf. unfold RuleSet_add.
  destruct (map_get self (target rule)) as [inst|] eqn:E.
  - apply map_set_wf; [exact Hwf|]. rewrite Rule_merge_target.
    apply map_get_Some in E as (k & Hin & Ek).
    rewrite Label_eqb_sym in Ek.
    apply (Label_eqb_trans _ k _ Ek).
    now apply (RuleSet_wf_target self).
  - apply map_set_wf; [exact Hwf | apply Label_eqb_refl].
Qed.

Lemma RuleSet_empty_wf : RuleSet_wf ([] : RuleSet A).
Proof. reflexivity. Qed.
End RuleSetFacts.

(* ================================================================== *)
(** * The dependency graph                                             *)
(* ================================================================== *)

Lemma Label_match_key (a a' b b' : Label) :
  Label_as_tuple a = Label_as_tuple a' ->
  Label_as_tuple b = Label_as_tuple b' ->
  Label_match a b = Label_match a' b'.
Proof.
  unfold Label_as_tuple. intros [= E1 E2 E3 E4 E5] [= F1 F2 F3 F4 F5].
  unfold Label_match.
  now rewrite E1, E2, E3, E4, E5, F1, F2, F3, F4, F5.
Qed.

Section GraphFacts.
Context {A : Type}.
Variable it : iteration A.
Variable ruleset : RuleSet A.

Lemma rules_for_target_key (t t' : Label) (useTags : bool) :
  Label_as_tuple t = Label_as_tuple t' ->
  rules_for_target ruleset t useTags true
  = rules_for_target ruleset t' useTags true.
Proof.
  intros E. unfold rules_for_target. f_equal.
  apply List.filter_ext. intros [k v]. cbn [fst].
  now rewrite (Label_match_key t t' k k E eq_refl).
Qed.

Lemma matching_rules_key (t t' : Label) :
  Label_as_tuple t = Label_as_tuple t' ->
  matching_rules ruleset t = matching_rules ruleset t'.
Proof. apply rules_for_target_key. Qed.

(** With [useMatch] on, [useTags] plays no part. *)
Lemma rules_for_target_useTags (t : Label) (useTags : bool) :
  rules_for_target ruleset t useTags true = matching_rules ruleset t.
Proof. reflexivity. Qed.

Lemma chosen_rule_key (t t' : Label) :
  Label_as_tuple t = Label_as_tuple t' ->
  chosen_rule it ruleset t = chosen_rule it ruleset t'.
Proof. intros E. unfold chosen_rule. now rewrite (matching_rules_key t t' E). Qed.

Lemma depends_on_key (t t' d d' : Label) :
  Label_as_tuple t = Label_as_tuple t' ->
  Label_as_tuple d = Label_as_tuple d' ->
  depends_on ruleset t d -> depends_on ruleset t' d'.
Proof.
  intros Et Ed (r & d0 & Hr & Hd & E).
  exists r, d0. rewrite <- (matching_rules_key t t' Et).
  repeat split; auto.
  apply Label_eqb_tuple. apply Label_eqb_tuple in E. congruence.
Qed.

(** A dependency of a rule that applies to [t]. *)
Lemma depends_on_intro (t d : Label) (r : Rule A) :
  In r (matching_rules ruleset t) -> In d (deps r) ->
  depends_on ruleset t d.
Proof.
  intros Hr Hd. exists r, d. repeat split; auto. apply Label_eqb_refl.
Qed.

Lemma needed_key (targets : list Label) (t t' : Label) :
  Label_as_tuple t = Label_as_tuple t' ->
  needed ruleset targets t -> needed ruleset targets t'.
Proof.
  intros E H. destruct H as [t H | t d H Hd].
  - apply needed_target. apply label_in_kin. apply label_in_kin in H.
    now apply (kin_eq t t').
  - apply (needed_dep _ _ t); [exact H|].
    now apply (depends_on_key t t d t').
Qed.

Lemma needed_kin (targets : list Label) (t : Label) :
  kin t targets -> needed ruleset targets t.
Proof. intros H. apply needed_target. now apply label_in_kin. Qed.

Lemma chain_key (t d d' : Label) :
  Label_as_tuple d = Label_as_tuple d' ->
  chain ruleset t d -> chain ruleset t d'.
Proof.
  intros E H. induction H as [t d H | t d e H Hc IH].
  - apply chain_one. now apply (depends_on_key t t d d').
  - apply (chain_more _ t d); auto.
Qed.

Lemma chain_snoc (t d e : Label) :
  chain ruleset t d -> depends_on ruleset d e -> chain ruleset t e.
Proof.
  intros H He. induction H as [t d H | t d x H Hc IH].
  - apply (chain_more _ t d); [exact H|]. now apply chain_one.
  - apply (chain_more _ t d); auto.
Qed.

(** The rules that apply to a label are rules of the rule set, filed
    under a key that the label matches. *)
Lemma matching_rules_In (t : Label) (r : Rule A) :
  In r (matching_rules ruleset t) <->
  exists k, In (k, r) ruleset /\ is_Some (Label_match t k).
Proof.
  unfold matching_rules, rules_for_target. rewrite in_map_iff. split.
  - intros ([k v] & E & H). simpl in E. subst v.
    apply filter_In in H as [H Hm]. exists k. split; [exact H|].
    now apply bool_decide_eq_true in Hm.
  - intros (k & H & Hm). exists (k, r). split; [reflexivity|].
    apply filter_In. split; [exact H|]. now apply bool_decide_eq_true.
Qed.

(** Every needed label is a target or a dependency of a rule. *)
Lemma needed_all_labels (targets : list Label) (t : Label) :
  needed ruleset targets t -> kin t (all_labels ruleset targets).
Proof.
  intros H. unfold all_labels. apply kin_app.
  destruct H as [t H | t d H (r & d0 & Hr & Hd & E)].
  - left. now apply label_in_kin.
  - right. apply Label_eqb_tuple in E. apply (kin_eq d0 d _ E).
    apply kin_In. apply in_flat_map.
    apply matching_rules_In in Hr as (k & Hk & _).
    exists (k, r). split; [exact Hk | exact Hd].
Qed.

(* ---------------------------------------------------------------- *)
(** ** The order of a build                                          *)
(* ---------------------------------------------------------------- *)

Lemma build_order_length (B : list Label) (rl : list (Rule A)) :
  build_order it ruleset B rl -> length B = length rl.
Proof.
  induction 1; [reflexivity|]. rewrite !length_app. simpl. lia.
Qed.

Lemma build_order_distinct (B : list Label) (rl : list (Rule A)) :
  build_order it ruleset B rl -> distinct B.
Proof.
  induction 1 as [|B rl tgt r _ IH Hnew _ _]; [apply distinct_nil|].
  apply distinct_snoc; [exact IH|]. now apply label_in_not_kin.
Qed.

(** A satisfied label has a rule, and its dependencies are satisfied. *)
Lemma build_order_closed (B : list Label) (rl : list (Rule A)) (t : Label) :
  build_order it ruleset B rl -> kin t B ->
  matching_rules ruleset t <> []
  /\ (forall d, depends_on ruleset t d -> kin d B).
Proof.
  induction 1 as [|B rl tgt r _ IH Hnew Hr Hdeps]; [intros []|].
  intros Ht. apply kin_app in Ht as [Ht | Ht].
  - destruct (IH Ht) as [Hm Hd]. split; [exact Hm|].
    intros d Hdep. apply kin_app. left. now apply Hd.
  - apply kin_cons in Ht as [E | []]. split.
    + rewrite <- (matching_rules_key tgt t E). unfold chosen_rule in Hr.
      intros Hnil.
      assert (Hp := iter_rules_perm it (matching_rules ruleset tgt)).
      rewrite Hnil in Hp. apply Permutation_sym, Permutation_nil in Hp.
      rewrite Hnil, Hp in Hr. discriminate.
    + intros d Hdep. apply kin_app. left. apply label_in_kin.
      apply Hdeps. now apply (depends_on_key t tgt d d).
Qed.

(** Everything needed is satisfied once the targets are. *)
Lemma build_order_needed (B : list Label) (rl : list (Rule A))
      (targets : list Label) :
  build_order it ruleset B rl ->
  (forall x, kin x targets -> kin x B) ->
  forall t, needed ruleset targets t -> kin t B.
Proof.
  intros HB HT t H. induction H as [t H | t d H IH Hd].
  - apply HT. now apply label_in_kin.
  - now apply (build_order_closed B rl t HB IH).
Qed.
End GraphFacts.

(* ================================================================== *)
(** * One target of one pass                                           *)
(* ================================================================== *)

(** The loop over the dependencies, from the state [(nt, dn, cb)] of
    [new_targets], [done_something] and [can_build_target]. *)
Lemma visit_deps_spec (B T ds : list Label) :
  forall nt dn cb nt' dn' cb',
    fold_left (visit_dep B T) ds (nt, dn, cb) = (nt', dn', cb') ->
    cb' = cb && forallb (fun d => label_in d B) ds
    /\ (distinct nt -> distinct nt')
    /\ (forall x, kin x nt -> kin x nt')
    /\ (forall x, kin x nt' ->
                  kin x nt
                  \/ exists d, In d ds
                               /\ Label_as_tuple d = Label_as_tuple x
                               /\ ~ kin d B /\ ~ kin d T)
    /\ (forall d, In d ds -> ~ kin d B -> kin d nt' \/ kin d T)
    /\ length nt <= length nt'
    /\ (dn = true -> dn' = true)
    /\ (dn = false -> dn' = true -> length nt < length nt')
    /\ (dn' = false -> nt' = nt).
Proof.
  induction ds as [|d ds IH]; intros nt dn cb nt' dn' cb' H.
  - simpl in H. injection H as <- <- <-. rewrite andb_true_r.
    repeat split; auto; try congruence.
    intros d [].
  - cbn [fold_left] in H. unfold visit_dep at 2 in H.
    destruct (label_in d B) eqn:EB; cbn [negb] in H.
    + apply IH in H as (H1 & H2 & H3 & H4 & H5 & H6 & H7 & H8 & H9).
      apply label_in_kin in EB.
      repeat split; auto.
      * rewrite H1. cbn [forallb].
        now rewrite (proj2 (label_in_kin d B) EB).
      * intros x Hx. destruct (H4 x Hx) as [Hn | (d0 & Hd0 & Hr)]; auto.
        right. exists d0. split; [now right | exact Hr].
      * intros d0 [<- | Hd0] Hn; [contradiction | auto].
    + apply label_in_not_kin in EB.
      destruct (negb (label_in d nt) && negb (label_in d T)) eqn:Enew.
      * apply andb_true_iff in Enew as [En ET].
        apply negb_true_iff in En, ET.
        apply label_in_not_kin in En, ET.
        apply IH in H as (H1 & H2 & H3 & H4 & H5 & H6 & H7 & H8 & H9).
        assert (Hlen : length (set_add d nt) = S (length nt)).
        { rewrite set_add_new by exact En. rewrite length_app. simpl. lia. }
        repeat split.
        -- rewrite H1. cbn [forallb].
           rewrite (proj2 (label_in_not_kin d B) EB).
           now rewrite andb_false_r.
        -- intros Hd. apply H2. now apply set_add_distinct.
        -- intros x Hx. apply H3. apply set_add_kin. now left.
        -- intros x Hx. destruct (H4 x Hx) as [Hn | (d0 & Hd0 & Hr)].
           ++ apply set_add_kin in Hn as [Hn | E]; [now left|].
              right. exists d. repeat split; auto. now left.
           ++ right. exists d0. split; [now right | exact Hr].
        -- intros d0 [<- | Hd0] Hn; [|auto].
           left. apply H3. apply set_add_kin. now right.
        -- lia.
        -- intros _. now apply H7.
        -- intros _ _. lia.
        -- intros E. rewrite (H7 eq_refl) in E. discriminate.
      * assert (Hold : kin d nt \/ kin d T).
        { apply andb_false_iff in Enew as [E | E];
            apply negb_false_iff, label_in_kin in E; auto. }
        apply IH in H as (H1 & H2 & H3 & H4 & H5 & H6 & H7 & H8 & H9).
        repeat split; auto.
        -- rewrite H1. cbn [forallb].
           rewrite (proj2 (label_in_not_kin d B) EB).
           now rewrite andb_false_r.
        -- intros x Hx. destruct (H4 x Hx) as [Hn | (d0 & Hd0 & Hr)]; auto.
           right. exists d0. split; [now right | exact Hr].
        -- intros d0 [<- | Hd0] Hn; [|auto].
           destruct Hold; auto.
Qed.

Section Target.
Context {A : Type}.
Variable it : iteration A.
Variable ruleset : RuleSet A.

(** The two nested loops are one loop over all the dependencies. *)
Lemma visit_rules_flat (B T : list Label) (rules : list (Rule A))
      (st : list Label * bool * bool) :
  fold_left (visit_rule it B T) rules st
  = fold_left (visit_dep B T) (deps_in_order it rules) st.
Proof.
  revert st. induction rules as [|r rules IH]; intros st; [reflexivity|].
  cbn [fold_left deps_in_order flat_map]. rewrite fold_left_app.
  unfold visit_rule at 2. apply IH.
Qed.

Lemma In_deps_in_order (rules : list (Rule A)) (d : Label) :
  In d (deps_in_order it rules) <-> exists r, In r rules /\ In d (deps r).
Proof.
  unfold deps_in_order. rewrite in_flat_map. split.
  - intros (r & Hr & Hd). exists r. split; [exact Hr|].
    now apply (Permutation_in _ (iter_labels_perm it (deps r))).
  - intros (r & Hr & Hd). exists r. split; [exact Hr|].
    now apply (Permutation_in _ (Permutation_sym (iter_labels_perm it (deps r)))).
Qed.

Lemma In_iter_rules (l : list (Rule A)) (r : Rule A) :
  In r (iter_rules it l) <-> In r l.
Proof.
  split.
  - apply Permutation_in, iter_rules_perm.
  - apply Permutation_in, Permutation_sym, iter_rules_perm.
Qed.

Lemma iter_rules_nil (l : list (Rule A)) : iter_rules it l = [] <-> l = [].
Proof.
  split; intros E.
  - assert (Hp := iter_rules_perm it l). rewrite E in Hp.
    now apply Permutation_nil in Hp.
  - subst l. assert (Hp := iter_rules_perm it []).
    now apply Permutation_sym, Permutation_nil in Hp.
Qed.

Lemma In_iter_labels (l : list Label) (x : Label) :
  In x (iter_labels it l) <-> In x l.
Proof.
  split.
  - apply Permutation_in, iter_labels_perm.
  - apply Permutation_in, Permutation_sym, iter_labels_perm.
Qed.

(** The dependencies the loops look at for [tgt] are what [tgt]
    depends on. *)
Lemma deps_of_target (tgt x : Label) :
  (exists d, In d (deps_in_order it (iter_rules it (matching_rules ruleset tgt)))
             /\ Label_as_tuple d = Label_as_tuple x)
  <-> depends_on ruleset tgt x.
Proof.
  split.
  - intros (d & Hd & E). apply In_deps_in_order in Hd as (r & Hr & Hd).
    apply (proj1 (In_iter_rules _ _)) in Hr. exists r, d.
    repeat split; auto.
    now apply Label_eqb_tuple.
  - intros (r & d & Hr & Hd & E). exists d. split.
    + apply In_deps_in_order. exists r. split; [|exact Hd].
      now apply In_iter_rules.
    + now apply Label_eqb_tuple.
Qed.

Lemma last_default (l : list (Rule A)) (first : Rule A) :
  l <> [] -> last l = Some (List.last l first).
Proof.
  induction l as [|x l IH]; [congruence|]. intros _.
  destruct l as [|y l]; [reflexivity|].
  rewrite last_cons, IH by discriminate. reflexivity.
Qed.

(** What [visit_target] does: it raises for a target without rules;
    it appends the chosen rule for a target whose dependencies are all
    satisfied; it keeps any other target for the next pass, with the
    dependencies that are new. *)
Lemma visit_target_cases (useTags : bool) (T : list Label)
      (st : loop_state A) (tgt : Label) :
  (matching_rules ruleset tgt = []
   /\ visit_target it ruleset useTags T st tgt = Raise (RuleListEmpty tgt))
  \/ (matching_rules ruleset tgt <> []
      /\ exists r, chosen_rule it ruleset tgt = Some r
      /\ (((forall d, depends_on ruleset tgt d -> kin d (rule_target_set st))
           /\ visit_target it ruleset useTags T st tgt
              = Ok (mkState (rule_list st ++ [r])
                            (set_add tgt (rule_target_set st))
                            (new_targets st) true))
          \/ ((exists d, depends_on ruleset tgt d
                         /\ ~ kin d (rule_target_set st))
              /\ exists nt' dn',
                 visit_target it ruleset useTags T st tgt
                 = Ok (mkState (rule_list st) (rule_target_set st)
                               (set_add tgt nt') dn')
                 /\ fold_left (visit_dep (rule_target_set st) T)
                      (deps_in_order it
                         (iter_rules it (matching_rules ruleset tgt)))
                      (new_targets st, done_something st, true)
                    = (nt', dn', false)))).
Proof.
  unfold visit_target. rewrite rules_for_target_useTags.
  destruct (iter_rules it (matching_rules ruleset tgt)) as [|first rest] eqn:Er.
  - left. split; [now apply iter_rules_nil | reflexivity].
  - right.
    assert (Hne : matching_rules ruleset tgt <> []).
    { intros E. apply iter_rules_nil in E. congruence. }
    split; [exact Hne|].
    exists (List.last (first :: rest) first). split.
    { unfold chosen_rule. rewrite Er. now apply last_default. }
    rewrite visit_rules_flat.
    destruct (fold_left _ _ _) as [[nt' dn'] cb'] eqn:Ef.
    pose proof (visit_deps_spec _ _ _ _ _ _ _ _ _ Ef)
      as (H1 & _ & _ & _ & _ & _ & _ & _ & _).
    cbn [andb] in H1.
    destruct cb'.
    + left. symmetry in H1. rewrite forallb_forall in H1.
      assert (Hall : forall d, depends_on ruleset tgt d ->
                               kin d (rule_target_set st)).
      { intros d Hd. apply deps_of_target in Hd as (d0 & Hd0 & E).
        rewrite Er in Hd0. apply (kin_eq d0 d _ E).
        apply label_in_kin. now apply H1. }
      split; [exact Hall|].
      (* nothing was added: every dependency is satisfied *)
      assert (Hsame : forall ds nt dn cb,
                 (forall d, In d ds -> label_in d (rule_target_set st) = true) ->
                 fold_left (visit_dep (rule_target_set st) T) ds (nt, dn, cb)
                 = (nt, dn, cb)).
      { induction ds as [|d ds IH]; intros nt dn cb Hds; [reflexivity|].
        cbn [fold_left]. unfold visit_dep at 2.
        rewrite (Hds d (or_introl eq_refl)). cbn [negb].
        apply IH. intros d0 Hd0. apply Hds. now right. }
      rewrite (Hsame _ _ _ _ H1) in Ef. injection Ef as <- <-.
      reflexivity.
    + right. split.
      * assert (Hex : exists d, In d (deps_in_order it (first :: rest))
                                /\ label_in d (rule_target_set st) = false).
        { symmetry in H1. apply not_true_iff_false in H1.
          rewrite forallb_forall in H1.
          destruct (existsb (fun d => negb (label_in d (rule_target_set st)))
                            (deps_in_order it (first :: rest))) eqn:Ex.
          - apply existsb_exists in Ex as (d & Hd & E).
            apply negb_true_iff in E. eauto.
          - exfalso. apply H1. intros d Hd.
            destruct (label_in d (rule_target_set st)) eqn:E; [reflexivity|].
            assert (existsb (fun d => negb (label_in d (rule_target_set st)))
                            (deps_in_order it (first :: rest)) = true).
            { apply existsb_exists. exists d. now rewrite E. }
            congruence. }
        destruct Hex as (d & Hd & E). exists d. split.
        -- apply deps_of_target. exists d. rewrite Er. auto.
        -- now apply label_in_not_kin.
      * exists nt', dn'. split; reflexivity.
Qed.
End Target.

(* ================================================================== *)
(** * One pass of the loop                                             *)
(* ================================================================== *)

Lemma for_each_cons {E S X : Type} (body : S -> X -> result E S)
      (x : X) (xs : list X) (s : S) :
  for_each body (x :: xs) s
  = match body s x with
    | Ok s' => for_each body xs s'
    | Raise e => Raise e
    end.
Proof. reflexivity. Qed.

Section Pass.
Context {A : Type}.
Variable it : iteration A.
Variable ruleset : RuleSet A.
Variable useTags : bool.
Variable targets0 B0 : list Label.
Variable rl0 : list (Rule A).
Variable T1 : list Label.

Hypothesis T1_disjoint : forall x, kin x T1 -> ~ kin x B0.
Hypothesis T1_needed : forall x, kin x T1 -> needed ruleset targets0 x.

(** A visit keeps the invariant of the pass. *)
Lemma visit_target_inv (V W : list Label) (st st' : loop_state A)
      (tgt : Label) :
  pass_inv it ruleset targets0 B0 rl0 T1 V (tgt :: W) st ->
  ~ kin tgt V -> kin tgt T1 -> (forall x, kin x V -> kin x T1) ->
  visit_target it ruleset useTags T1 st tgt = Ok st' ->
  pass_inv it ruleset targets0 B0 rl0 T1 (V ++ [tgt]) W st'.
Proof.
  intros [Ho Hm Hb Hn Hd Hdi Hv Hme Hr Hi] HtV HtT HVT Hvisit.
  assert (HtB : ~ kin tgt (rule_target_set st)).
  { intros H. destruct (Hb _ H) as [H' | H']; [|contradiction].
    now apply (T1_disjoint tgt). }
  assert (Htn : ~ kin tgt (new_targets st)).
  { intros H. destruct (Hn _ H) as ([H' | H'] & _); contradiction. }
  destruct (visit_target_cases it ruleset useTags T1 st tgt)
    as [[_ E] | (Hne & r & Hch & [[Hready E] | [Hblocked (nt' & dn' & E & Ef)]])];
    rewrite E in Hvisit; [discriminate | |]; injection Hvisit as <-.
  - (* the target is ready *)
    rewrite (set_add_new tgt _ HtB).
    constructor; cbn [rule_list rule_target_set new_targets done_something].
    + apply order_snoc; auto.
      * now apply label_in_not_kin.
      * intros d Hdep. apply label_in_kin. now apply Hready.
    + intros x Hx. apply kin_app. left. now apply Hm.
    + intros x Hx. apply kin_app in Hx as [Hx | Hx].
      * destruct (Hb _ Hx); [now left | right]. apply kin_app. now left.
      * right. apply kin_app. now right.
    + intros x Hx. destruct (Hn _ Hx) as ([H | H] & H2 & H3);
        repeat split; auto.
      left. apply kin_app. now left.
    + intros x Hx Hx'. apply kin_app in Hx' as [Hx' | Hx'].
      * now apply (Hd x).
      * apply kin_cons in Hx' as [Ek | []]. apply Htn.
        now apply (kin_eq x tgt).
    + exact Hdi.
    + intros x Hx. apply kin_app in Hx as [Hx | Hx].
      * destruct (Hv _ Hx); [now left | right]. apply kin_app. now left.
      * right. apply kin_app. now right.
    + rewrite length_app. cbn [length] in Hme |- *.
      destruct (done_something st); lia.
    + intros t Ht. apply kin_app in Ht as [Ht | Ht]; [now apply Hr|].
      apply kin_cons in Ht as [Ek | []].
      now rewrite <- (matching_rules_key ruleset tgt t Ek).
    + discriminate.
  - (* the target has to wait *)
    pose proof (visit_deps_spec _ _ _ _ _ _ _ _ _ Ef)
      as (_ & H2 & H3 & H4 & H5 & H6 & H7 & H8 & H9).
    assert (Hdep : forall x d,
               In d (deps_in_order it (iter_rules it (matching_rules ruleset tgt))) ->
               Label_as_tuple d = Label_as_tuple x ->
               depends_on ruleset tgt x).
    { intros x d Hin Ek. apply (proj1 (deps_of_target it ruleset tgt x)). eauto. }
    assert (Htn' : ~ kin tgt nt').
    { intros H. destruct (H4 _ H) as [H' | (d & Hin & Ek & _ & HdT)];
        [contradiction|]. apply HdT. now apply (kin_eq tgt d). }
    rewrite (set_add_new tgt _ Htn').
    constructor; cbn [rule_list rule_target_set new_targets done_something].
    + exact Ho.
    + exact Hm.
    + intros x Hx. destruct (Hb _ Hx); [now left | right].
      apply kin_app. now left.
    + intros x Hx. apply kin_app in Hx as [Hx | Hx].
      * destruct (H4 _ Hx) as [H' | (d & Hin & Ek & HdB & HdT)].
        -- destruct (Hn _ H') as ([H | H] & Hx2 & Hx3); repeat split; auto.
           left. apply kin_app. now left.
        -- repeat split.
           ++ right. intros H. apply HdT. now apply (kin_eq x d).
           ++ intros H. apply HdB. apply Hm. now apply (kin_eq x d).
           ++ apply (needed_dep _ _ tgt); [now apply T1_needed|].
              now apply (Hdep x d).
      * apply kin_cons in Hx as [Ek | []]. repeat split.
        -- left. apply kin_app. right. now left.
        -- intros H. apply (T1_disjoint tgt HtT). now apply (kin_eq x tgt).
        -- apply (needed_key ruleset targets0 tgt x Ek). now apply T1_needed.
    + intros x Hx Hx'. apply kin_app in Hx as [Hx | Hx].
      * destruct (H4 _ Hx) as [H' | (d & Hin & Ek & HdB & HdT)].
        -- now apply (Hd x).
        -- apply HdB. now apply (kin_eq x d).
      * apply kin_cons in Hx as [Ek | []]. apply HtB.
        now apply (kin_eq x tgt).
    + apply distinct_snoc; auto.
    + intros x Hx. apply kin_app in Hx as [Hx | Hx].
      * destruct (Hv _ Hx) as [H | H]; [left | now right].
        apply kin_app. left. now apply H3.
      * left. apply kin_app. now right.
    + rewrite length_app. cbn [length] in Hme |- *.
      destruct (done_something st) eqn:Edn, dn' eqn:Edn'.
      * lia.
      * specialize (H7 eq_refl). discriminate.
      * specialize (H8 eq_refl eq_refl). lia.
      * lia.
    + intros t Ht. apply kin_app in Ht as [Ht | Ht]; [now apply Hr|].
      apply kin_cons in Ht as [Ek | []].
      now rewrite <- (matching_rules_key ruleset tgt t Ek).
    + intros Edn'. subst dn'.
      assert (Edn : done_something st = false).
      { destruct (done_something st); [|reflexivity].
        specialize (H7 eq_refl). discriminate. }
      destruct (Hi Edn) as (EB & Erl & Hsub & Hblk).
      specialize (H9 eq_refl). subst nt'.
      repeat split; auto.
      * intros x Hx. apply kin_app in Hx as [Hx | Hx].
        -- apply kin_app. left. now apply Hsub.
        -- apply kin_app. now right.
      * apply kin_app in H as [Ht | Ht].
        -- now apply (Hblk t).
        -- apply kin_cons in Ht as [Ek | []].
           destruct Hblocked as (d & Hdd & HdB). exists d. split.
           ++ now apply (depends_on_key ruleset tgt t d d).
           ++ now rewrite <- EB.
      * intros d Hdd. apply kin_app in H as [Ht | Ht].
        -- now apply (proj2 (Hblk t Ht)).
        -- apply kin_cons in Ht as [Ek | []].
           apply (depends_on_key ruleset t tgt d d) in Hdd; auto.
           destruct (kin_dec d B0) as [HB | HB]; [now left | right].
           apply (proj2 (deps_of_target it ruleset tgt d)) in Hdd as (d0 & Hin & Ek0).
           rewrite <- EB in HB.
           destruct (H5 d0 Hin) as [H' | H'].
           { intros H'. apply HB. now apply (kin_eq d0 d). }
           ++ apply HVT. apply Hsub. now apply (kin_eq d0 d).
           ++ now apply (kin_eq d0 d).
Qed.

(** A visit that raises found a target without rules. *)
Lemma visit_target_raises (st : loop_state A) (tgt : Label)
      (e : depend_error A) :
  visit_target it ruleset useTags T1 st tgt = Raise e ->
  e = RuleListEmpty tgt /\ matching_rules ruleset tgt = [].
Proof.
  intros H.
  destruct (visit_target_cases it ruleset useTags T1 st tgt)
    as [[Hm E] | (_ & r & _ & [[_ E] | [_ (nt' & dn' & E & _)]])];
    rewrite E in H; try discriminate.
  injection H as <-. auto.
Qed.

(** The rest of a pass, from its middle. *)
Lemma pass_rest (W : list Label) :
  forall (V : list Label) (st : loop_state A),
    pass_inv it ruleset targets0 B0 rl0 T1 V W st ->
    distinct (V ++ W) ->
    (forall x, kin x (V ++ W) -> kin x T1) ->
    match for_each (visit_target it ruleset useTags T1) W st with
    | Ok st' => pass_inv it ruleset targets0 B0 rl0 T1 (V ++ W) [] st'
    | Raise e =>
        exists t, e = RuleListEmpty t /\ In t W
                  /\ matching_rules ruleset t = []
    end.
Proof.
  induction W as [|tgt W IH]; intros V st Hinv Hdis Hsub.
  - simpl. now rewrite app_nil_r.
  - rewrite for_each_cons.
    destruct (visit_target it ruleset useTags T1 st tgt) as [st'|e] eqn:E.
    + assert (HtV : ~ kin tgt V).
      { unfold distinct, keys in Hdis. rewrite map_app in Hdis.
        cbn [List.map] in Hdis. apply NoDup_remove_2 in Hdis.
        intros H. apply Hdis. apply in_app_iff. now left. }
      assert (Hstep := visit_target_inv V W st st' tgt Hinv HtV).
      specialize (IH (V ++ [tgt]) st').
      rewrite <- app_assoc in IH. cbn [app] in IH.
      destruct (for_each _ W st') as [st''|e'].
      * apply IH; auto. apply Hstep; auto.
        -- apply Hsub. apply kin_app. right. now left.
        -- intros x Hx. apply Hsub. apply kin_app. now left.
      * destruct IH as (t & -> & Ht & Hm); auto.
        -- apply Hstep; auto.
           ++ apply Hsub. apply kin_app. right. now left.
           ++ intros x Hx. apply Hsub. apply kin_app. now left.
        -- exists t. repeat split; auto. now right.
    + apply visit_target_raises in E as [-> Hm].
      exists tgt. repeat split; auto. now left.
Qed.
End Pass.

(* ================================================================== *)
(** * The loop                                                         *)
(* ================================================================== *)

Lemma set_difference_disjoint (s1 s2 : list Label) :
  (forall x, kin x s1 -> ~ kin x s2) -> set_difference s1 s2 = s1.
Proof.
  intros H. unfold set_difference. induction s1 as [|x s1 IH]; [reflexivity|].
  simpl. rewrite (proj2 (label_in_not_kin x s2)).
  - simpl. f_equal. apply IH. intros y Hy. apply H. apply kin_cons. now right.
  - apply H. apply kin_cons. now left.
Qed.

Lemma targets_match_distinct {A : Type} (ruleset : RuleSet A)
      (target_ : Label) (useMatch : bool) :
  distinct (targets_match ruleset target_ useMatch).
Proof.
  unfold targets_match. destruct useMatch.
  - assert (H : forall ks acc, distinct acc ->
                  distinct (fold_left
                              (fun result_set k =>
                                 if bool_decide (is_Some (Label_match k target_))
                                 then set_add k result_set else result_set)
                              ks acc)).
    { induction ks as [|k ks IH]; intros acc Hacc; [exact Hacc|].
      simpl. apply IH. destruct (bool_decide _); [|exact Hacc].
      now apply set_add_distinct. }
    apply H, distinct_nil.
  - apply set_add_distinct, distinct_nil.
Qed.

Section Loop.
Context {A : Type}.
Variable it : iteration A.
Variable ruleset : RuleSet A.
Variable target_ : Label.
Variable useTags : bool.
Variable targets0 : list Label.

(** The loop from any state it can be in, with passes enough in
    hand: it ends, and with one of the outcomes described. *)
Lemma while_done_something_outcome (fuel : nat) :
  forall (rl : list (Rule A)) (B T : list Label),
    build_order it ruleset B rl ->
    distinct T ->
    (forall x, kin x targets0 -> kin x T \/ kin x B) ->
    (forall x, kin x T \/ kin x B -> needed ruleset targets0 x) ->
    2 * length (all_labels ruleset targets0)
    < fuel + 2 * length B + length (set_difference T B) ->
    exists res,
      while_done_something fuel it ruleset target_ useTags rl B T = Some res
      /\ outcome it ruleset target_ targets0 res.
Proof.
  induction fuel as [|fuel IH]; intros rl B T Hord HT Hcover Hneed Hfuel.
  - exfalso.
    assert (length B + length (set_difference T B)
            <= length (all_labels ruleset targets0)).
    { apply distinct_length2.
      - now apply (build_order_distinct it ruleset B rl).
      - now apply set_difference_distinct.
      - intros x Hx Hx'. apply set_difference_kin in Hx'. tauto.
      - intros x Hx. apply needed_all_labels. apply Hneed. now right.
      - intros x Hx. apply needed_all_labels. apply Hneed. left.
        now apply set_difference_kin in Hx. }
    lia.
  - cbn [while_done_something].
    set (T1 := set_difference T B) in *.
    assert (HT1 : forall x, kin x T1 <-> kin x T /\ ~ kin x B)
      by (intros x; apply set_difference_kin).
    destruct (Nat.eqb (length T1) 0) eqn:Elen.
    + (* nothing left to satisfy *)
      apply Nat.eqb_eq in Elen. apply length_zero_iff_nil in Elen.
      exists (Ok rl). split; [reflexivity|]. cbn [outcome].
      exists B. repeat split; auto.
      intros x Hx. destruct (Hcover x Hx) as [Hx' | Hx']; [|exact Hx'].
      destruct (kin_dec x B) as [HB | HB]; [exact HB|].
      exfalso. apply (kin_nil x). rewrite <- Elen. apply HT1. auto.
    + apply Nat.eqb_neq in Elen.
      assert (Hdisj : forall x, kin x T1 -> ~ kin x B)
        by (intros x Hx; now apply HT1 in Hx).
      assert (HT1n : forall x, kin x T1 -> needed ruleset targets0 x).
      { intros x Hx. apply Hneed. left. now apply HT1 in Hx. }
      assert (Hperm := iter_labels_perm it T1).
      assert (Hinit : pass_inv it ruleset targets0 B rl T1 []
                               (iter_labels it T1) (mkState rl B [] false)).
      { constructor;
          cbn [rule_list rule_target_set new_targets done_something];
          auto;
          try (intros x Hx; exfalso; now apply kin_nil in Hx).
        - apply distinct_nil.
        - rewrite (Permutation_length Hperm). cbn [length]. lia.
        - intros _. repeat split; auto;
            try (intros x Hx; exfalso; now apply kin_nil in Hx);
            exfalso; now apply kin_nil in H. }
      assert (Hpass := pass_rest it ruleset useTags targets0 B rl T1
                         Hdisj HT1n (iter_labels it T1) []
                         (mkState rl B [] false) Hinit).
      cbn [app] in Hpass.
      assert (HVT : forall x, kin x (iter_labels it T1) <-> kin x T1).
      { intros x. split; apply kin_perm; [|apply Permutation_sym]; exact Hperm. }
      specialize (Hpass
                    (distinct_perm _ _ (Permutation_sym Hperm)
                                   (set_difference_distinct T B HT))
                    (fun x Hx => proj1 (HVT x) Hx)).
      destruct (for_each _ (iter_labels it T1) _) as [st|e].
      * destruct Hpass as [Ho Hm Hb Hn Hd Hdi Hv Hme Hr Hi].
        assert (Hcover' : forall x, kin x targets0 ->
                   kin x (new_targets st) \/ kin x (rule_target_set st)).
        { intros x Hx. destruct (Hcover x Hx) as [Hx' | Hx'].
          - destruct (kin_dec x B) as [HB | HB]; [right; now apply Hm|].
            apply Hv. apply HVT. apply HT1. auto.
          - right. now apply Hm. }
        assert (Hneed' : forall x,
                   kin x (new_targets st) \/ kin x (rule_target_set st) ->
                   needed ruleset targets0 x).
        { intros x [Hx | Hx].
          - now apply Hn.
          - destruct (Hb x Hx) as [Hx' | Hx'].
            + apply Hneed. now right.
            + apply HT1n. now apply HVT. }
        destruct (done_something st) eqn:Edone.
        -- (* something was done: once more *)
           apply IH; auto.
           rewrite (set_difference_disjoint _ _ Hd).
           cbn [length] in Hme. fold T1 in Hfuel. lia.
        -- (* nothing could be done *)
           destruct (Hi eq_refl) as (EB & Erl & Hsub & Hblk).
           exists (Raise (CircularOrIncomplete target_ (new_targets st)
                                               (rule_list st) ruleset)).
           split; [reflexivity|]. cbn [outcome].
           assert (Hback : forall x, kin x T1 -> kin x (new_targets st)).
           { intros x Hx. destruct (Hv x (proj2 (HVT x) Hx)) as [H | H];
               [exact H|]. rewrite EB in H. now apply Hdisj in Hx. }
           split; [reflexivity|]. split; [reflexivity|]. split.
           { intros Enil. destruct T1 as [|t T1'] eqn:ET1; [now apply Elen|].
             apply (kin_nil t). rewrite <- Enil. apply Hback.
             apply kin_cons. now left. }
           exists B. rewrite EB in *.
           split; [exact Ho|]. split; [exact Hcover'|].
           split; [intros x Hx; apply Hneed; now right|].
           intros t Ht. apply Hsub in Ht.
           destruct (Hblk t Ht) as ((d & Hdd & HdB) & Hall).
           split; [apply HT1n; now apply HVT|].
           split; [apply Hdisj; now apply HVT|].
           split; [now apply Hr|].
           split.
           { exists d. repeat split; auto.
             destruct (Hall d Hdd) as [H' | H']; [contradiction|].
             now apply Hback. }
           intros d' Hdd'.
           destruct (Hall d' Hdd') as [H' | H']; [now left | right].
           now apply Hback.
      * destruct Hpass as (t & -> & Ht & Hm).
        exists (Raise (RuleListEmpty t)). split; [reflexivity|].
        cbn [outcome]. split; [|exact Hm].
        apply HT1n, HVT. now apply kin_In.
Qed.
End Loop.

(** [needed_to_build] always ends, with one of the outcomes described. *)
Lemma needed_to_build_outcome {A : Type} (it : iteration A)
      (ruleset : RuleSet A) (target_ : Label) (useTags useMatch : bool) :
  exists res,
    needed_to_build it ruleset target_ useTags useMatch = Some res
    /\ outcome it ruleset target_
               (targets_match ruleset target_ useMatch) res.
Proof.
  unfold needed_to_build.
  apply while_done_something_outcome.
  - constructor.
  - apply targets_match_distinct.
  - auto.
  - intros x [Hx | Hx]; [now apply needed_kin | now apply kin_nil in Hx].
  - lia.
Qed.

(* ================================================================== *)
(** * Positions in the order of a build                                *)
(* ================================================================== *)

Lemma kin_lookup (x : Label) (s : list Label) :
  kin x s <->
  exists j y, s !! j = Some y /\ Label_as_tuple y = Label_as_tuple x.
Proof.
  split.
  - intros H. apply kin_inv in H as (y & Hy & E).
    apply list_elem_of_In, list_elem_of_lookup in Hy as (j & Hj). eauto.
  - intros (j & y & Hj & E). apply (kin_eq y x _ E). apply kin_In.
    apply list_elem_of_In, list_elem_of_lookup. eauto.
Qed.

Lemma index_of_kin (t : Label) (s : list Label) :
  kin t s <-> index_of t s < length s.
Proof.
  induction s as [|x s IH]; simpl.
  - split; [intros [] | lia].
  - rewrite kin_cons. destruct (Label_eqb t x) eqn:E.
    + split; [lia|]. intros _. left. symmetry. now apply Label_eqb_tuple.
    + rewrite IH. split.
      * intros [Ek | H]; [|lia]. symmetry in Ek.
        apply Label_eqb_tuple in Ek. congruence.
      * intros H. right. lia.
Qed.

Lemma index_of_app (t : Label) (s1 s2 : list Label) :
  kin t s1 -> index_of t (s1 ++ s2) = index_of t s1.
Proof.
  induction s1 as [|x s1 IH]; simpl; [intros []|].
  rewrite kin_cons. destruct (Label_eqb t x) eqn:E; [reflexivity|].
  intros [Ek | H]; [|now rewrite IH]. symmetry in Ek.
  apply Label_eqb_tuple in Ek. congruence.
Qed.

Lemma index_of_snoc (t x : Label) (s : list Label) :
  ~ kin t s -> Label_as_tuple x = Label_as_tuple t ->
  index_of t (s ++ [x]) = length s.
Proof.
  intros Hn Ek. induction s as [|y s IH]; simpl.
  - symmetry in Ek. apply Label_eqb_tuple in Ek. now rewrite Ek.
  - destruct (Label_eqb t y) eqn:E.
    + exfalso. apply Hn. apply kin_cons. left. symmetry.
      now apply Label_eqb_tuple.
    + rewrite IH; [reflexivity|]. intros H. apply Hn. apply kin_cons.
      now right.
Qed.

Section OrderFacts.
Context {A : Type}.
Variable it : iteration A.
Variable ruleset : RuleSet A.

(** A satisfied label comes after everything it depends on. *)
Lemma build_order_index (B : list Label) (rl : list (Rule A)) :
  build_order it ruleset B rl ->
  forall t d, kin t B -> depends_on ruleset t d ->
              index_of d B < index_of t B.
Proof.
  induction 1 as [|B rl tgt r HB IH Hnew Hr Hdeps]; [intros t d []|].
  intros t d Ht Hd. destruct (kin_dec t B) as [HtB | HtB].
  - assert (HdB : kin d B)
      by now apply (build_order_closed it ruleset B rl t HB HtB).
    rewrite !index_of_app by assumption. now apply IH.
  - apply kin_app in Ht as [Ht | Ht]; [contradiction|].
    apply kin_cons in Ht as [Ek | []].
    assert (HdB : kin d B).
    { apply label_in_kin, Hdeps.
      now apply (depends_on_key ruleset t tgt d d). }
    rewrite (index_of_app d) by assumption.
    rewrite (index_of_snoc t tgt B HtB Ek).
    now apply index_of_kin.
Qed.

Lemma build_order_chain (B : list Label) (rl : list (Rule A)) (t d : Label) :
  build_order it ruleset B rl -> kin t B -> chain ruleset t d ->
  kin d B /\ index_of d B < index_of t B.
Proof.
  intros HB Ht Hc. induction Hc as [t d Hd | t d e Hd Hc IH].
  - split.
    + now apply (build_order_closed it ruleset B rl t HB Ht).
    + now apply (build_order_index B rl HB).
  - assert (HdB : kin d B)
      by now apply (build_order_closed it ruleset B rl t HB Ht).
    destruct (IH HdB) as [He Hlt]. split; [exact He|].
    pose proof (build_order_index B rl HB t d Ht Hd). lia.
Qed.

(** The rule at a position is the rule chosen for the label at that
    position, and what the label depends on stands before it. *)
Lemma build_order_lookup (B : list Label) (rl : list (Rule A)) :
  build_order it ruleset B rl ->
  forall i tgt,
    B !! i = Some tgt ->
    exists r, rl !! i = Some r
              /\ chosen_rule it ruleset tgt = Some r
              /\ forall d, depends_on ruleset tgt d ->
                           exists j tj, j < i /\ B !! j = Some tj
                                        /\ Label_as_tuple tj = Label_as_tuple d.
Proof.
  induction 1 as [|B rl tgt r HB IH Hnew Hr Hdeps]; [intros i t' H'; now rewrite lookup_nil in H'|].
  intros i t' Hi.
  assert (Hlen := build_order_length it ruleset B rl HB).
  destruct (decide (i < length B)) as [Hlt | Hge].
  - rewrite lookup_app_l in Hi by exact Hlt.
    destruct (IH i t' Hi) as (r' & Hr' & Hc & Hd).
    exists r'. split; [|split; [exact Hc|]].
    + rewrite lookup_app_l by lia. exact Hr'.
    + intros d Hdd. destruct (Hd d Hdd) as (j & tj & Hj & Hl & Ek).
      exists j, tj. repeat split; auto.
      rewrite lookup_app_l by lia. exact Hl.
  - assert (Hi' := Hi). apply lookup_lt_Some in Hi'.
    rewrite length_app in Hi'. cbn [length] in Hi'.
    assert (i = length B) by lia. subst i.
    rewrite lookup_app_r, Nat.sub_diag in Hi by lia.
    injection Hi as <-.
    exists r. split; [|split; [exact Hr|]].
    + rewrite Hlen, lookup_app_r, Nat.sub_diag by lia. reflexivity.
    + intros d Hdd. apply Hdeps, label_in_kin, kin_lookup in Hdd
        as (j & tj & Hj & Ek).
      exists j, tj. repeat split; auto.
      * now apply lookup_lt_Some in Hj.
      * rewrite lookup_app_l; [exact Hj | now apply lookup_lt_Some in Hj].
Qed.

Lemma chosen_rule_In (tgt : Label) (r : Rule A) :
  chosen_rule it ruleset tgt = Some r -> In r (matching_rules ruleset tgt).
Proof.
  unfold chosen_rule. intros H.
  apply last_Some_elem_of, list_elem_of_In in H.
  now apply (proj1 (In_iter_rules it _ _)) in H.
Qed.

(** In a well-formed rule set, a label matches the target of the rule
    chosen for it. *)
Lemma chosen_rule_matches (tgt : Label) (r : Rule A) :
  RuleSet_wf ruleset -> chosen_rule it ruleset tgt = Some r ->
  is_Some (Label_match tgt (target r)).
Proof.
  intros Hwf H. apply chosen_rule_In, matching_rules_In in H
    as (k & Hk & Hm).
  apply (RuleSet_wf_target ruleset k r Hwf), Label_eqb_tuple in Hk.
  now rewrite <- (Label_match_key tgt tgt k (target r) eq_refl Hk).
Qed.

(* ---------------------------------------------------------------- *)
(** ** Cycles                                                        *)
(* ---------------------------------------------------------------- *)

(** Among labels each of which depends on another of them, one
    depends on itself: follow the dependencies until a label comes
    again. *)
Lemma path_or_cycle (T : list Label) :
  T <> [] ->
  (forall t, kin t T -> exists d, depends_on ruleset t d /\ kin d T) ->
  forall n,
    (exists t, kin t T /\ chain ruleset t t)
    \/ exists x p,
        length p = n /\ distinct (x :: p)
        /\ (forall y, In y (x :: p) -> kin y T)
        /\ (forall y, In y p -> chain ruleset y x).
Proof.
  intros Hne Hnext. induction n as [|n IH].
  - right. destruct T as [|x T']; [congruence|].
    exists x, []. repeat split.
    + repeat constructor. intros [].
    + intros y [<- | []]. apply kin_cons. now left.
    + intros y [].
  - destruct IH as [Hc | (x & p & Hlen & Hdis & Hin & Hch)]; [now left|].
    destruct (Hnext x (Hin x (or_introl eq_refl))) as (d & Hd & HdT).
    destruct (kin_dec d (x :: p)) as [Hold | Hnew].
    + left. apply kin_inv in Hold as (y & Hy & Ek).
      exists y. split; [now apply Hin|].
      apply (chain_key ruleset y d y (eq_sym Ek)).
      destruct Hy as [<- | Hy]; [now apply chain_one|].
      apply (chain_snoc ruleset y x d); auto.
    + right. exists d, (x :: p). repeat split.
      * simpl. now rewrite Hlen.
      * unfold distinct, keys in *. cbn [List.map] in *.
        constructor; [exact Hnew | exact Hdis].
      * intros y [<- | Hy]; [exact HdT | now apply Hin].
      * intros y [<- | Hy]; [now apply chain_one|].
        apply (chain_snoc ruleset y x d); auto.
Qed.

Lemma closed_has_cycle (T : list Label) :
  T <> [] ->
  (forall t, kin t T -> exists d, depends_on ruleset t d /\ kin d T) ->
  exists t, kin t T /\ chain ruleset t t.
Proof.
  intros Hne Hnext.
  destruct (path_or_cycle T Hne Hnext (length T))
    as [Hc | (x & p & Hlen & Hdis & Hin & _)]; [exact Hc|].
  exfalso.
  assert (length (x :: p) <= length T).
  { apply distinct_length; [exact Hdis|].
    intros y Hy. apply kin_inv in Hy as (z & Hz & Ek).
    apply (kin_eq z y _ Ek). now apply Hin. }
  simpl in H. lia.
Qed.
End OrderFacts.

(* ================================================================== *)
(** * The solver: what [needed_to_build] guarantees                    *)
(* ================================================================== *)

(** [needed_to_build] returns: the passes allowed are never used up. *)
Lemma needed_to_build_returns {A : Type} (it : iteration A)
      (ruleset : RuleSet A) (target_ : Label) (useTags useMatch : bool) :
  exists res, needed_to_build it ruleset target_ useTags useMatch = Some res.
Proof.
  destruct (needed_to_build_outcome it ruleset target_ useTags useMatch)
    as (res & H & _).
  eauto.
Qed.

(** A successful run, told as the order in which labels were marked
    ready. *)
Lemma needed_to_build_order {A : Type} (it : iteration A)
      (ruleset : RuleSet A) (target_ : Label) (useTags useMatch : bool)
      (rl : list (Rule A)) :
  needed_to_build it ruleset target_ useTags useMatch = Some (Ok rl) ->
  exists B, build_order it ruleset B rl
            /\ (forall x, kin x (targets_match ruleset target_ useMatch) ->
                          kin x B)
            /\ (forall x, kin x B ->
                          needed ruleset
                                 (targets_match ruleset target_ useMatch) x).
Proof.
  intros H.
  destruct (needed_to_build_outcome it ruleset target_ useTags useMatch)
    as (res & H' & Hout).
  rewrite H in H'. injection H' as <-. exact Hout.
Qed.

(** C1, as the claim has it, at one input: to build [package:a/built]
    the solver returns the wildcard rule [checkout:*/checked_out] and then
    the rule of the package; the dependency [checkout:b/checked_out] of
    the latter is the target of no rule of the list. *)
Lemma wildcard_rule_is_not_the_dependency :
  RuleSet_wf wildcard_ruleset
  /\ exists rl,
      needed_to_build (in_list_order unit) wildcard_ruleset
                      (example_label "package" "a" "built") true false
      = Some (Ok rl)
      /\ ~ deps_are_earlier_targets rl.
Proof.
  split; [reflexivity|].
  eexists. split; [vm_compute; reflexivity|].
  intros H.
  destruct (H 1 _ (example_label "checkout" "b" "checked_out") eq_refl
              (or_introl eq_refl)) as (j & r' & Hj & Hl & E).
  destruct j as [|[|j]]; [|lia|lia].
  injection Hl as <-. vm_compute in E. discriminate.
Qed.

(** C1, amended. When [needed_to_build] returns a rule list for a rule
    set in which every rule is filed under its own target, every label of
    [targets_match(query)] matches the target of a rule of the list, and
    every dependency of every rule of the list matches (under the
    wildcard match) the target of a rule earlier in the list. *)
Theorem solver_soundness {A : Type} (it : iteration A)
        (ruleset : RuleSet A) (target_ : Label) (useTags useMatch : bool)
        (rl : list (Rule A)) :
  RuleSet_wf ruleset ->
  needed_to_build it ruleset target_ useTags useMatch = Some (Ok rl) ->
  targets_satisfied (targets_match ruleset target_ useMatch) rl
  /\ deps_match_earlier_targets rl.
Proof.
  intros Hwf H.
  destruct (needed_to_build_order it ruleset target_ useTags useMatch rl H)
    as (B & HB & Hcover & _).
  assert (Hlen := build_order_length it ruleset B rl HB).
  split.
  - intros t Ht. apply kin_In, Hcover, kin_lookup in Ht
      as (i & tgt & Hi & Ek).
    destruct (build_order_lookup it ruleset B rl HB i tgt Hi)
      as (r & Hr & Hc & _).
    exists r. split.
    + apply list_elem_of_In, list_elem_of_lookup. eauto.
    + rewrite <- (Label_match_key tgt t (target r) (target r) Ek eq_refl).
      now apply (chosen_rule_matches it ruleset).
  - intros i r d Hi Hd.
    assert (Hi' : is_Some (B !! i)).
    { apply lookup_lt_is_Some. rewrite Hlen.
      now apply lookup_lt_Some in Hi. }
    destruct Hi' as (tgt & Ht).
    destruct (build_order_lookup it ruleset B rl HB i tgt Ht)
      as (r0 & Hr0 & Hc & Hdeps).
    rewrite Hi in Hr0. injection Hr0 as <-.
    destruct (Hdeps d) as (j & tj & Hj & Htj & Ek).
    { apply (depends_on_intro ruleset tgt d r); [|exact Hd].
      now apply (chosen_rule_In it). }
    destruct (build_order_lookup it ruleset B rl HB j tj Htj)
      as (r' & Hr' & Hc' & _).
    exists j, r'. repeat split; auto.
    rewrite <- (Label_match_key tj d (target r') (target r') Ek eq_refl).
    now apply (chosen_rule_matches it ruleset).
Qed.

Lemma solver_soundness_witness :
  targets_satisfied
    (targets_match wildcard_ruleset (example_label "package" "a" "built") false)
    wildcard_answer
  /\ deps_match_earlier_targets wildcard_answer.
Proof.
  apply (solver_soundness (in_list_order unit) wildcard_ruleset
                          (example_label "package" "a" "built") true false);
    reflexivity.
Defined.

(** C9, as the claim has it, at one input: [deployment:d/deployed]
    needs [package:a/built], [package:c/built] and [package:a/installed].
    Two rules apply to [package:a/built], those of [package:*/built] and
    of [package:a/*]. The solver appends the second for it; the first is
    in the list all the same, appended for [package:c/built], and the
    second is there twice, once more for [package:a/installed]. So of
    the rules matching [package:a/built] both are in the returned
    list. *)
Lemma several_matching_rules_are_returned :
  RuleSet_wf shared_ruleset
  /\ needed_to_build (in_list_order unit) shared_ruleset
                     (example_label "deployment" "d" "deployed") true false
     = Some (Ok shared_answer)
  /\ needed shared_ruleset
            (targets_match shared_ruleset
                           (example_label "deployment" "d" "deployed") false)
            (example_label "package" "a" "built")
  /\ ~ one_matching_rule_in shared_ruleset
                            (example_label "package" "a" "built")
                            shared_answer.
Proof.
  split; [reflexivity|]. split; [vm_compute; reflexivity|]. split.
  - apply (needed_dep _ _ (example_label "deployment" "d" "deployed")).
    + apply needed_target. reflexivity.
    + eexists _, _. split; [left; reflexivity|].
      split; [left; reflexivity | reflexivity].
  - intros H.
    specialize (H (mkRule (example_label "package" "*" "built") None [])
                  (mkRule (example_label "package" "a" "*") None [])).
    assert (E : mkRule (A := unit) (example_label "package" "*" "built")
                       None []
                = mkRule (example_label "package" "a" "*") None []).
    { apply H.
      - left. reflexivity.
      - right. left. reflexivity.
      - right. left. reflexivity.
      - left. reflexivity. }
    discriminate E.
Qed.

(** C9, amended. When [needed_to_build] succeeds on a rule set as
    [RuleSet.add] builds it, the labels it marked ready,
    in the order of marking, stand in one-to-one correspondence with the
    rules returned: no label is marked twice, every first target is among
    them, and the rule at the position of a label is one rule only, the
    last that the loop over the rules matching that label comes to.
    Before a label is marked, every dependency of every rule that matches
    it has been marked. *)
Theorem one_rule_per_satisfied_target {A : Type} (it : iteration A)
        (ruleset : RuleSet A) (target_ : Label) (useTags useMatch : bool)
        (rl : list (Rule A)) :
  RuleSet_wf ruleset ->
  needed_to_build it ruleset target_ useTags useMatch = Some (Ok rl) ->
  exists satisfied : list Label,
    length satisfied = length rl
    /\ List.NoDup (List.map Label_as_tuple satisfied)
    /\ (forall t, In t (targets_match ruleset target_ useMatch) ->
                  label_in t satisfied = true)
    /\ forall i tgt,
        satisfied !! i = Some tgt ->
        exists r,
          rl !! i = Some r
          /\ last (iter_rules it (rules_for_target ruleset tgt useTags true))
             = Some r
          /\ In r (rules_for_target ruleset tgt useTags true)
          /\ forall r' d,
              In r' (rules_for_target ruleset tgt useTags true) ->
              In d (deps r') ->
              exists j tj, j < i /\ satisfied !! j = Some tj
                           /\ Label_eqb tj d = true.
Proof.
  intros _ H.
  destruct (needed_to_build_order it ruleset target_ useTags useMatch rl H)
    as (B & HB & Hcover & _).
  exists B. split; [now apply (build_order_length it ruleset)|].
  split; [now apply (build_order_distinct it ruleset B rl)|].
  split.
  { intros t Ht. apply label_in_kin, Hcover. now apply kin_In. }
  intros i tgt Hi.
  destruct (build_order_lookup it ruleset B rl HB i tgt Hi)
    as (r & Hr & Hc & Hdeps).
  exists r. rewrite rules_for_target_useTags.
  split; [exact Hr|]. split; [exact Hc|].
  split; [now apply (chosen_rule_In it)|].
  intros r' d Hr' Hd.
  destruct (Hdeps d (depends_on_intro ruleset tgt d r' Hr' Hd))
    as (j & tj & Hj & Htj & Ek).
  exists j, tj. repeat split; auto. now apply Label_eqb_tuple.
Qed.

Lemma one_rule_per_satisfied_target_witness :
  exists satisfied : list Label,
    length satisfied = length overlapping_answer
    /\ List.NoDup (List.map Label_as_tuple satisfied)
    /\ (forall t,
           In t (targets_match overlapping_ruleset
                               (example_label "package" "a" "built") false) ->
           label_in t satisfied = true)
    /\ forall i tgt,
        satisfied !! i = Some tgt ->
        exists r,
          overlapping_answer !! i = Some r
          /\ last (iter_rules (in_list_order unit)
                     (rules_for_target overlapping_ruleset tgt true true))
             = Some r
          /\ In r (rules_for_target overlapping_ruleset tgt true true)
          /\ forall r' d,
              In r' (rules_for_target overlapping_ruleset tgt true true) ->
              In d (deps r') ->
              exists j tj, j < i /\ satisfied !! j = Some tj
                           /\ Label_eqb tj d = true.
Proof.
  apply (one_rule_per_satisfied_target
           (in_list_order unit) overlapping_ruleset
           (example_label "package" "a" "built") true false
           overlapping_answer).
  - reflexivity.
  - vm_compute. reflexivity.
Defined.

(** C2, as the claim has it, at one input: [package:a/built] needs
    [checkout:b/checked_out] and no rule matches that label, so a needed
    target is without a rule. The solver does not fail with the
    circular-or-incomplete error and its residual targets: it raises
    "Rule list is empty for target checkout:b/checked_out". *)
Lemma missing_rule_is_not_circular :
  ~ complete incomplete_ruleset
      (targets_match incomplete_ruleset
                     (example_label "package" "a" "built") false)
  /\ needed_to_build (in_list_order unit) incomplete_ruleset
                     (example_label "package" "a" "built") true false
     = Some (Raise (RuleListEmpty
                      (example_label "checkout" "b" "checked_out")))
  /\ forall building T rl rs,
      needed_to_build (in_list_order unit) incomplete_ruleset
                      (example_label "package" "a" "built") true false
      <> Some (Raise (CircularOrIncomplete building T rl rs)).
Proof.
  split; [|split].
  - intros H.
    apply (H (example_label "checkout" "b" "checked_out")); [|reflexivity].
    apply (needed_dep _ _ (example_label "package" "a" "built")).
    + apply needed_target. reflexivity.
    + eexists _, _. split; [left; reflexivity|].
      split; [left; reflexivity | reflexivity].
  - vm_compute. reflexivity.
  - intros building T rl rs H. vm_compute in H. discriminate.
Qed.

(** C2, amended. On a rule set as [RuleSet.add] builds it,
    [needed_to_build] always returns, and:
    - if every needed label has a matching rule and no needed label
      depends on itself, it succeeds;
    - if some needed label has no matching rule, it fails with the error
      "Rule list is empty for target", for a needed label without a
      matching rule;
    - if every needed label has a matching rule and some needed label
      depends on itself, it fails with the circular-or-incomplete error,
      which reports the query, a non-empty residual set of needed labels
      none of which is satisfied, and the rules appended so far, in
      build order. *)
Theorem solver_completeness_or_failure {A : Type} (it : iteration A)
        (ruleset : RuleSet A) (target_ : Label) (useTags useMatch : bool) :
  RuleSet_wf ruleset ->
  exists res,
    needed_to_build it ruleset target_ useTags useMatch = Some res
    /\ (complete ruleset (targets_match ruleset target_ useMatch) ->
        acyclic ruleset (targets_match ruleset target_ useMatch) ->
        exists rl, res = Ok rl)
    /\ ((exists t, needed ruleset (targets_match ruleset target_ useMatch) t
                   /\ matching_rules ruleset t = []) ->
        exists t, res = Raise (RuleListEmpty t)
                  /\ needed ruleset (targets_match ruleset target_ useMatch) t
                  /\ matching_rules ruleset t = [])
    /\ (complete ruleset (targets_match ruleset target_ useMatch) ->
        (exists t, needed ruleset (targets_match ruleset target_ useMatch) t
                   /\ chain ruleset t t) ->
        exists T rl,
          res = Raise (CircularOrIncomplete target_ T rl ruleset)
          /\ T <> []
          /\ exists satisfied,
              build_order it ruleset satisfied rl
              /\ forall t, In t T ->
                           needed ruleset
                                  (targets_match ruleset target_ useMatch) t
                           /\ label_in t satisfied = false).
Proof.
  intros _.
  destruct (needed_to_build_outcome it ruleset target_ useTags useMatch)
    as (res & Hres & Hout).
  set (T0 := targets_match ruleset target_ useMatch) in *.
  exists res. split; [exact Hres|]. split; [|split].
  - (* complete and acyclic *)
    intros Hcomplete Hacyclic.
    destruct res as [rl | [t | building T rl rs | l]]; cbn [outcome] in Hout.
    + eauto.
    + destruct Hout as [Hn Hm]. now apply Hcomplete in Hn.
    + destruct Hout as (_ & _ & Hne & B & _ & _ & _ & HT). exfalso.
      destruct (closed_has_cycle ruleset T Hne) as (t & Ht & Hc).
      { intros t Ht. destruct (HT t Ht) as (_ & _ & _ & (d & Hd & _ & HdT) & _).
        eauto. }
      apply (Hacyclic t); [|exact Hc]. now apply HT.
    + contradiction.
  - (* a needed label without a rule *)
    intros (t0 & Hn0 & Hm0).
    destruct res as [rl | [t | building T rl rs | l]]; cbn [outcome] in Hout.
    + destruct Hout as (B & HB & Hcover & _). exfalso.
      apply (build_order_closed it ruleset B rl t0 HB); [|exact Hm0].
      now apply (build_order_needed it ruleset B rl T0).
    + destruct Hout as [Hn Hm]. eauto.
    + destruct Hout as (_ & _ & _ & B & HB & Hcover & _ & HT). exfalso.
      assert (Hall : forall x, needed ruleset T0 x -> kin x T \/ kin x B).
      { intros x Hx. induction Hx as [x Hx | x d Hx IH Hd].
        - apply Hcover. now apply label_in_kin.
        - destruct IH as [IH | IH].
          + destruct (HT x IH) as (_ & _ & _ & _ & Hcl).
            destruct (Hcl d Hd); auto.
          + right. now apply (build_order_closed it ruleset B rl x HB IH). }
      destruct (Hall t0 Hn0) as [H | H].
      * now apply (HT t0 H).
      * now apply (build_order_closed it ruleset B rl t0 HB H).
    + contradiction.
  - (* complete, with a cycle *)
    intros Hcomplete (t0 & Hn0 & Hc0).
    destruct res as [rl | [t | building T rl rs | l]]; cbn [outcome] in Hout.
    + destruct Hout as (B & HB & Hcover & _). exfalso.
      assert (Ht0 : kin t0 B)
        by now apply (build_order_needed it ruleset B rl T0).
      destruct (build_order_chain it ruleset B rl t0 t0 HB Ht0 Hc0). lia.
    + destruct Hout as [Hn Hm]. now apply Hcomplete in Hn.
    + destruct Hout as (-> & -> & Hne & B & HB & _ & _ & HT).
      exists T, rl. split; [reflexivity|]. split; [exact Hne|].
      exists B. split; [exact HB|].
      intros t Ht. apply kin_In in Ht.
      destruct (HT t Ht) as (Hn & HnB & _). split; [exact Hn|].
      now apply label_in_not_kin.
    + contradiction.
Qed.

Lemma solver_completeness_or_failure_witness :
  exists res,
    needed_to_build (in_list_order unit) circular_ruleset
                    (example_label "package" "a" "built") true false
    = Some res
    /\ (complete circular_ruleset
                 (targets_match circular_ruleset
                                (example_label "package" "a" "built") false) ->
        acyclic circular_ruleset
                (targets_match circular_ruleset
                               (example_label "package" "a" "built") false) ->
        exists rl, res = Ok rl)
    /\ ((exists t,
            needed circular_ruleset
                   (targets_match circular_ruleset
                                  (example_label "package" "a" "built") false) t
            /\ matching_rules circular_ruleset t = []) ->
        exists t,
          res = Raise (RuleListEmpty t)
          /\ needed circular_ruleset
                    (targets_match circular_ruleset
                                   (example_label "package" "a" "built") false) t
          /\ matching_rules circular_ruleset t = [])
    /\ (complete circular_ruleset
                 (targets_match circular_ruleset
                                (example_label "package" "a" "built") false) ->
        (exists t,
            needed circular_ruleset
                   (targets_match circular_ruleset
                                  (example_label "package" "a" "built") false) t
            /\ chain circular_ruleset t t) ->
        exists T rl,
          res = Raise (CircularOrIncomplete
                         (example_label "package" "a" "built") T rl
                         circular_ruleset)
          /\ T <> []
          /\ exists satisfied,
              build_order (in_list_order unit) circular_ruleset satisfied rl
              /\ forall t,
                  In t T ->
                  needed circular_ruleset
                         (targets_match circular_ruleset
                                        (example_label "package" "a" "built")
                                        false) t
                  /\ label_in t satisfied = false).
Proof.
  apply (solver_completeness_or_failure
           (in_list_order unit) circular_ruleset
           (example_label "package" "a" "built") true false).
  reflexivity.
Defined.

(** The three cases of the theorem above do occur. *)
Example solver_succeeds :
  needed_to_build (in_list_order unit) wildcard_ruleset
                  (example_label "package" "a" "built") true false
  = Some (Ok wildcard_answer).
Proof. vm_compute. reflexivity. Qed.

Example solver_reports_a_cycle :
  needed_to_build (in_list_order unit) circular_ruleset
                  (example_label "package" "a" "built") true false
  = Some (Raise (CircularOrIncomplete
                   (example_label "package" "a" "built")
                   [example_label "package" "b" "built";
                    example_label "package" "a" "built"]
                   [] circular_ruleset)).
Proof. vm_compute. reflexivity. Qed.

(* ================================================================== *)
(** * [required_by] returns                                            *)
(* ================================================================== *)

Lemma fold_set_add_spec {X : Type} (f : X -> Label) (keep : X -> bool)
      (xs : list X) (acc : list Label) :
  let out := fold_left
               (fun s x => if keep x then set_add (f x) s else s) xs acc in
  (distinct acc -> distinct out)
  /\ (forall l, kin l acc -> kin l out)
  /\ (forall l, kin l out ->
                kin l acc
                \/ exists x, In x xs /\ keep x = true
                             /\ Label_as_tuple (f x) = Label_as_tuple l).
Proof.
  revert acc. induction xs as [|x xs IH]; intros acc; cbn [fold_left].
  - repeat split; auto.
  - destruct (IH (if keep x then set_add (f x) acc else acc))
      as (H1 & H2 & H3).
    split; [|split].
    + intros Hd. apply H1. destruct (keep x); [|exact Hd].
      now apply set_add_distinct.
    + intros l Hl. apply H2. destruct (keep x); [|exact Hl].
      apply set_add_kin. now left.
    + intros l Hl. destruct (H3 l Hl) as [H | (y & Hy & Hk & E)].
      * destruct (keep x) eqn:Ek; [|now left].
        apply set_add_kin in H as [H | E]; [now left|].
        right. exists x. repeat split; auto. now left.
      * right. exists y. repeat split; auto. now right.
Qed.

Lemma set_union_spec (s1 s2 : list Label) :
  (distinct s1 -> distinct (set_union s1 s2))
  /\ (forall l, kin l s1 -> kin l (set_union s1 s2))
  /\ (forall l, kin l (set_union s1 s2) -> kin l s1 \/ kin l s2)
  /\ (forall l, kin l s2 -> kin l (set_union s1 s2)).
Proof.
  unfold set_union. revert s1. induction s2 as [|x s2 IH]; intros s1.
  - cbn. repeat split; auto. intros l [].
  - cbn [fold_left]. destruct (IH (set_add x s1)) as (H1 & H2 & H3 & H4).
    repeat split.
    + intros Hd. now apply H1, set_add_distinct.
    + intros l Hl. apply H2, set_add_kin. now left.
    + intros l Hl. destruct (H3 l Hl) as [H | H].
      * apply set_add_kin in H as [H | E]; [now left|].
        right. apply kin_cons. left. now symmetry.
      * right. apply kin_cons. now right.
    + intros l Hl. apply kin_cons in Hl as [E | Hl]; [|now apply H4].
      apply H2, set_add_kin. right. now symmetry.
Qed.

Section RequiredBy.
Context {A : Type}.
Variable it : iteration A.
Variable ruleset : RuleSet A.
Variable useTags useMatch : bool.

(** The targets of the rules of the rule set. *)
Let rule_targets : list Label := List.map (fun kv => target (snd kv)) ruleset.

Lemma rules_for_target_In (label : Label) (uT uM : bool) (r : Rule A) :
  In r (rules_for_target ruleset label uT uM) -> In r (List.map snd ruleset).
Proof.
  unfold rules_for_target. destruct uM; [|destruct uT].
  - rewrite !in_map_iff. intros (kv & E & H).
    apply filter_In in H as [H _]. eauto.
  - destruct (map_get ruleset label) as [v|] eqn:E; [|intros []].
    intros [<- | []]. apply map_get_Some in E as (k & Hin & _).
    apply in_map_iff. exists (k, v). auto.
  - rewrite !in_map_iff. intros (kv & E & H).
    apply filter_In in H as [H _]. eauto.
Qed.

Lemma rule_target_kin (r : Rule A) :
  In r (List.map snd ruleset) -> kin (target r) rule_targets.
Proof.
  intros H. apply in_map_iff in H as (kv & <- & H).
  apply kin_In. subst rule_targets. apply in_map_iff. eauto.
Qed.

(** What a round adds is new, without repetition, and made of targets
    of rules. *)
Lemma required_by_extra_spec (depends : list Label) :
  let extra := required_by_extra it ruleset useTags useMatch depends in
  distinct extra
  /\ forall l, kin l extra -> ~ kin l depends /\ kin l rule_targets.
Proof.
  unfold required_by_extra.
  assert (Hgen : forall ds acc,
             distinct acc ->
             (forall l, kin l acc -> ~ kin l depends /\ kin l rule_targets) ->
             let out :=
               fold_left
                 (fun extra dep =>
                    fold_left
                      (fun extra rule =>
                         if negb (label_in (target rule) depends)
                         then set_add (target rule) extra else extra)
                      (iter_rules it
                         (rules_which_depend_on it ruleset dep useTags useMatch))
                      extra)
                 ds acc in
             distinct out
             /\ forall l, kin l out -> ~ kin l depends /\ kin l rule_targets).
  { induction ds as [|d ds IH]; intros acc Hd Hacc; [now split|].
    cbn [fold_left]. apply IH.
    - now apply (fold_set_add_spec (@target A)
                   (fun rule => negb (label_in (target rule) depends))).
    - intros l Hl.
      apply (fold_set_add_spec (@target A)
               (fun rule => negb (label_in (target rule) depends)))
        in Hl as [Hl | (r & Hr & Hk & E)]; [now apply Hacc|].
      apply negb_true_iff, label_in_not_kin in Hk. split.
      + intros H. apply Hk. now apply (kin_eq l (target r)).
      + apply (kin_eq (target r) l _ E). apply rule_target_kin.
        apply (proj1 (In_iter_rules it _ _)) in Hr.
        unfold rules_which_depend_on in Hr.
        now apply filter_In in Hr as [Hr _]. }
  apply Hgen; [apply distinct_nil|]. intros l [].
Qed.

(** The loop ends within the rounds allowed. *)
Lemma required_by_loop_returns (fuel : nat) :
  forall depends,
    distinct depends ->
    (forall l, kin l depends -> kin l rule_targets) ->
    length ruleset < fuel + length depends ->
    exists out,
      required_by_loop fuel it ruleset useTags useMatch depends = Some out.
Proof.
  assert (Hlen : length rule_targets = length ruleset)
    by (subst rule_targets; apply length_map).
  induction fuel as [|fuel IH]; intros depends Hd Hsub Hfuel.
  - exfalso. pose proof (distinct_length depends rule_targets Hd Hsub). lia.
  - cbn [required_by_loop].
    destruct (required_by_extra_spec depends) as [Hed Hex].
    set (extra := required_by_extra it ruleset useTags useMatch depends) in *.
    destruct (Nat.ltb 0 (length extra)) eqn:E; [|eauto].
    destruct (set_union_spec depends extra) as (U1 & U2 & U3 & U4).
    apply IH.
    + now apply U1.
    + intros l Hl. destruct (U3 l Hl) as [H | H]; [now apply Hsub|].
      now apply Hex.
    + apply Nat.ltb_lt in E.
      destruct extra as [|x extra'] eqn:Ex; [simpl in E; lia|].
      assert (Hx : kin x (x :: extra')) by (apply kin_cons; now left).
      assert (length (depends ++ [x])
              <= length (set_union depends (x :: extra'))).
      { apply distinct_length.
        - apply distinct_snoc; [exact Hd|]. now apply Hex.
        - intros l Hl. apply kin_app in Hl as [Hl | Hl]; [now apply U2|].
          apply kin_cons in Hl as [Ek | []].
          apply (kin_eq x l _ Ek). now apply U4. }
      rewrite length_app in H. cbn [length] in H. lia.
Qed.

(** [required_by] returns: the rounds allowed are never used up. *)
Lemma required_by_returns (label : Label) :
  exists res, required_by it ruleset label useTags useMatch = Some res.
Proof.
  unfold required_by.
  destruct (Nat.eqb _ 0); [eauto|].
  set (rules := iter_rules it (rules_for_target ruleset label true useMatch)).
  destruct (required_by_loop_returns (S (length ruleset))
              (fold_left (fun s r => set_add (target r) s) rules []))
    as (out & ->); [| | lia | eauto].
  - now apply (fold_set_add_spec (@target A) (fun _ => true)), distinct_nil.
  - intros l Hl.
    apply (fold_set_add_spec (@target A) (fun _ => true))
      in Hl as [[] | (r & Hr & _ & E)].
    apply (kin_eq (target r) l _ E). apply rule_target_kin.
    apply (proj1 (In_iter_rules it _ _)) in Hr.
    now apply rules_for_target_In in Hr.
Qed.
End RequiredBy.

(* ================================================================== *)
(** * Commands: the required tag                                       *)
(* ================================================================== *)

(** A required tag that is set replaces the tag and nothing else. *)
Lemma force_required_tag_tuple (t : string) (label : Label) :
  t <> "" ->
  Label_as_tuple (force_required_tag (Some t) label)
  = (type label, domain label, name label, role label, t).
Proof.
  intros Ht. unfold force_required_tag. cbn [str_true].
  destruct (String.eqb_spec t ""); [contradiction|]. cbn [negb andb].
  destruct (String.eqb_spec (tag label) t) as [<- | Hne]; reflexivity.
Qed.

Lemma result_bind_Ok {E X Y : Type} (f : X -> result E Y)
      (x : result E X) (y : Y) :
  mbind f x = Ok y -> exists a, x = Ok a /\ f a = Ok y.
Proof. destruct x as [a|e]; [eauto | discriminate]. Qed.

Lemma set_union_kin (x : Label) (s1 s2 : list Label) :
  kin x s1 -> kin x (set_union s1 s2).
Proof.
  unfold set_union. revert s1. induction s2 as [|y s2 IH]; intros s1 H;
    [exact H|].
  simpl. apply IH. apply set_add_kin. now left.
Qed.

Lemma add_rule_targets_kin {A : Type} (kind : string)
      (required_tag : option string) (rules : list (Rule A))
      (x : Label) (s : list Label) :
  kin x s -> kin x (add_rule_targets kind required_tag rules s).
Proof.
  unfold add_rule_targets. revert s.
  induction rules as [|r rules IH]; intros s H; [exact H|].
  simpl. apply IH. destruct (String.eqb _ _); [|exact H].
  apply set_add_kin. now left.
Qed.

Lemma In_enumerate_from {X : Type} (x : X) (l : list X) :
  forall start,
    In x l -> exists index, In (index, x) (enumerate_from start l).
Proof.
  induction l as [|y l IH]; intros start; [intros []|].
  cbn [enumerate_from]. intros [-> | H].
  - exists start. now left.
  - destruct (IH (S start) H) as (index & Hin). exists index. now right.
Qed.

Lemma In_enumerate {X : Type} (x : X) (l : list X) :
  In x l -> exists index, In (index, x) (enumerate l).
Proof. apply In_enumerate_from. Qed.

Lemma enumerate_from_In {X : Type} (index : nat) (x : X) (l : list X) :
  forall start, In (index, x) (enumerate_from start l) -> In x l.
Proof.
  induction l as [|y l IH]; intros start; [intros []|].
  cbn [enumerate_from]. intros [[= _ ->] | H]; [now left|].
  right. now apply (IH (S start)).
Qed.

Lemma enumerate_In {X : Type} (index : nat) (x : X) (l : list X) :
  In (index, x) (enumerate l) -> In x l.
Proof. apply enumerate_from_In. Qed.

(** [cannot_cope] raises, one exception or the other. *)
Lemma cannot_cope_raises {A X : Type} (args : list string) (index : nat)
      (label : Label) (x : X) :
  cannot_cope (A := A) args index label <> Ok x.
Proof. unfold cannot_cope. now destruct (nth_error args index). Qed.

Section CommandFacts.
Context {A : Type}.
Variable LabelType : LabelType_t.
Variable it : iteration A.
Variable invocation : Invocation A.

(** The loops of [depend.py] end: a command never sees them out of
    passes. *)
Lemma needed_to_build_finished (rs : RuleSet A) (label : Label)
      (useTags useMatch : bool) :
  from_depend (needed_to_build it rs label useTags useMatch)
  <> Raise Unfinished.
Proof.
  destruct (needed_to_build_outcome it rs label useTags useMatch)
    as (res & -> & _).
  destruct res; discriminate.
Qed.

Lemma required_by_finished (rs : RuleSet A) (label : Label)
      (useTags useMatch : bool) :
  from_depend (required_by it rs label useTags useMatch)
  <> Raise Unfinished.
Proof.
  destruct (required_by_returns it rs useTags useMatch label) as (res & ->).
  destruct res; discriminate.
Qed.

(** The first loop: what an argument other than [_all] contributes. *)
Lemma initial_list_of_In (default_type : string) (all_ : list Label)
      (args : list string) (initial : list Label) :
  initial_list_of invocation default_type all_ args = Ok initial ->
  forall word labels label,
    In word args -> word <> "_all" ->
    label_from_fragment invocation word default_type = Ok labels ->
    In label labels -> target_label_exists invocation label = true ->
    In label initial.
Proof.
  unfold initial_list_of.
  set (body := fun (initial_list : list Label) (word : string) => _).
  assert (Hgen : forall args acc out,
             for_each body args acc = Ok out ->
             (forall x, In x acc -> In x out)
             /\ forall word labels label,
                 In word args -> word <> "_all" ->
                 label_from_fragment invocation word default_type = Ok labels ->
                 In label labels ->
                 target_label_exists invocation label = true ->
                 In label out).
  { clear args initial.
    induction args as [|w args IH]; intros acc out H.
    - simpl in H. injection H as <-. split; [auto|]. intros ? ? ? [].
    - rewrite for_each_cons in H.
      destruct (body acc w) as [acc'|e] eqn:Eb; [|discriminate].
      destruct (IH acc' out H) as [Hmono Hrest].
      assert (Hacc : forall x, In x acc -> In x acc').
      { intros x Hx. subst body. cbn beta in Eb.
        destruct (String.eqb w "_all").
        - injection Eb as <-. apply in_app_iff. now left.
        - apply result_bind_Ok in Eb as (ls & _ & Eb).
          destruct (Nat.eqb _ 0); [discriminate|].
          injection Eb as <-. apply in_app_iff. now left. }
      split; [auto|].
      intros word labels label [<- | Hin] Hne Hl Hlab Hex;
        [|now apply (Hrest word labels label)].
      apply Hmono. subst body. cbn beta in Eb.
      destruct (String.eqb_spec w "_all"); [contradiction|].
      apply result_bind_Ok in Eb as (ls & Els & Eb).
      rewrite Hl in Els. injection Els as <-.
      destruct (Nat.eqb _ 0); [discriminate|].
      injection Eb as <-. apply in_app_iff. right.
      apply filter_In. auto. }
  intros H. now apply (Hgen args [] initial H).
Qed.

(** The second loop of both commands: a label of the kind of the
    command goes into the result set under the required tag. *)
Lemma second_loop_forces
      (body : list Label -> nat * Label ->
              result (command_error A) (list Label))
      (kind : string) (required_tag : option string) :
  (forall acc index label out,
      body acc (index, label) = Ok out ->
      (forall x, kin x acc -> kin x out)
      /\ (type label = kind ->
          kin (force_required_tag required_tag label) out)) ->
  forall initial acc out,
    for_each body initial acc = Ok out ->
    (forall x, kin x acc -> kin x out)
    /\ forall index label,
        In (index, label) initial -> type label = kind ->
        kin (force_required_tag required_tag label) out.
Proof.
  intros Hbody. induction initial as [|[i l] initial IH]; intros acc out H.
  - simpl in H. injection H as <-. split; [auto|]. intros ? ? [].
  - rewrite for_each_cons in H.
    destruct (body acc (i, l)) as [acc'|e] eqn:Eb; [|discriminate].
    destruct (Hbody acc i l acc' Eb) as [Hm1 Hl].
    destruct (IH acc' out H) as [Hm2 Hrest].
    split; [auto|].
    intros index label [[= <- <-] | Hin] Hk; [auto | now apply (Hrest index)].
Qed.

(** The second loop on labels of the kind of the command only: it
    goes through, and adds them under the required tag. *)
Lemma second_loop_own_kind
      (body : list Label -> nat * Label ->
              result (command_error A) (list Label))
      (kind : string) (required_tag : option string) :
  (forall acc index label,
      type label = kind ->
      body acc (index, label)
      = Ok (set_add (force_required_tag required_tag label) acc)) ->
  forall initial acc,
    (forall index label, In (index, label) initial -> type label = kind) ->
    exists out,
      for_each body initial acc = Ok out
      /\ forall l, In l out ->
                   In l acc
                   \/ exists index label,
                       In (index, label) initial
                       /\ l = force_required_tag required_tag label.
Proof.
  intros Hbody. induction initial as [|[i l0] initial IH]; intros acc Hk.
  - exists acc. split; [reflexivity | auto].
  - rewrite for_each_cons, (Hbody acc i l0) by (apply (Hk i); now left).
    cbn [mbind result_bind].
    destruct (IH (set_add (force_required_tag required_tag l0) acc))
      as (out & E & Hout).
    { intros index label Hin. apply (Hk index). now right. }
    exists out. split; [exact E|].
    intros l Hl. apply Hout in Hl as [Hl | (index & label & Hin & ->)].
    + apply set_add_In in Hl as [Hl | ->]; [now left|].
      right. exists i, l0. split; [now left | reflexivity].
    + right. exists index, label. split; [now right | reflexivity].
Qed.

Lemma decode_args_forces (c : category) (required_tag : option string)
      (args : list string) (result_ : list Label) :
  decode_args LabelType it invocation c required_tag args = Ok result_ ->
  exists initial,
    initial_list_of invocation (own_kind LabelType c)
                    (all_labels_of invocation c) args = Ok initial
    /\ forall label, In label initial ->
                     type label = own_kind LabelType c ->
                     kin (force_required_tag required_tag label) result_.
Proof.
  destruct c; cbn [decode_args own_kind all_labels_of];
    unfold CheckoutCommand_decode_args, PackageCommand_decode_args;
    intros H;
    apply result_bind_Ok in H as (initial & Ei & H);
    apply result_bind_Ok in H as (rs & Ef & H);
    injection H as <-;
    (exists initial; split; [exact Ei|]);
    intros label Hin Hk;
    apply In_enumerate in Hin as (index & Hin);
    (apply (kin_perm _ rs); [apply Permutation_sym, iter_labels_perm|]).
  - refine (proj2 (second_loop_forces _ (Checkout LabelType)
                     required_tag _ (enumerate initial) [] rs Ef)
                  index label Hin Hk).
    clear. intros acc index label out Hb. cbn beta iota in Hb.
    destruct (String.eqb_spec (type label) (Checkout LabelType)) as [E | E].
    + injection Hb as <-. split.
      * intros x Hx. apply set_add_kin. now left.
      * intros _. apply set_add_kin. now right.
    + split; [|contradiction].
      destruct (_ || _); [|now apply cannot_cope_raises in Hb].
      apply result_bind_Ok in Hb as (rules & _ & Hb).
      injection Hb as <-.
      intros x Hx. now apply add_rule_targets_kin.
  - refine (proj2 (second_loop_forces _ (Package LabelType)
                     required_tag _ (enumerate initial) [] rs Ef)
                  index label Hin Hk).
    clear. intros acc index label out Hb. cbn beta iota in Hb.
    destruct (String.eqb_spec (type label) (Package LabelType)) as [E | E].
    + injection Hb as <-. split.
      * intros x Hx. apply set_add_kin. now left.
      * intros _. apply set_add_kin. now right.
    + split; [|contradiction].
      destruct (String.eqb _ _).
      * apply result_bind_Ok in Hb as (more & _ & Hb).
        injection Hb as <-.
        intros x Hx. now apply set_union_kin.
      * destruct (str_in _ _); [|now apply cannot_cope_raises in Hb].
        apply result_bind_Ok in Hb as (rules & _ & Hb).
        injection Hb as <-.
        intros x Hx. now apply add_rule_targets_kin.
Qed.

(** Arguments that stand for labels of the kind of the command only:
    [decode_args] returns, and returns these labels under the
    required tag. *)
Lemma decode_args_own_kind (c : category) (required_tag : option string)
      (args : list string) (initial : list Label) :
  initial_list_of invocation (own_kind LabelType c)
                  (all_labels_of invocation c) args = Ok initial ->
  (forall label, In label initial -> type label = own_kind LabelType c) ->
  exists result_,
    decode_args LabelType it invocation c required_tag args = Ok result_
    /\ forall l, In l result_ ->
                 exists label,
                   In label initial
                   /\ l = force_required_tag required_tag label.
Proof.
  intros Ei Hk.
  destruct c; cbn [decode_args own_kind all_labels_of] in *;
    unfold CheckoutCommand_decode_args, PackageCommand_decode_args;
    rewrite Ei; cbn [mbind result_bind].
  - match goal with |- context [for_each ?b _ _] => set (body := b) end.
    assert (Hbody : forall acc index label,
               type label = Checkout LabelType ->
               body acc (index, label)
               = Ok (set_add (force_required_tag required_tag label) acc)).
    { intros acc index label E. subst body. cbn beta iota.
      now rewrite E, String.eqb_refl. }
    destruct (second_loop_own_kind body _ required_tag Hbody
                                   (enumerate initial) [])
      as (out & E & Hout).
    { intros index label Hin. apply Hk. now apply enumerate_In in Hin. }
    rewrite E. cbn [mbind result_bind]. eexists. split; [reflexivity|].
    intros l Hl. apply (proj1 (In_iter_labels it _ _)) in Hl.
    apply Hout in Hl as [[] | (index & label & Hin & ->)].
    apply enumerate_In in Hin. eauto.
  - match goal with |- context [for_each ?b _ _] => set (body := b) end.
    assert (Hbody : forall acc index label,
               type label = Package LabelType ->
               body acc (index, label)
               = Ok (set_add (force_required_tag required_tag label) acc)).
    { intros acc index label E. subst body. cbn beta iota.
      now rewrite E, String.eqb_refl. }
    destruct (second_loop_own_kind body _ required_tag Hbody
                                   (enumerate initial) [])
      as (out & E & Hout).
    { intros index label Hin. apply Hk. now apply enumerate_In in Hin. }
    rewrite E. cbn [mbind result_bind]. eexists. split; [reflexivity|].
    intros l Hl. apply (proj1 (In_iter_labels it _ _)) in Hl.
    apply Hout in Hl as [[] | (index & label & Hin & ->)].
    apply enumerate_In in Hin. eauto.
Qed.
End CommandFacts.

(** C7. For a checkout or a package command whose required tag is set:
    - whenever [decode_args] returns, every label of the command's own
      kind that an argument fragment stands for (and that is a target)
      is in the result with the required tag in place of its own,
      whatever tag the user wrote; kind, domain, name and role are the
      label's;
    - and [decode_args] does return when the arguments stand for labels
      of the command's own kind only: the result then holds each of
      these labels under the required tag, and nothing else. *)
Theorem required_tag_is_forced {A : Type} (LabelType : LabelType_t)
        (it : iteration A) (invocation : Invocation A) (c : category)
        (required_tag : string) (args : list string) :
  required_tag <> "" ->
  (forall result_ word labels label,
      decode_args LabelType it invocation c (Some required_tag) args
      = Ok result_ ->
      In word args -> word <> "_all" ->
      label_from_fragment invocation word (own_kind LabelType c)
      = Ok labels ->
      In label labels ->
      target_label_exists invocation label = true ->
      type label = own_kind LabelType c ->
      exists l,
        In l result_
        /\ Label_as_tuple l
           = (type label, domain label, name label, role label,
              required_tag))
  /\ (forall initial,
         initial_list_of invocation (own_kind LabelType c)
                         (all_labels_of invocation c) args = Ok initial ->
         (forall label, In label initial ->
                        type label = own_kind LabelType c) ->
         exists result_,
           decode_args LabelType it invocation c (Some required_tag) args
           = Ok result_
           /\ (forall label,
                  In label initial ->
                  exists l,
                    In l result_
                    /\ Label_as_tuple l
                       = (type label, domain label, name label, role label,
                          required_tag))
           /\ (forall l,
                  In l result_ ->
                  exists label,
                    In label initial
                    /\ Label_as_tuple l
                       = (type label, domain label, name label, role label,
                          required_tag))).
Proof.
  intros Ht. split.
  - intros result_ word labels label Hdec Hword Hne Hfrag Hlab Hex Hkind.
    destruct (decode_args_forces LabelType it invocation c
                (Some required_tag) args result_ Hdec)
      as (initial & Hi & Hforce).
    assert (Hin : In label initial)
      by apply (initial_list_of_In invocation _ _ args initial Hi
                  word labels label Hword Hne Hfrag Hlab Hex).
    apply Hforce, kin_inv in Hin as (l & Hl & Ek); [|exact Hkind].
    exists l. split; [exact Hl|].
    rewrite Ek. now apply force_required_tag_tuple.
  - intros initial Hi Hkind.
    destruct (decode_args_own_kind LabelType it invocation c
                (Some required_tag) args initial Hi Hkind)
      as (result_ & Hdec & Hfrom).
    exists result_. split; [exact Hdec|]. split.
    + intros label Hin.
      destruct (decode_args_forces LabelType it invocation c
                  (Some required_tag) args result_ Hdec)
        as (initial' & Hi' & Hforce).
      rewrite Hi in Hi'. injection Hi' as <-.
      apply Hforce, kin_inv in Hin as (l & Hl & Ek); [|now apply Hkind].
      exists l. split; [exact Hl|].
      rewrite Ek. now apply force_required_tag_tuple.
    + intros l Hl. apply Hfrom in Hl as (label & Hin & ->).
      exists label. split; [exact Hin|].
      now apply force_required_tag_tuple.
Qed.

Lemma required_tag_is_forced_witness :
  ((exists l,
       In l [example_label "checkout" "b" "checked_out"]
       /\ Label_as_tuple l = ("checkout", None, "b", None, "checked_out"))
   /\ exists result_,
       decode_args example_LabelType (in_list_order unit) example_invocation
                   CAT_CHECKOUT (Some "checked_out") ["b"] = Ok result_
       /\ (forall label,
              In label [example_label "checkout" "b" "pulled"] ->
              exists l,
                In l result_
                /\ Label_as_tuple l
                   = (type label, domain label, name label, role label,
                      "checked_out"))
       /\ (forall l,
              In l result_ ->
              exists label,
                In label [example_label "checkout" "b" "pulled"]
                /\ Label_as_tuple l
                   = (type label, domain label, name label, role label,
                      "checked_out")))
  /\ ((exists l,
          In l [example_label "package" "a" "postinstalled"]
          /\ Label_as_tuple l
             = ("package", None, "a", None, "postinstalled"))
      /\ exists result_,
          decode_args example_LabelType (in_list_order unit)
                      example_invocation CAT_PACKAGE (Some "postinstalled")
                      ["a"] = Ok result_
          /\ (forall label,
                 In label [example_label "package" "a" "pulled"] ->
                 exists l,
                   In l result_
                   /\ Label_as_tuple l
                      = (type label, domain label, name label, role label,
                         "postinstalled"))
          /\ (forall l,
                 In l result_ ->
                 exists label,
                   In label [example_label "package" "a" "pulled"]
                   /\ Label_as_tuple l
                      = (type label, domain label, name label, role label,
                         "postinstalled"))).
Proof.
  split.
  - destruct (required_tag_is_forced
                example_LabelType (in_list_order unit) example_invocation
                CAT_CHECKOUT "checked_out" ["b"]) as [Hforced Hreturns];
      [discriminate|].
    split.
    + apply (Hforced [example_label "checkout" "b" "checked_out"]
                     "b" [example_label "checkout" "b" "pulled"]
                     (example_label "checkout" "b" "pulled"));
        try reflexivity; try discriminate; now left.
    + apply (Hreturns [example_label "checkout" "b" "pulled"]);
        [reflexivity|].
      intros label [<- | []]. reflexivity.
  - destruct (required_tag_is_forced
                example_LabelType (in_list_order unit) example_invocation
                CAT_PACKAGE "postinstalled" ["a"]) as [Hforced Hreturns];
      [discriminate|].
    split.
    + apply (Hforced [example_label "package" "a" "postinstalled"]
                     "a" [example_label "package" "a" "pulled"]
                     (example_label "package" "a" "pulled"));
        try reflexivity; try discriminate; now left.
    + apply (Hreturns [example_label "package" "a" "pulled"]);
        [reflexivity|].
      intros label [<- | []]. reflexivity.
Defined.

(* ================================================================== *)
(** * Labels: what [__init__] accepts                                  *)
(* ================================================================== *)

Section Greedy.
Context {R : Type}.

(** With a continuation that takes whatever is left, the repetition
    ends where the class ends. *)
Lemma rep0_greedy (cls : ascii -> bool) (s : string)
      (k : string -> option R) :
  (forall s', is_Some (k s')) ->
  exists p rest,
    s = p +:+ rest /\ all_chars cls p = true /\ stops cls rest
    /\ Re.rep0 cls s k = k rest.
Proof.
  intros Hk. induction s as [|c s IH].
  - exists ""%string, ""%string. repeat split.
  - destruct IH as (p & rest & -> & Hp & Hs & E).
    cbn [Re.rep0]. destruct (cls c) eqn:Ec.
    + exists (String c p), rest. rewrite E.
      destruct (Hk rest) as [m Hm]. rewrite Hm.
      repeat split; auto. simpl. now rewrite Ec, Hp.
    + exists ""%string, (String c (p +:+ rest)). repeat split. exact Ec.
Qed.
End Greedy.

Lemma length_zero_empty (s : string) : String.length s = 0 -> s = ""%string.
Proof. destruct s; simpl; [reflexivity | discriminate]. Qed.

(** What [_check_value] lets through is a valid part. *)
Lemma Label_check_value_inv (what w : string) :
  Label_check_value what w = Ok tt -> valid_part w.
Proof.
  unfold Label_check_value, Re.re_match, label_part. cbn [Re.run].
  destruct w as [|c w]; [discriminate|].
  cbn [Re.rep1]. destruct (label_char c) eqn:Ec.
  - set (k := fun s' : string =>
                Some {| Re.m_end := String.length (String c w) - String.length s';
                        Re.m_groups := [] |}).
    destruct (rep0_greedy label_char w k) as (p & rest & -> & Hp & Hs & E).
    { intros s'. unfold k. eauto. }
    rewrite E. unfold k. cbn [Re.m_end].
    destruct (Nat.eqb_spec
                (String.length (String c (p +:+ rest)) - String.length rest)
                (String.length (String c (p +:+ rest)))) as [E'|]; [|discriminate].
    intros _. cbn [String.length] in E'. rewrite length_append in E'.
    assert (rest = ""%string) as -> by (apply length_zero_empty; lia).
    rewrite append_nil_r. right. split; [discriminate|].
    simpl. now rewrite Ec, Hp.
  - destruct (Ascii.eqb_spec "*" c) as [<-|]; [|discriminate].
    cbn [Re.m_end String.length].
    destruct (Nat.eqb_spec (S (String.length w) - String.length w)
                           (S (String.length w))) as [E'|]; [|discriminate].
    intros _. assert (w = ""%string) as -> by (apply length_zero_empty; lia).
    now left.
Qed.

Lemma check_optional_inv (what : string) (o : option string) :
  check_optional what o = Ok tt -> valid_optional_part o.
Proof. destruct o; simpl; [apply Label_check_value_inv | auto]. Qed.

Lemma result_unit_Ok {E : Type} (x : result E unit) (a : unit) :
  x = Ok a -> x = Ok tt.
Proof. now destruct a. Qed.

Lemma Label_init_inv ty nm rl tg tr sy dom l :
  Label_init ty nm rl tg tr sy dom = Ok l ->
  valid_part ty /\ valid_part nm /\ valid_optional_part rl
  /\ valid_part tg /\ valid_optional_part dom
  /\ l = mkLabel ty dom nm rl tg tr sy.
Proof.
  unfold Label_init. intros H.
  apply result_bind_Ok in H as (u1 & H1 & H).
  apply result_bind_Ok in H as (u2 & H2 & H).
  apply result_bind_Ok in H as (u3 & H3 & H).
  apply result_bind_Ok in H as (u4 & H4 & H).
  apply result_bind_Ok in H as (u5 & H5 & H).
  apply result_unit_Ok in H1, H2, H3, H4, H5.
  apply Label_check_value_inv in H1, H2, H4.
  apply check_optional_inv in H3, H5.
  injection H as <-. repeat split; auto.
Qed.

(** X1. [Label.__init__] makes a label exactly when the type, the name
    and the tag are valid parts (a non-empty word over
    [[A-Za-z0-9._+-]], or the wildcard alone) and so are the role and
    the domain when they are not [None]; the label then holds the
    arguments as given. In every other case it raises. *)
Theorem label_construction_validates
        (ty nm : string) (rl : option string) (tg : string)
        (tr sy : option bool) (dom : option string) (l : Label) :
  Label_init ty nm rl tg tr sy dom = Ok l
  <-> (valid_part ty /\ valid_part nm /\ valid_optional_part rl
       /\ valid_part tg /\ valid_optional_part dom
       /\ l = mkLabel ty dom nm rl tg tr sy).
Proof.
  split; [apply Label_init_inv|].
  intros (H1 & H2 & H3 & H4 & H5 & ->). now apply Label_init_valid.
Qed.

(* ================================================================== *)
(** * Labels: more on [match]                                          *)
(* ================================================================== *)

Lemma opt_eqb_sym (a b : option string) : opt_eqb a b = opt_eqb b a.
Proof. destruct a, b; simpl; auto using String.eqb_sym. Qed.

Lemma Label_match_sym (a b : Label) : Label_match a b = Label_match b a.
Proof.
  unfold Label_match.
  rewrite (String.eqb_sym (type a)), (String.eqb_sym (name a)),
    (String.eqb_sym (tag a)), (opt_eqb_sym (domain a)),
    (opt_eqb_sym (role a)).
  rewrite (orb_comm (is_star (type a))), (orb_comm (is_star (name a))),
    (orb_comm (is_star (tag a))), (orb_comm (is_star_opt (domain a))),
    (orb_comm (is_star_opt (role a))).
  reflexivity.
Qed.

(** X2. [match] does not depend on which of the two labels it is called
    on: [a.match(b)] and [b.match(a)] are the same score, or both
    [None]. *)
Theorem label_match_symmetric (a b : Label) :
  Label_match a b = Label_match b a.
Proof. apply Label_match_sym. Qed.

(** X3. [match] answers [None] exactly when, at one of the five
    positions (type, domain, name, role, tag), the two labels hold
    different parts neither of which is the wildcard. *)
Theorem label_match_fails_on_a_clash (a b : Label) :
  Label_match a b = None
  <-> existsb (fun xy => clash (fst xy) (snd xy))
              (combine (parts a) (parts b)) = true.
Proof.
  unfold Label_match, parts, match_block, clash.
  cbn [combine existsb fst snd opt_eqb is_star_opt mbind option_bind].
  destruct (String.eqb (type a) (type b)),
           (opt_eqb (domain a) (domain b)),
           (String.eqb (name a) (name b)),
           (opt_eqb (role a) (role b)),
           (String.eqb (tag a) (tag b));
    cbn [negb andb orb];
    destruct (is_star (type a) || is_star (type b)),
             (is_star_opt (domain a) || is_star_opt (domain b)),
             (is_star (name a) || is_star (name b)),
             (is_star_opt (role a) || is_star_opt (role b)),
             (is_star (tag a) || is_star (tag b));
    cbn; split; congruence.
Qed.

Lemma is_star_opt_false_l (x y : option string) :
  is_star_opt x = false -> is_star_opt y = false ->
  is_star_opt x || is_star_opt y = false.
Proof. now intros -> ->. Qed.

Lemma Label_match_definite (a b : Label) :
  definite a -> definite b -> is_Some (Label_match a b) ->
  Label_as_tuple a = Label_as_tuple b.
Proof.
  unfold definite, parts. cbn [forallb is_star_opt].
  rewrite !andb_true_iff, !negb_true_iff.
  intros (A1 & A2 & A3 & A4 & A5 & _) (B1 & B2 & B3 & B4 & B5 & _) H.
  unfold Label_as_tuple.
  unfold Label_match, match_block in H.
  rewrite A1, A3, A5, B1, B3, B5 in H.
  rewrite (is_star_opt_false_l _ _ A2 B2),
    (is_star_opt_false_l _ _ A4 B4) in H.
  cbn [orb] in H.
  destruct (String.eqb_spec (type a) (type b)) as [->|];
    [|now destruct H].
  destruct (opt_eqb (domain a) (domain b)) eqn:Ed; [|now destruct H].
  destruct (String.eqb_spec (name a) (name b)) as [->|];
    [|now destruct H].
  destruct (opt_eqb (role a) (role b)) eqn:Er; [|now destruct H].
  destruct (String.eqb_spec (tag a) (tag b)) as [->|];
    [|now destruct H].
  apply opt_eqb_eq in Ed, Er. now rewrite Ed, Er.
Qed.

Lemma Label_match_equal (a b : Label) :
  Label_as_tuple a = Label_as_tuple b -> Label_match a b = Some 0%Z.
Proof.
  intros E. rewrite (Label_match_key a a b a eq_refl (eq_sym E)).
  apply Label_match_refl.
Qed.

(** X4. Matching agrees with equality: labels that are equal (flags
    apart) match with score 0, and two labels without a wildcard part
    match only when they are equal. *)
Theorem match_agrees_with_equality (a b : Label) :
  (Label_eqb a b = true -> Label_match a b = Some 0%Z)
  /\ (definite a -> definite b ->
      is_Some (Label_match a b) -> Label_eqb a b = true).
Proof.
  split.
  - intros E. now apply Label_match_equal, Label_eqb_tuple.
  - intros Ha Hb H. now apply Label_eqb_tuple, Label_match_definite.
Qed.

(** X5. [match_without_tag] says whether the two labels become equal
    once both are given one and the same tag by [re_tag]. *)
Theorem match_without_tag_is_equality_after_re_tag
        (a b : Label) (t : string) :
  Label_match_without_tag a b = true
  <-> Label_eqb (Label_re_tag a t) (Label_re_tag b t) = true.
Proof.
  rewrite Label_eqb_tuple. unfold Label_match_without_tag, Label_as_tuple,
    Label_re_tag, Label_re_tag_with, Label_copy, set_tag, set_system,
    set_transient.
  cbn [type domain name role tag].
  rewrite !andb_true_iff, !String.eqb_eq, !opt_eqb_eq.
  split.
  - intros [[[-> ->] ->] ->]. reflexivity.
  - intros [= -> -> -> ->]. auto.
Qed.

(* ================================================================== *)
(** * Labels: the order of [__cmp__]                                   *)
(* ================================================================== *)

Lemma ascii_compare_trans (a b c : ascii) :
  Ascii.compare a b = Lt -> Ascii.compare b c = Lt -> Ascii.compare a c = Lt.
Proof.
  unfold Ascii.compare. rewrite !N.compare_lt_iff. lia.
Qed.

Lemma string_compare_trans (a : string) :
  forall b c,
    String.compare a b = Lt -> String.compare b c = Lt ->
    String.compare a c = Lt.
Proof.
  induction a as [|x a IH]; intros [|y b] [|z c]; simpl; try congruence.
  destruct (Ascii.compare x y) eqn:E1; try discriminate;
    destruct (Ascii.compare y z) eqn:E2; try discriminate; intros H1 H2.
  - apply Ascii.compare_eq_iff in E1, E2. subst.
    assert (Ascii.compare z z = Eq) as -> by apply N.compare_refl.
    now apply (IH b c).
  - apply Ascii.compare_eq_iff in E1. subst. now rewrite E2.
  - apply Ascii.compare_eq_iff in E2. subst. now rewrite E1.
  - now rewrite (ascii_compare_trans x y z E1 E2).
Qed.

Lemma cmp_str_trans (a b c : string) :
  cmp_str a b = Lt -> cmp_str b c = Lt -> cmp_str a c = Lt.
Proof. apply string_compare_trans. Qed.

Lemma cmp_opt_trans (a b c : option string) :
  cmp_opt a b = Lt -> cmp_opt b c = Lt -> cmp_opt a c = Lt.
Proof.
  destruct a, b, c; simpl; try congruence. apply string_compare_trans.
Qed.

Lemma lex_lt_trans (x y z : label_tuple) :
  lex_lt x y -> lex_lt y z -> lex_lt x z.
Proof.
  intros H1 H2. inversion H1; subst; inversion H2; subst;
    first [ now (apply lex_type; eauto using cmp_str_trans)
          | now (apply lex_domain; eauto using cmp_opt_trans)
          | now (apply lex_name; eauto using cmp_str_trans)
          | now (apply lex_role; eauto using cmp_opt_trans)
          | now (apply lex_tag; eauto using cmp_str_trans) ].
Qed.

Lemma Label_cmp_value (a b : Label) :
  Label_cmp a b
  = match cmp_tuple (Label_as_tuple a) (Label_as_tuple b) with
    | Lt => (-1)%Z
    | Eq => 0%Z
    | Gt => 1%Z
    end.
Proof.
  unfold Label_cmp, tuple_lt, tuple_gt.
  now destruct (cmp_tuple (Label_as_tuple a) (Label_as_tuple b)).
Qed.

(** X6. [__cmp__] is a total order on labels read through their tuples:
    it answers -1, 0 or 1; swapping the labels negates the answer; "less
    than" is transitive; and a label equal to another compares with any
    third as that other does. *)
Theorem label_order_is_total (a b c : Label) :
  (Label_cmp a b = (-1)%Z \/ Label_cmp a b = 0%Z \/ Label_cmp a b = 1%Z)
  /\ Label_cmp b a = (- Label_cmp a b)%Z
  /\ (Label_cmp a b = (-1)%Z -> Label_cmp b c = (-1)%Z ->
      Label_cmp a c = (-1)%Z)
  /\ (Label_cmp a b = 0%Z -> Label_cmp a c = Label_cmp b c).
Proof.
  rewrite !Label_cmp_value.
  rewrite (cmp_tuple_antisym (Label_as_tuple a) (Label_as_tuple b)).
  split; [|split; [|split]].
  - destruct (cmp_tuple (Label_as_tuple a) (Label_as_tuple b)); auto.
  - now destruct (cmp_tuple (Label_as_tuple a) (Label_as_tuple b)).
  - destruct (cmp_tuple (Label_as_tuple a) (Label_as_tuple b)) eqn:E1;
      try discriminate.
    destruct (cmp_tuple (Label_as_tuple b) (Label_as_tuple c)) eqn:E2;
      try discriminate.
    intros _ _. apply cmp_tuple_lt in E1, E2.
    pose proof (lex_lt_trans _ _ _ E1 E2) as E3.
    apply cmp_tuple_lt in E3. now rewrite E3.
  - destruct (cmp_tuple (Label_as_tuple a) (Label_as_tuple b)) eqn:E1;
      try discriminate.
    apply cmp_tuple_eq in E1. now rewrite E1.
Qed.

(* ================================================================== *)
(** * Labels: printing, then parsing                                   *)
(* ================================================================== *)

(** [__str__] reads the flags through their truth value only. *)
Lemma Label_str_flags kind dom nm rl tg (tr sy : option bool) :
  Label_str (mkLabel kind dom nm rl tg tr sy)
  = Label_str (mkLabel kind dom nm rl tg (Some (flag_true tr))
                       (Some (flag_true sy))).
Proof.
  unfold Label_str. cbn [type domain name role tag transient system].
  now destruct tr as [[]|], sy as [[]|].
Qed.

(** X7. Printing a label that [__init__] has made and parsing the text
    gives the label back: the same five parts, and each flag [True]
    where it was true and [False] where it was [False] or [None]. So a
    label built with boolean flags survives [from_string(str(l))]
    unchanged. *)
Theorem label_survives_print_then_parse
        (ty nm : string) (rl : option string) (tg : string)
        (tr sy : option bool) (dom : option string) (l : Label) :
  Label_init ty nm rl tg tr sy dom = Ok l ->
  Label_from_string (Label_str l)
  = Ok (mkLabel ty dom nm rl tg (Some (flag_true tr)) (Some (flag_true sy))).
Proof.
  intros H. apply Label_init_inv in H as (H1 & H2 & H3 & H4 & H5 & ->).
  rewrite Label_str_flags, Label_str_label_text by assumption.
  now apply Label_from_string_label_text.
Qed.

Lemma label_survives_print_then_parse_witness :
  Label_from_string
    (Label_str (mkLabel "package" (Some "arm.hello") "busybox"
                        (Some "rootfs") "installed" (Some true) (Some false)))
  = Ok (mkLabel "package" (Some "arm.hello") "busybox" (Some "rootfs")
                "installed" (Some true) (Some false)).
Proof.
  exact (label_survives_print_then_parse
           "package" "busybox" (Some "rootfs") "installed"
           (Some true) (Some false) (Some "arm.hello") _ eq_refl).
Defined.

(* ================================================================== *)
(** * Labels: the flags of a label string                              *)
(* ================================================================== *)

Lemma commits_named_word n cls w rest caps :
  w <> ""%string -> all_chars cls w = true -> stops cls rest ->
  commits (named n (Re.Rep1 cls)) (w +:+ rest) caps rest ((n, w) :: caps).
Proof.
  intros Hne Hw Hs R k x Hk. unfold named. cbn [Re.run].
  apply rep1_word; auto. cbn [Re.set_group].
  now rewrite consumed_append.
Qed.

(** The matcher on a bracketed, non-empty run of letters and digits. *)
Lemma commits_any_flags f caps :
  f <> ""%string -> all_chars flag_char f = true ->
  commits flags_re ("[" +:+ f +:+ "]") caps "" (("flags", f) :: caps).
Proof.
  intros Hne Hf. unfold flags_re.
  apply commits_opt, commits_unnamed.
  eapply commits_seq; [apply commits_lit|].
  eapply commits_seq;
    [apply commits_named_word; [exact Hne | exact Hf | reflexivity]|].
  apply (commits_lit "]" "").
Qed.

(** X8. In a label string the flags are a bracketed, non-empty run of
    letters and digits: the label parsed is transient exactly when [T]
    is among them and a system label exactly when [S] is; every other
    letter or digit, the order and the repetitions are ignored. *)
Theorem unknown_flags_are_ignored
        (kind : string) (dom : option string) (nm : string)
        (rl : option string) (tg f : string) :
  valid_part kind -> valid_optional_part dom -> valid_part nm ->
  valid_optional_part rl -> valid_part tg ->
  f <> ""%string -> all_chars flag_char f = true ->
  Label_from_string (label_text kind dom nm rl tg ("[" +:+ f +:+ "]"))
  = Ok (mkLabel kind dom nm rl tg (Some (str_contains "T" f))
                (Some (str_contains "S" f))).
Proof.
  intros Hk Hd Hn Hr Ht Hne Hf.
  pose proof (commits_up_to_tag kind (domain_text dom)
                (optional_group "domain" dom) nm (role_text rl)
                (optional_group "role" rl) tg flags_re ("[" +:+ f +:+ "]")
                "" _ Hk Hn Ht
                (fun rest caps => commits_domain dom nm rest caps Hd Hn)
                (stops_role_text rl)
                (fun rest caps => commits_role rl rest caps Hr)
                eq_refl
                (commits_any_flags f _ Hne Hf)) as Hm.
  unfold Label_from_string, Re.re_match.
  rewrite label_string_re_pieces, label_text_pieces.
  erewrite Hm by reflexivity.
  cbn [Re.m_end Re.m_groups String.length].
  rewrite Nat.sub_0_r, Nat.eqb_refl. cbn [negb].
  set (caps := ("flags", f) :: _).
  replace (Re.group caps "type") with (Some kind)
    by (subst caps; destruct rl, dom; reflexivity).
  replace (Re.group caps "domain") with dom
    by (subst caps; destruct rl, dom; reflexivity).
  replace (Re.group caps "name") with (Some nm)
    by (subst caps; destruct rl, dom; reflexivity).
  replace (Re.group caps "role") with rl
    by (subst caps; destruct rl, dom; reflexivity).
  replace (Re.group caps "tag") with (Some tg)
    by (subst caps; destruct rl, dom; reflexivity).
  replace (Re.group caps "flags") with (Some f) by reflexivity.
  assert (str_true (Some f) = true) as ->.
  { simpl. now destruct (String.eqb_spec f ""). }
  cbn [default]. now apply Label_init_valid.
Qed.

Lemma unknown_flags_are_ignored_witness :
  Label_from_string
    (label_text "package" None "busybox" (Some "firmware") "installed"
                ("[" +:+ "ABT" +:+ "]"))
  = Ok (mkLabel "package" None "busybox" (Some "firmware") "installed"
                (Some (str_contains "T" "ABT")) (Some (str_contains "S" "ABT"))).
Proof.
  apply (unknown_flags_are_ignored
           "package" None "busybox" (Some "firmware") "installed" "ABT");
    try (right; split; [discriminate | reflexivity]);
    try exact I; try discriminate; reflexivity.
Defined.

(* ================================================================== *)
(** * Rules: [add] and [merge]                                         *)
(* ================================================================== *)

Section RuleFacts.
Context {A : Type}.

Lemma Rule_add_old (r : Rule A) (l : Label) :
  label_in l (deps r) = true -> Rule_add r l = r.
Proof.
  intros H. unfold Rule_add.
  rewrite set_add_old by now apply label_in_kin. now destruct r.
Qed.

Lemma Rule_add_has (r : Rule A) (l : Label) :
  label_in l (deps (Rule_add r l)) = true.
Proof.
  apply label_in_kin. cbn [Rule_add deps]. apply set_add_kin. now right.
Qed.

Lemma label_in_key (l l' : Label) (s : list Label) :
  Label_eqb l l' = true -> label_in l s = label_in l' s.
Proof.
  intros E. apply Label_eqb_tuple in E.
  destruct (label_in l s) eqn:E1, (label_in l' s) eqn:E2; auto.
  - apply label_in_kin in E1. apply label_in_not_kin in E2.
    destruct E2. now apply (kin_eq l l').
  - apply label_in_kin in E2. apply label_in_not_kin in E1.
    destruct E1. now apply (kin_eq l' l).
Qed.

(** X9. [Rule.add] treats the dependencies as a set under the equality
    of labels, which ignores the flags: adding a label that is already
    there, or a second label equal to one just added, leaves the rule
    as it was, whatever the flags of the newcomer; and after [add] the
    label is among the dependencies. *)
Theorem rule_add_is_idempotent (r : Rule A) (l l' : Label) :
  label_in l (deps (Rule_add r l)) = true
  /\ (label_in l (deps r) = true -> Rule_add r l = r)
  /\ (Label_eqb l l' = true ->
      Rule_add (Rule_add r l) l' = Rule_add r l).
Proof.
  split; [apply Rule_add_has|]. split; [apply Rule_add_old|].
  intros E. apply Rule_add_old.
  rewrite <- (label_in_key l l' _ E). apply Rule_add_has.
Qed.

Lemma fold_Rule_add (ds : list Label) (r : Rule A) :
  fold_left Rule_add ds r
  = mkRule (target r) (obj r) (set_union (deps r) ds).
Proof.
  unfold set_union. revert r. induction ds as [|d ds IH]; intros r.
  - now destruct r.
  - cbn [fold_left]. now rewrite IH.
Qed.

Variable it : iteration A.

Lemma Rule_merge_deps (self other : Rule A) :
  deps (Rule_merge it self other)
  = set_union (deps self) (iter_labels it (deps other)).
Proof.
  unfold Rule_merge. rewrite fold_Rule_add. now destruct (obj other).
Qed.

Lemma Rule_merge_obj (self other : Rule A) :
  obj (Rule_merge it self other)
  = match obj other with Some o => Some o | None => obj self end.
Proof.
  unfold Rule_merge. rewrite fold_Rule_add. now destruct (obj other).
Qed.

Lemma Rule_merge_kin (self other : Rule A) (l : Label) :
  kin l (deps (Rule_merge it self other))
  <-> kin l (deps self) \/ kin l (deps other).
Proof.
  rewrite Rule_merge_deps.
  destruct (set_union_spec (deps self) (iter_labels it (deps other)))
    as (_ & U2 & U3 & U4).
  split.
  - intros H. destruct (U3 l H) as [H' | H']; [now left|]. right.
    apply (kin_perm l _ _ (iter_labels_perm it (deps other)) H').
  - intros [H | H]; [now apply U2|]. apply U4.
    apply (kin_perm l _ _ (Permutation_sym (iter_labels_perm it _)) H).
Qed.

(** X10. [Rule.merge] keeps the target, takes the object of the other
    rule unless that is [None], and leaves as dependencies the union
    of the two sets: a label is a dependency afterwards exactly when
    it was one of either rule; no dependency appears twice if none did
    before. This holds in whatever order the set of the other rule is
    walked. *)
Theorem rule_merge_is_union (self other : Rule A) :
  target (Rule_merge it self other) = target self
  /\ obj (Rule_merge it self other)
     = match obj other with Some o => Some o | None => obj self end
  /\ (forall l,
         label_in l (deps (Rule_merge it self other)) = true
         <-> label_in l (deps self) = true
             \/ label_in l (deps other) = true)
  /\ (List.NoDup (List.map Label_as_tuple (deps self)) ->
      List.NoDup (List.map Label_as_tuple
                           (deps (Rule_merge it self other)))).
Proof.
  split; [apply Rule_merge_target|]. split; [apply Rule_merge_obj|].
  split.
  - intros l. rewrite !label_in_kin. apply Rule_merge_kin.
  - rewrite Rule_merge_deps.
    apply (set_union_spec (deps self) (iter_labels it (deps other))).
Qed.

(* ================================================================ *)
(** * Rule sets: [add] and the lookups                               *)
(* ================================================================ *)

Lemma map_get_set_same (self : RuleSet A) (label : Label) (rule : Rule A) :
  map_get (map_set self label rule) label = Some rule.
Proof.
  induction self as [|[k v] self IH]; cbn [map_set map_get].
  - now rewrite Label_eqb_refl.
  - destruct (Label_eqb k label) eqn:E; cbn [map_get]; rewrite E; auto.
Qed.

Lemma map_get_set_other (self : RuleSet A) (label k' : Label)
      (rule : Rule A) :
  Label_eqb k' label = false ->
  map_get (map_set self label rule) k' = map_get self k'.
Proof.
  intros Hne. induction self as [|[k v] self IH]; cbn [map_set map_get].
  - now rewrite Label_eqb_sym, Hne.
  - destruct (Label_eqb k label) eqn:E; cbn [map_get].
    + destruct (Label_eqb k k') eqn:E'; [|reflexivity].
      rewrite Label_eqb_sym in E'.
      now rewrite (Label_eqb_trans k' k label E' E) in Hne.
    + now rewrite IH.
Qed.

Lemma map_set_length (self : RuleSet A) (label : Label) (rule : Rule A) :
  length (map_set self label rule)
  = if label_in label (List.map fst self)
    then length self else S (length self).
Proof.
  rewrite <- (length_map fst (map_set self label rule)), map_set_keys.
  rewrite length_app, length_map.
  destruct (label_in label (List.map fst self)); simpl; lia.
Qed.

Lemma RuleSet_add_length (self : RuleSet A) (rule : Rule A) :
  length (RuleSet_add it self rule)
  = if label_in (target rule) (List.map fst self)
    then length self else S (length self).
Proof.
  unfold RuleSet_add.
  destruct (map_get self (target rule)); apply map_set_length.
Qed.

Lemma RuleSet_add_same (self : RuleSet A) (rule : Rule A) :
  map_get (RuleSet_add it self rule) (target rule)
  = Some (match map_get self (target rule) with
          | None => rule
          | Some inst => Rule_merge it inst rule
          end).
Proof.
  unfold RuleSet_add.
  destruct (map_get self (target rule)); apply map_get_set_same.
Qed.

Lemma RuleSet_add_other (self : RuleSet A) (rule : Rule A) (k : Label) :
  Label_eqb k (target rule) = false ->
  map_get (RuleSet_add it self rule) k = map_get self k.
Proof.
  intros H. unfold RuleSet_add.
  destruct (map_get self (target rule)); now apply map_get_set_other.
Qed.

(** X11. After [RuleSet.add(rule)], [rule_for_target] finds under the
    target of [rule] the rule itself when the target was new, and the
    merge of the rule already there with [rule] otherwise; the rule of
    every other target is what it was. *)
Theorem ruleset_add_then_lookup (self : RuleSet A) (rule : Rule A) :
  rule_for_target (RuleSet_add it self rule) (target rule)
  = Some (match rule_for_target self (target rule) with
          | None => rule
          | Some inst => Rule_merge it inst rule
          end)
  /\ (forall k,
         Label_eqb k (target rule) = false ->
         rule_for_target (RuleSet_add it self rule) k
         = rule_for_target self k).
Proof.
  unfold rule_for_target. split; [apply RuleSet_add_same|].
  intros k. apply RuleSet_add_other.
Qed.

(** X12. [RuleSet.add] keeps the map in shape: if every rule is filed
    under its own target and no two keys are equal, the same holds
    afterwards, and the number of rules goes up by one when the target
    is new and stays as it is when a rule for it is already there. *)
Theorem ruleset_add_keeps_one_rule_per_target
        (self : RuleSet A) (rule : Rule A) :
  RuleSet_wf self ->
  RuleSet_wf (RuleSet_add it self rule)
  /\ length (RuleSet_add it self rule)
     = if label_in (target rule) (List.map fst self)
       then length self else S (length self).
Proof.
  intros H. split; [now apply RuleSet_add_wf | apply RuleSet_add_length].
Qed.

(** X13. [rule_for_target] with [createIfNotPresent] always returns a
    rule, and a later lookup finds that rule. Where there was a rule
    it is returned and the rule set is left alone; where there was
    none, the rule made has no object and no dependency. The rules of
    other targets are not touched. Without [createIfNotPresent]
    nothing is ever added. *)
Theorem rule_for_target_creates_once (self : RuleSet A) (target_ : Label) :
  (exists r,
      rule_for_target_create self target_ true
      = (Some r, snd (rule_for_target_create self target_ true))
      /\ rule_for_target (snd (rule_for_target_create self target_ true))
                         target_ = Some r
      /\ match rule_for_target self target_ with
         | Some r0 =>
             r = r0 /\ snd (rule_for_target_create self target_ true) = self
         | None => r = mkRule target_ None []
         end)
  /\ (forall k,
         Label_eqb k target_ = false ->
         rule_for_target (snd (rule_for_target_create self target_ true)) k
         = rule_for_target self k)
  /\ rule_for_target_create self target_ false
     = (rule_for_target self target_, self).
Proof.
  unfold rule_for_target_create, rule_for_target.
  destruct (map_get self target_) as [r0|] eqn:E; cbn [snd].
  - split; [|split; auto]. exists r0. auto.
  - split; [|split; auto].
    + exists (Rule_init target_ None). split; [reflexivity|].
      split; [apply map_get_set_same | reflexivity].
    + intros k Hk. now apply map_get_set_other.
Qed.
End RuleFacts.

Lemma ruleset_add_keeps_one_rule_per_target_witness :
  RuleSet_wf (RuleSet_add (in_list_order unit) wildcard_ruleset
                (mkRule (example_label "package" "a" "built") None
                        [example_label "checkout" "c" "checked_out"]))
  /\ length (RuleSet_add (in_list_order unit) wildcard_ruleset
               (mkRule (example_label "package" "a" "built") None
                       [example_label "checkout" "c" "checked_out"]))
     = if label_in (example_label "package" "a" "built")
                   (List.map fst wildcard_ruleset)
       then length wildcard_ruleset else S (length wildcard_ruleset).
Proof.
  apply (ruleset_add_keeps_one_rule_per_target (in_list_order unit)
           wildcard_ruleset).
  reflexivity.
Defined.

(* ================================================================== *)
(** * Rule sets: the targets and the rules found for a label           *)
(* ================================================================== *)

Lemma fold_set_add_In {X : Type} (f : X -> Label) (keep : X -> bool)
      (xs : list X) (acc : list Label) (l : Label) :
  In l (fold_left (fun s x => if keep x then set_add (f x) s else s) xs acc) ->
  In l acc \/ exists x, In x xs /\ keep x = true /\ l = f x.
Proof.
  revert acc. induction xs as [|x xs IH]; intros acc; cbn [fold_left].
  - now left.
  - intros H. destruct (IH _ H) as [H' | (y & Hy & Hk & E)].
    + destruct (keep x) eqn:Ek; [|now left].
      apply set_add_In in H' as [H' | ->]; [now left|].
      right. exists x. repeat split; auto. now left.
    + right. exists y. repeat split; auto. now right.
Qed.

Section Lookups.
Context {A : Type}.

Lemma targets_match_facts (self : RuleSet A) (target_ : Label) :
  targets_match self target_ false = [target_]
  /\ List.NoDup (List.map Label_as_tuple (targets_match self target_ true))
  /\ (forall k,
         In k (targets_match self target_ true) ->
         In k (List.map fst self) /\ is_Some (Label_match k target_))
  /\ (forall k,
         In k (List.map fst self) -> is_Some (Label_match k target_) ->
         label_in k (targets_match self target_ true) = true).
Proof.
  split; [reflexivity|]. unfold targets_match.
  pose proof (fold_set_add_spec
                (fun k : Label => k)
                (fun k => bool_decide (is_Some (Label_match k target_)))
                (List.map fst self) []) as (H1 & _ & H3).
  split; [apply H1, distinct_nil|]. split.
  - intros k Hk.
    apply (fold_set_add_In
             (fun k : Label => k)
             (fun k => bool_decide (is_Some (Label_match k target_))))
      in Hk as [[] | (x & Hx & Hkeep & ->)].
    split; [exact Hx | now apply bool_decide_eq_true in Hkeep].
  - intros k Hk Hm. apply label_in_kin.
    clear H1 H3. revert Hk.
    generalize (@nil Label). induction (List.map fst self) as [|x xs IH];
      intros acc; [intros []|].
    intros [-> | Hk]; cbn [fold_left].
    + rewrite bool_decide_true by exact Hm.
      apply (fold_set_add_spec
               (fun k : Label => k)
               (fun k => bool_decide (is_Some (Label_match k target_)))).
      apply set_add_kin. now right.
    + now apply IH.
Qed.

(** X14. [targets_match] without [useMatch] is the set holding the
    query and nothing else, whether or not there is a rule for it.
    With [useMatch] it holds keys of the rule set only, each matching
    the query, none twice, and it leaves out no key that matches. *)
Theorem targets_match_are_the_matching_keys
        (self : RuleSet A) (target_ : Label) :
  targets_match self target_ false = [target_]
  /\ List.NoDup (List.map Label_as_tuple (targets_match self target_ true))
  /\ (forall k,
         In k (targets_match self target_ true) ->
         In k (List.map fst self) /\ is_Some (Label_match k target_))
  /\ (forall k,
         In k (List.map fst self) -> is_Some (Label_match k target_) ->
         label_in k (targets_match self target_ true) = true).
Proof. apply targets_match_facts. Qed.

Variable it : iteration A.

(** X16. [rule_with_least_dependencies] answers [None] for the empty
    set only; otherwise it answers a rule of the set, and no rule of
    the set has fewer dependencies. *)
Theorem rule_with_least_dependencies_is_least (rules : list (Rule A)) :
  match rule_with_least_dependencies it rules with
  | None => rules = []
  | Some best =>
      In best rules
      /\ forall r, In r rules -> length (deps best) <= length (deps r)
  end.
Proof.
  unfold rule_with_least_dependencies.
  set (step := fun (best_r : option (Rule A)) (r : Rule A) =>
                 match best_r with
                 | None => Some r
                 | Some best =>
                     if Nat.ltb (length (deps r)) (length (deps best))
                     then Some r else best_r
                 end).
  set (P := fun (best : option (Rule A)) (seen : list (Rule A)) =>
              match best with
              | None => seen = []
              | Some b =>
                  In b seen
                  /\ forall r, In r seen ->
                               length (deps b) <= length (deps r)
              end).
  assert (Hfold : forall xs best seen,
             P best seen -> P (fold_left step xs best) (seen ++ xs)).
  { induction xs as [|x xs IH]; intros best seen HP; cbn [fold_left].
    - now rewrite app_nil_r.
    - replace (seen ++ x :: xs) with ((seen ++ [x]) ++ xs)
        by now rewrite <- app_assoc.
      apply IH. destruct best as [b|]; unfold step, P in *.
      + destruct HP as [Hb Hmin].
        destruct (Nat.ltb_spec (length (deps x)) (length (deps b))).
        * split; [apply in_or_app; right; now left|].
          intros r Hr. apply in_app_or in Hr as [Hr | [<- | []]]; [|lia].
          specialize (Hmin r Hr). lia.
        * split; [apply in_or_app; now left|].
          intros r Hr. apply in_app_or in Hr as [Hr | [<- | []]]; auto.
      + subst seen. split; [now left|]. intros r [<- | []]. lia. }
  specialize (Hfold (iter_rules it rules) None [] eq_refl).
  cbn [app] in Hfold.
  destruct (fold_left step (iter_rules it rules) None) as [b|];
    unfold P in Hfold.
  - destruct Hfold as [Hb Hmin]. split.
    + now apply (proj1 (In_iter_rules it _ _)).
    + intros r Hr. apply Hmin. now apply (proj2 (In_iter_rules it _ _)).
  - now apply (proj1 (iter_rules_nil it _)).
Qed.
End Lookups.

(* ================================================================== *)
(** * [retag_label_list]                                               *)
(* ================================================================== *)

Lemma retag_label_list_map (labels : list Label) (new_tag : string) :
  retag_label_list labels new_tag
  = List.map (fun l => set_tag l new_tag) labels.
Proof.
  unfold retag_label_list, Label_copy.
  assert (H : forall ls acc,
             fold_left (fun result l => result ++ [set_tag l new_tag]) ls acc
             = acc ++ List.map (fun l => set_tag l new_tag) ls).
  { induction ls as [|l ls IH]; intros acc; cbn [fold_left List.map].
    - now rewrite app_nil_r.
    - rewrite IH, <- app_assoc. reflexivity. }
  apply H.
Qed.

Lemma lookup_map {X Y : Type} (f : X -> Y) (l : list X) (i : nat) :
  List.map f l !! i = option_map f (l !! i).
Proof.
  revert i. induction l as [|x l IH]; intros [|i]; cbn; auto.
Qed.

(** X17. [retag_label_list] gives back the labels one for one and in
    their order, each with the new tag and with its type, domain, name,
    role and both flags as they were; retagging the outcome again is the
    same as retagging the first list with the last tag. *)
Theorem retag_label_list_changes_tags_only
        (labels : list Label) (t1 t2 : string) :
  length (retag_label_list labels t1) = length labels
  /\ (forall i l,
         labels !! i = Some l ->
         retag_label_list labels t1 !! i
         = Some (mkLabel (type l) (domain l) (name l) (role l) t1
                         (transient l) (system l)))
  /\ retag_label_list (retag_label_list labels t1) t2
     = retag_label_list labels t2.
Proof.
  rewrite !retag_label_list_map. split; [apply length_map|]. split.
  - intros i l H. now rewrite lookup_map, H.
  - rewrite List.map_map. reflexivity.
Qed.

(* ================================================================== *)
(** * [depend_chain]                                                   *)
(* ================================================================== *)

Section Chain.
Context {A : Type}.
Variable it : iteration A.

Lemma Label_eqb_congr (a b c : Label) :
  Label_eqb a b = true -> Label_eqb c a = Label_eqb c b.
Proof.
  intros E.
  destruct (Label_eqb c a) eqn:E1, (Label_eqb c b) eqn:E2; auto.
  - now rewrite (Label_eqb_trans c a b E1 E) in E2.
  - rewrite Label_eqb_sym in E.
    now rewrite (Label_eqb_trans c b a E2 E) in E1.
Qed.

Lemma map_get_key (self : RuleSet A) (k k' : Label) :
  Label_eqb k k' = true -> map_get self k = map_get self k'.
Proof.
  intros E. induction self as [|[k0 v] self IH]; cbn [map_get]; auto.
  now rewrite IH, (Label_eqb_congr k k' k0 E).
Qed.

(** A rule set after [add]: every rule is still there, with at least
    the dependencies it had. *)
Lemma RuleSet_add_grows (self : RuleSet A) (rule : Rule A)
      (k : Label) (r : Rule A) :
  map_get self k = Some r ->
  exists r', map_get (RuleSet_add it self rule) k = Some r'
             /\ (forall d, kin d (deps r) -> kin d (deps r'))
             /\ (forall o, obj rule = Some o -> obj r = Some o ->
                           obj r' = Some o).
Proof.
  intros H. destruct (Label_eqb k (target rule)) eqn:E.
  - rewrite (map_get_key _ _ _ E), RuleSet_add_same.
    rewrite (map_get_key _ _ _ E) in H. rewrite H.
    eexists. split; [reflexivity|]. split.
    + intros d Hd. apply Rule_merge_kin. now left.
    + intros o Ho _. now rewrite Rule_merge_obj, Ho.
  - rewrite RuleSet_add_other by exact E. exists r. auto.
Qed.

(** The rule filed under the target of a rule just added has the
    dependencies and, unless it is [None], the object of that rule. *)
Lemma RuleSet_add_has (self : RuleSet A) (rule : Rule A) :
  exists r', map_get (RuleSet_add it self rule) (target rule) = Some r'
             /\ (forall d, kin d (deps rule) -> kin d (deps r'))
             /\ (forall o, obj rule = Some o -> obj r' = Some o).
Proof.
  rewrite RuleSet_add_same. eexists. split; [reflexivity|].
  destruct (map_get self (target rule)) as [inst|]; [|auto]. split.
  - intros d Hd. apply Rule_merge_kin. now right.
  - intros o Ho. now rewrite Rule_merge_obj, Ho.
Qed.

Variable obj_ : option A.

(** What the loop of [depend_chain] does to a rule set. *)
Lemma depend_chain_loop (tags : list string) :
  forall (last : Label) (ruleset : RuleSet A),
    let ruleset' :=
      snd (fold_left (depend_chain_step it obj_) tags (last, ruleset)) in
    (RuleSet_wf ruleset -> RuleSet_wf ruleset')
    /\ (forall k r,
           map_get ruleset k = Some r ->
           exists r', map_get ruleset' k = Some r'
                      /\ (forall d, kin d (deps r) -> kin d (deps r'))
                      /\ (forall o, obj_ = Some o -> obj r = Some o ->
                                    obj r' = Some o))
    /\ (forall i prev next,
           chain_labels last tags !! i = Some prev ->
           chain_labels last tags !! S i = Some next ->
           exists r, map_get ruleset' next = Some r
                     /\ kin prev (deps r)
                     /\ (forall o, obj_ = Some o -> obj r = Some o)).
Proof.
  induction tags as [|t tags IH]; intros last ruleset; cbn zeta.
  - cbn [fold_left snd]. split; [auto|]. split; [eauto|].
    intros [|i] prev next _ H; discriminate.
  - cbn [fold_left depend_chain_step].
    set (next0 := set_tag (Label_copy last) t).
    set (rule0 := Rule_add (Rule_init next0 obj_) last).
    destruct (IH next0 (RuleSet_add it ruleset rule0))
      as (Hwf & Hgrow & Hlinks).
    split; [|split].
    + intros H. now apply Hwf, RuleSet_add_wf.
    + intros k r Hr.
      destruct (RuleSet_add_grows ruleset rule0 k r Hr)
        as (r1 & Hr1 & Hd1 & Ho1).
      destruct (Hgrow k r1 Hr1) as (r2 & Hr2 & Hd2 & Ho2).
      exists r2. split; [exact Hr2|]. split; [auto|].
      intros o Ho Hro. apply (Ho2 o Ho). now apply Ho1.
    + assert (Etail : chain_labels next0 tags
                      = List.map (set_tag last) (t :: tags)).
      { unfold chain_labels. cbn [List.map]. f_equal. }
      intros [|i] prev next Hp Hn.
      * cbn in Hp. injection Hp as <-. cbn in Hn. injection Hn as <-.
        destruct (RuleSet_add_has ruleset rule0) as (r1 & Hr1 & Hd1 & Ho1).
        destruct (Hgrow _ r1 Hr1) as (r2 & Hr2 & Hd2 & Ho2).
        exists r2. split; [exact Hr2|]. split.
        -- apply Hd2, Hd1. subst rule0. cbn [Rule_add deps Rule_init].
           apply set_add_kin. now right.
        -- intros o Ho. apply (Ho2 o Ho). now apply Ho1.
      * apply (Hlinks i prev next).
        -- rewrite Etail. exact Hp.
        -- rewrite Etail. exact Hn.
Qed.

(** X18. [depend_chain] leaves behind a rule for the label and for the
    label at every tag, and the rule of each link lists the link
    before it among its dependencies and holds the object given,
    unless that is [None]. The rules that were there are still found,
    with no dependency lost; and a rule set with one rule per target,
    each under its own target, stays so. *)
Theorem depend_chain_links (label : Label) (tags : list string)
        (ruleset : RuleSet A) :
  let ruleset' := depend_chain it obj_ label tags ruleset in
  (RuleSet_wf ruleset -> RuleSet_wf ruleset')
  /\ (forall k r,
         rule_for_target ruleset k = Some r ->
         exists r', rule_for_target ruleset' k = Some r'
                    /\ forall d, label_in d (deps r) = true ->
                                 label_in d (deps r') = true)
  /\ is_Some (rule_for_target ruleset' label)
  /\ (forall i prev next,
         chain_labels label tags !! i = Some prev ->
         chain_labels label tags !! S i = Some next ->
         exists r, rule_for_target ruleset' next = Some r
                   /\ label_in prev (deps r) = true
                   /\ forall o, obj_ = Some o -> obj r = Some o).
Proof.
  cbn zeta. unfold depend_chain, rule_for_target, Label_copy.
  set (rule0 := Rule_init label obj_).
  destruct (depend_chain_loop tags label (RuleSet_add it ruleset rule0))
    as (Hwf & Hgrow & Hlinks).
  split; [|split; [|split]].
  - intros H. now apply Hwf, RuleSet_add_wf.
  - intros k r Hr.
    destruct (RuleSet_add_grows ruleset rule0 k r Hr) as (r1 & Hr1 & Hd1 & _).
    destruct (Hgrow k r1 Hr1) as (r2 & Hr2 & Hd2 & _).
    exists r2. split; [exact Hr2|]. intros d. rewrite !label_in_kin. auto.
  - destruct (RuleSet_add_has ruleset rule0) as (r1 & Hr1 & _).
    destruct (Hgrow _ r1 Hr1) as (r2 & Hr2 & _). eauto.
  - intros i prev next Hp Hn.
    destruct (Hlinks i prev next Hp Hn) as (r & Hr & Hd & Ho).
    exists r. split; [exact Hr|]. split; [now apply label_in_kin | exact Ho].
Qed.
End Chain.

(* ================================================================== *)
(** * The solver: the ends of its range                                *)
(* ================================================================== *)

Lemma Permutation_of_singleton {X : Type} (x : X) (l : list X) :
  Permutation l [x] -> l = [x].
Proof.
  intros H. apply Permutation_sym in H. now apply Permutation_length_1_inv.
Qed.

Section Edges.
Context {A : Type}.
Variable it : iteration A.
Variable ruleset : RuleSet A.

Lemma needed_to_build_no_target (target_ : Label) (useTags useMatch : bool) :
  targets_match ruleset target_ useMatch = [] ->
  needed_to_build it ruleset target_ useTags useMatch = Some (Ok []).
Proof.
  intros H. unfold needed_to_build. rewrite H. reflexivity.
Qed.

Lemma needed_to_build_nothing (target_ : Label) (useTags useMatch : bool) :
  needed_to_build it ruleset target_ useTags useMatch = Some (Ok []) ->
  targets_match ruleset target_ useMatch = [].
Proof.
  intros H.
  destruct (needed_to_build_order it ruleset target_ useTags useMatch [] H)
    as (B & HB & Hcover & _).
  apply build_order_length in HB. destruct B; [|discriminate].
  destruct (targets_match ruleset target_ useMatch) as [|t ts];
    [reflexivity|].
  destruct (kin_nil t). apply Hcover, kin_cons. now left.
Qed.

(** X19. [needed_to_build] answers with the empty list in one case
    only: it was asked to match wildcards ([useMatch]) and no key of
    the rule set matches the query. Asked for a label that no rule
    matches it does not fail then; it finds nothing to do. *)
Theorem solver_finds_nothing_to_do
        (target_ : Label) (useTags useMatch : bool) :
  needed_to_build it ruleset target_ useTags useMatch = Some (Ok [])
  <-> (useMatch = true
       /\ forall k, In k (List.map fst ruleset) ->
                    Label_match k target_ = None).
Proof.
  destruct (targets_match_facts ruleset target_) as (F1 & _ & F3 & F4).
  split.
  - intros H. apply needed_to_build_nothing in H.
    destruct useMatch; [|now rewrite F1 in H]. split; [reflexivity|].
    intros k Hk. destruct (Label_match k target_) eqn:E; [|reflexivity].
    assert (Hin : label_in k (targets_match ruleset target_ true) = true)
      by (apply F4; [exact Hk | rewrite E; eauto]).
    rewrite H in Hin. discriminate.
  - intros [-> Hnone]. apply needed_to_build_no_target.
    destruct (targets_match ruleset target_ true) as [|k ks] eqn:E;
      [reflexivity|].
    destruct (F3 k) as [Hk [n Hn]]; [now left|].
    rewrite (Hnone k Hk) in Hn. discriminate.
Qed.

(** X20. Asked without [useMatch] for a label that no rule of the rule
    set matches, [needed_to_build] raises "Rule list is empty for
    target", naming the query itself. *)
Theorem solver_refuses_a_query_without_rule
        (target_ : Label) (useTags : bool) :
  rules_for_target ruleset target_ useTags true = [] ->
  needed_to_build it ruleset target_ useTags false
  = Some (Raise (RuleListEmpty target_)).
Proof.
  intros H. unfold needed_to_build.
  destruct (targets_match_facts ruleset target_) as (-> & _).
  cbn [while_done_something set_difference List.filter label_in existsb
       negb length Nat.eqb].
  rewrite (Permutation_of_singleton target_ (iter_labels it [target_])
             (iter_labels_perm it [target_])).
  cbn [for_each]. unfold visit_target at 1. rewrite H.
  assert (iter_rules it [] = []) as ->.
  { apply Permutation_nil, Permutation_sym, iter_rules_perm. }
  reflexivity.
Qed.

(** X21. Every rule of a list that [needed_to_build] returns is a rule
    of the rule set, filed under a key that matches a label needed for
    the query (a target of the query or, at some depth, a dependency);
    and the list is no longer than the number of first targets and of
    dependencies in the whole rule set. *)
Theorem solver_returns_rules_of_the_set
        (target_ : Label) (useTags useMatch : bool) (rl : list (Rule A)) :
  needed_to_build it ruleset target_ useTags useMatch = Some (Ok rl) ->
  length rl
  <= length (all_labels ruleset (targets_match ruleset target_ useMatch))
  /\ forall r,
      In r rl ->
      exists k t,
        In (k, r) ruleset
        /\ needed ruleset (targets_match ruleset target_ useMatch) t
        /\ is_Some (Label_match t k).
Proof.
  intros H.
  destruct (needed_to_build_order it ruleset target_ useTags useMatch rl H)
    as (B & HB & _ & Hneeded).
  assert (Hlen := build_order_length it ruleset B rl HB).
  split.
  - rewrite <- Hlen. apply distinct_length.
    + apply (build_order_distinct it ruleset B rl HB).
    + intros x Hx. now apply needed_all_labels, Hneeded.
  - intros r Hr.
    apply list_elem_of_In, list_elem_of_lookup in Hr as (i & Hi).
    assert (Hi' : is_Some (B !! i)).
    { apply lookup_lt_is_Some. rewrite Hlen.
      now apply lookup_lt_Some in Hi. }
    destruct Hi' as (tgt & Ht).
    destruct (build_order_lookup it ruleset B rl HB i tgt Ht)
      as (r0 & Hr0 & Hc & _).
    rewrite Hi in Hr0. injection Hr0 as <-.
    apply chosen_rule_In, matching_rules_In in Hc as (k & Hk & Hm).
    exists k, tgt. repeat split; auto.
    apply Hneeded, kin_In, list_elem_of_In, list_elem_of_lookup. eauto.
Qed.
End Edges.

Lemma solver_refuses_a_query_without_rule_witness :
  needed_to_build (in_list_order unit) incomplete_ruleset
                  (example_label "checkout" "b" "checked_out") true false
  = Some (Raise (RuleListEmpty (example_label "checkout" "b" "checked_out"))).
Proof.
  apply (solver_refuses_a_query_without_rule (in_list_order unit)
           incomplete_ruleset).
  reflexivity.
Defined.

Lemma solver_returns_rules_of_the_set_witness :
  length wildcard_answer
  <= length (all_labels wildcard_ruleset
               (targets_match wildcard_ruleset
                              (example_label "package" "a" "built") false))
  /\ forall r,
      In r wildcard_answer ->
      exists k t,
        In (k, r) wildcard_ruleset
        /\ needed wildcard_ruleset
                  (targets_match wildcard_ruleset
                                 (example_label "package" "a" "built") false) t
        /\ is_Some (Label_match t k).
Proof.
  apply (solver_returns_rules_of_the_set (in_list_order unit)
           wildcard_ruleset (example_label "package" "a" "built") true false).
  reflexivity.
Defined.

(* ================================================================== *)
(** * [required_by]: what it returns                                   *)
(* ================================================================== *)

Lemma set_add_not_nil (l : Label) (s : list Label) : set_add l s <> [].
Proof.
  unfold set_add. destruct (label_in l s) eqn:E.
  - destruct s; [discriminate E | discriminate].
  - destruct s; discriminate.
Qed.

Lemma fold_set_add_nil {X : Type} (f : X -> Label) (keep : X -> bool)
      (xs : list X) (acc : list Label) :
  fold_left (fun s x => if keep x then set_add (f x) s else s) xs acc = [] ->
  acc = [] /\ forall x, In x xs -> keep x = false.
Proof.
  revert acc. induction xs as [|x xs IH]; intros acc; cbn [fold_left].
  - intros ->. split; [reflexivity | intros x []].
  - intros H. destruct (IH _ H) as [Hacc Hxs].
    destruct (keep x) eqn:Ek; [now apply set_add_not_nil in Hacc|].
    split; [exact Hacc|]. intros y [<- | Hy]; auto.
Qed.

Lemma set_union_In (s1 s2 : list Label) (l : Label) :
  In l (set_union s1 s2) -> In l s1 \/ In l s2.
Proof.
  unfold set_union. intros H.
  apply (fold_set_add_In (fun x : Label => x) (fun _ => true))
    in H as [H | (x & Hx & _ & ->)]; auto.
Qed.

Lemma Label_match_without_tag_key (a b b' : Label) :
  Label_as_tuple b = Label_as_tuple b' ->
  Label_match_without_tag a b = Label_match_without_tag a b'.
Proof.
  unfold Label_as_tuple, Label_match_without_tag.
  now intros [= -> -> -> -> _].
Qed.

Lemma existsb_pointwise {X : Type} (f g : X -> bool) (l : list X) :
  (forall x, f x = g x) -> existsb f l = existsb g l.
Proof.
  intros H. induction l as [|x l IH]; cbn; [reflexivity|].
  now rewrite H, IH.
Qed.

Section Closure.
Context {A : Type}.
Variable it : iteration A.
Variable ruleset : RuleSet A.
Variable useTags useMatch : bool.

Lemma rules_which_depend_on_key (d d' : Label) :
  Label_as_tuple d = Label_as_tuple d' ->
  rules_which_depend_on it ruleset d useTags useMatch
  = rules_which_depend_on it ruleset d' useTags useMatch.
Proof.
  intros E. unfold rules_which_depend_on. apply filter_ext. intros v.
  destruct useMatch; [|destruct useTags].
  - apply existsb_pointwise. intros dep.
    now rewrite (Label_match_key dep dep d d' eq_refl E).
  - apply label_in_key. now apply Label_eqb_tuple.
  - apply existsb_pointwise. intros dep.
    now apply Label_match_without_tag_key.
Qed.

(** The two folds of a round, from any start. *)
Let round (depends ds acc : list Label) : list Label :=
  fold_left
    (fun extra dep =>
       fold_left
         (fun extra rule =>
            if negb (label_in (target rule) depends)
            then set_add (target rule) extra else extra)
         (iter_rules it
            (rules_which_depend_on it ruleset dep useTags useMatch))
         extra)
    ds acc.

Lemma round_In (depends ds : list Label) :
  forall acc l,
    In l (round depends ds acc) ->
    In l acc
    \/ exists d r,
        In d ds
        /\ In r (rules_which_depend_on it ruleset d useTags useMatch)
        /\ l = target r.
Proof.
  induction ds as [|d ds IH]; intros acc l; cbn [round fold_left];
    [now left|].
  intros H. apply IH in H as [H | (d' & r & Hd & Hr & ->)].
  - apply (fold_set_add_In
             (@target A)
             (fun rule => negb (label_in (target rule) depends)))
      in H as [H | (r & Hr & _ & ->)]; [now left|].
    right. exists d, r. split; [now left|]. split; [|reflexivity].
    now apply (proj1 (In_iter_rules it _ _)).
  - right. exists d', r. split; [now right | auto].
Qed.

Lemma round_nil (depends ds : list Label) :
  forall acc,
    round depends ds acc = [] ->
    acc = []
    /\ forall d r,
        In d ds ->
        In r (rules_which_depend_on it ruleset d useTags useMatch) ->
        label_in (target r) depends = true.
Proof.
  induction ds as [|d ds IH]; intros acc; cbn [round fold_left].
  - intros ->. split; [reflexivity | intros d r []].
  - intros H. apply IH in H as [H Hds].
    apply (fold_set_add_nil
             (@target A)
             (fun rule => negb (label_in (target rule) depends)))
      in H as [Hacc Hd].
    split; [exact Hacc|]. intros d' r [<- | Hd'] Hr; [|eauto].
    apply negb_false_iff, Hd. now apply (proj2 (In_iter_rules it _ _)).
Qed.

Variable label : Label.

(** What the loop keeps true of [depends]. *)
Let sound (depends : list Label) : Prop :=
  distinct depends
  /\ (forall l, In l depends ->
                dependant it ruleset useTags useMatch label l)
  /\ (forall r, In r (rules_for_target ruleset label true useMatch) ->
                kin (target r) depends).

Lemma required_by_loop_closure (fuel : nat) :
  forall depends out,
    sound depends ->
    required_by_loop fuel it ruleset useTags useMatch depends = Some out ->
    sound out
    /\ forall d r,
        In d out ->
        In r (rules_which_depend_on it ruleset d useTags useMatch) ->
        label_in (target r) out = true.
Proof.
  induction fuel as [|fuel IH]; intros depends out Hs; [discriminate|].
  cbn [required_by_loop]. unfold required_by_extra.
  change (fold_left _ (iter_labels it depends) [])
    with (round depends (iter_labels it depends) []).
  destruct (round depends (iter_labels it depends) []) as [|x extra] eqn:E.
  - cbn [length Nat.ltb Nat.leb]. intros [= <-]. split; [exact Hs|].
    intros d r Hd Hr. apply round_nil in E as [_ E].
    apply (E d r); [|exact Hr]. now apply (proj2 (In_iter_labels it _ _)).
  - cbn [length Nat.ltb Nat.leb]. apply IH.
    destruct Hs as (Hd & Hdep & Hfirst).
    destruct (set_union_spec depends (x :: extra)) as (U1 & U2 & _).
    split; [now apply U1|]. split.
    + intros l Hl. apply set_union_In in Hl as [Hl | Hl]; [now apply Hdep|].
      rewrite <- E in Hl.
      apply round_In in Hl as [[] | (d & r & Hd' & Hr & ->)].
      apply (dependant_next it ruleset useTags useMatch label d r);
        [|exact Hr].
      now apply Hdep, (proj1 (In_iter_labels it _ _)).
    + intros r Hr. now apply U2, Hfirst.
Qed.

(** X22. [required_by] always returns or raises. It raises "No rules
    match label" exactly when [rules_for_target] finds no rule for the
    label. Otherwise it returns a set, no label twice, that holds
    exactly what needs the label at any depth: the targets of the
    rules found for the label (so the label itself, when it has a
    rule), and the target of every rule that
    [rules_which_depend_on] finds for a label already in the set. *)
Theorem required_by_is_the_set_of_dependants :
  exists res,
    required_by it ruleset label useTags useMatch = Some res
    /\ match res with
       | Raise e =>
           e = NoRulesMatch label
           /\ rules_for_target ruleset label true useMatch = []
       | Ok depends =>
           rules_for_target ruleset label true useMatch <> []
           /\ List.NoDup (List.map Label_as_tuple depends)
           /\ (forall l,
                  In l depends ->
                  dependant it ruleset useTags useMatch label l)
           /\ (forall l,
                  dependant it ruleset useTags useMatch label l ->
                  label_in l depends = true)
       end.
Proof.
  destruct (required_by_returns it ruleset useTags useMatch label)
    as (res & Hres).
  exists res. split; [exact Hres|].
  unfold required_by in Hres.
  set (rules0 := rules_for_target ruleset label true useMatch) in *.
  destruct (iter_rules it rules0) as [|r0 rs0] eqn:Erules.
  - cbn in Hres. injection Hres as <-. split; [reflexivity|].
    now apply (proj1 (iter_rules_nil it _)).
  - cbn [length Nat.eqb] in Hres. rewrite <- Erules in Hres.
    set (first := fold_left (fun s r => set_add (target r) s)
                            (iter_rules it rules0) []) in *.
    destruct (required_by_loop (S (length ruleset)) it ruleset useTags
                               useMatch first) as [out|] eqn:Eloop;
      [|discriminate].
    injection Hres as <-.
    assert (Hfirst : sound first).
    { pose proof (fold_set_add_spec (@target A) (fun _ => true)
                    (iter_rules it rules0) []) as (H1 & _ & _).
      split; [apply H1, distinct_nil|]. split.
      - intros l Hl.
        apply (fold_set_add_In (@target A) (fun _ => true))
          in Hl as [[] | (r & Hr & _ & ->)].
        apply dependant_first.
        now apply (proj1 (In_iter_rules it _ _)).
      - intros r Hr. apply (proj2 (In_iter_rules it _ _)) in Hr.
        clear H1 Erules Eloop. subst first. revert Hr.
        generalize (@nil Label).
        induction (iter_rules it rules0) as [|x xs IHx]; intros acc;
          [intros []|].
        intros [-> | Hr]; cbn [fold_left]; [|now apply IHx].
        apply (fold_set_add_spec (@target A) (fun _ => true)).
        apply set_add_kin. now right. }
    destruct (required_by_loop_closure _ _ _ Hfirst Eloop)
      as ((Hd & Hdep & Hstart) & Hclosed).
    split; [|split; [exact Hd | split; [exact Hdep|]]].
    + intros Hnil. apply (proj2 (iter_rules_nil it _)) in Hnil.
      now rewrite Hnil in Erules.
    + intros l Hl. apply label_in_kin.
      induction Hl as [r Hr | d r _ IHd Hr]; [now apply Hstart|].
      apply kin_inv in IHd as (d' & Hd' & Ed').
      apply label_in_kin. apply (Hclosed d' r Hd').
      now rewrite (rules_which_depend_on_key d' d Ed').
Qed.
End Closure.

(* ================================================================== *)
(** * Commands: what [decode_args] lets out                            *)
(* ================================================================== *)

Lemma fold_left_Forall {X Y : Type} (P : Y -> Prop)
      (step : list Y -> X -> list Y) (xs : list X) :
  (forall acc x, Forall P acc -> Forall P (step acc x)) ->
  forall acc, Forall P acc -> Forall P (fold_left step xs acc).
Proof.
  intros Hstep. induction xs as [|x xs IH]; intros acc H; cbn [fold_left];
    auto.
Qed.

Lemma for_each_Forall {E X Y : Type} (P : Y -> Prop)
      (body : list Y -> X -> result E (list Y)) (xs : list X) :
  (forall acc x out, body acc x = Ok out -> Forall P acc -> Forall P out) ->
  forall acc out,
    for_each body xs acc = Ok out -> Forall P acc -> Forall P out.
Proof.
  intros Hbody. induction xs as [|x xs IH]; intros acc out H HP.
  - cbn in H. now injection H as <-.
  - rewrite for_each_cons in H.
    destruct (body acc x) as [acc'|e] eqn:Eb; [|discriminate]. eauto.
Qed.

Lemma set_add_Forall (P : Label -> Prop) (l : Label) (s : list Label) :
  Forall P s -> P l -> Forall P (set_add l s).
Proof.
  intros Hs Hl. apply List.Forall_forall. intros x Hx.
  apply set_add_In in Hx as [Hx | ->]; [|exact Hl].
  now apply (proj1 (List.Forall_forall P s) Hs).
Qed.

Lemma set_union_Forall (P : Label -> Prop) (s1 s2 : list Label) :
  Forall P s1 -> Forall P s2 -> Forall P (set_union s1 s2).
Proof.
  intros H1 H2. apply List.Forall_forall. intros x Hx.
  apply set_union_In in Hx as [Hx | Hx];
    [apply (proj1 (List.Forall_forall P s1) H1 x Hx)
    | apply (proj1 (List.Forall_forall P s2) H2 x Hx)].
Qed.

Lemma iter_labels_Forall {A : Type} (it : iteration A) (P : Label -> Prop)
      (s : list Label) :
  Forall P s -> Forall P (iter_labels it s).
Proof.
  intros H. apply List.Forall_forall. intros x Hx.
  apply (proj1 (In_iter_labels it _ _)) in Hx.
  now apply (proj1 (List.Forall_forall P s) H).
Qed.

(** A required tag that is set: the label comes out with it, its type
    untouched. *)
Lemma force_required_tag_fields (t : string) (label : Label) :
  t <> ""%string ->
  type (force_required_tag (Some t) label) = type label
  /\ tag (force_required_tag (Some t) label) = t.
Proof.
  intros Ht. unfold force_required_tag. cbn [str_true].
  destruct (String.eqb_spec t ""); [contradiction|]. cbn [negb andb].
  destruct (String.eqb_spec (tag label) t) as [<- | Hne]; auto.
Qed.

Section Decoded.
Context {A : Type}.
Variable LabelType : LabelType_t.
Variable it : iteration A.
Variable invocation : Invocation A.
Variable required_tag : string.
Hypothesis required_tag_set : required_tag <> ""%string.

(** Of the kind [kind], at the required tag. *)
Let fits (kind : string) (l : Label) : Prop :=
  type l = kind /\ tag l = required_tag.

Lemma forced_fits (kind : string) (l : Label) :
  String.eqb (type l) kind = true ->
  fits kind (force_required_tag (Some required_tag) l).
Proof.
  intros E. apply String.eqb_eq in E.
  destruct (force_required_tag_fields required_tag l required_tag_set)
    as [E1 E2].
  split; congruence.
Qed.

Lemma add_rule_targets_fits (kind : string) (rules : list (Rule A))
      (s : list Label) :
  Forall (fits kind) s ->
  Forall (fits kind) (add_rule_targets kind (Some required_tag) rules s).
Proof.
  unfold add_rule_targets. apply fold_left_Forall. intros acc r Hacc.
  cbn zeta. destruct (String.eqb (type (target r)) kind) eqn:E;
    [|exact Hacc].
  apply set_add_Forall; [exact Hacc | now apply forced_fits].
Qed.

Lemma packages_from_checkout_label_fits (label : Label)
      (more : list Label) :
  packages_from_checkout_label LabelType it invocation (Some required_tag)
                               label = Ok more ->
  Forall (fits (Package LabelType)) more.
Proof.
  unfold packages_from_checkout_label. intros H.
  apply result_bind_Ok in H as (required_labels & _ & H).
  injection H as <-. apply fold_left_Forall; [|constructor].
  intros acc l Hacc.
  destruct (String.eqb (type l) (Package LabelType)) eqn:E;
    [|exact Hacc].
  destruct (match role l with Some r => _ | None => false end);
    [|exact Hacc].
  apply set_add_Forall; [exact Hacc | now apply forced_fits].
Qed.

Lemma decode_args_fits (c : category) (args : list string)
      (result_ : list Label) :
  decode_args LabelType it invocation c (Some required_tag) args
  = Ok result_ ->
  Forall (fits (own_kind LabelType c)) result_.
Proof.
  destruct c; cbn [decode_args own_kind];
    unfold CheckoutCommand_decode_args, PackageCommand_decode_args;
    intros H;
    apply result_bind_Ok in H as (initial & _ & H);
    apply result_bind_Ok in H as (rs & Ef & H);
    injection H as <-; apply iter_labels_Forall;
    refine (for_each_Forall _ _ (enumerate initial) _ [] rs Ef
                            (List.Forall_nil _));
    intros acc [index label] out Hb Hacc; cbn beta iota in Hb.
  - destruct (String.eqb (type label) (Checkout LabelType)) eqn:E.
    + injection Hb as <-.
      apply set_add_Forall; [exact Hacc | now apply forced_fits].
    + destruct (_ || _); [|now apply cannot_cope_raises in Hb].
      apply result_bind_Ok in Hb as (rules & _ & Hb).
      injection Hb as <-. now apply add_rule_targets_fits.
  - destruct (String.eqb (type label) (Package LabelType)) eqn:E.
    + injection Hb as <-.
      apply set_add_Forall; [exact Hacc | now apply forced_fits].
    + destruct (String.eqb (type label) (Checkout LabelType)).
      * apply result_bind_Ok in Hb as (more & Hmore & Hb).
        injection Hb as <-.
        apply set_union_Forall; [exact Hacc|].
        apply iter_labels_Forall.
        now apply packages_from_checkout_label_fits in Hmore.
      * destruct (str_in _ _); [|now apply cannot_cope_raises in Hb].
        apply result_bind_Ok in Hb as (rules & _ & Hb).
        injection Hb as <-. now apply add_rule_targets_fits.
Qed.
End Decoded.

(** X23. Whatever the arguments, every label that [decode_args] of a
    checkout or a package command returns is of the command's own kind
    (checkout, package) and carries the required tag of the command,
    when that tag is set: labels of other kinds among the arguments
    only stand for the labels of the own kind found through them. *)
Theorem decode_args_returns_own_kind_at_required_tag
        {A : Type} (LabelType : LabelType_t) (it : iteration A)
        (invocation : Invocation A) (c : category) (required_tag : string)
        (args : list string) (result_ : list Label) :
  required_tag <> ""%string ->
  decode_args LabelType it invocation c (Some required_tag) args
  = Ok result_ ->
  Forall (fun l => type l = own_kind LabelType c /\ tag l = required_tag)
         result_.
Proof.
  intros Ht H.
  exact (decode_args_fits LabelType it invocation required_tag Ht c args
                          result_ H).
Qed.

Lemma decode_args_returns_own_kind_at_required_tag_witness :
  Forall (fun l => type l = own_kind example_LabelType CAT_CHECKOUT
                   /\ tag l = "checked_out"%string)
         [example_label "checkout" "b" "checked_out"].
Proof.
  apply (decode_args_returns_own_kind_at_required_tag
           example_LabelType (in_list_order unit) example_invocation
           CAT_CHECKOUT "checked_out" ["b"%string]);
    [discriminate | reflexivity].
Defined.

(* ================================================================== *)
(** * Commands: deployments, and commands on any label                 *)
(* ================================================================== *)

Lemma insert_sorted_In (x y : Label) (l : list Label) :
  In y (insert_sorted x l) -> y = x \/ In y l.
Proof.
  induction l as [|z l IH]; cbn [insert_sorted].
  - intros [<- | []]. now left.
  - destruct (Label_ltb x z).
    + intros [<- | H]; auto.
    + intros [<- | H]; [right; now left|].
      destruct (IH H); [now left | right; now right].
Qed.

Lemma list_sort_Forall (P : Label -> Prop) (l : list Label) :
  Forall P l -> Forall P (list_sort l).
Proof.
  unfold list_sort. intros H.
  assert (Hgen : forall xs acc,
             Forall P xs -> Forall P acc ->
             Forall P (fold_left (fun sorted x => insert_sorted x sorted)
                                 xs acc)).
  { induction xs as [|x xs IH]; intros acc Hxs Hacc; [exact Hacc|].
    cbn [fold_left]. inversion Hxs as [|? ? Hx Hxs']; subst.
    apply IH; [exact Hxs'|]. apply List.Forall_forall. intros y Hy.
    apply insert_sorted_In in Hy as [-> | Hy]; [exact Hx|].
    now apply (proj1 (List.Forall_forall P acc) Hacc). }
  now apply Hgen.
Qed.

Section Deployments.
Context {A : Type}.
Variable LabelType : LabelType_t.
Variable it : iteration A.
Variable invocation : Invocation A.
Variable required_tag : string.

Lemma all_deployment_labels_tag (labels : list Label) :
  all_deployment_labels LabelType it invocation required_tag = Ok labels ->
  Forall (fun l => tag l = required_tag) labels.
Proof.
  unfold all_deployment_labels. intros H.
  apply result_bind_Ok in H as (match_lbl & _ & H). injection H as <-.
  apply iter_labels_Forall, fold_left_Forall; [|constructor].
  intros acc m Hacc. cbn zeta.
  destruct (String.eqb_spec (tag (target m)) required_tag);
    apply set_add_Forall; auto.
Qed.

Lemma deployment_first_loop_Returned (args : list string) :
  forall initial return_list,
    deployment_first_loop LabelType it invocation required_tag args initial
    = Ok (Returned return_list) ->
    In "_all"%string args
    /\ Forall (fun l => tag l = required_tag) return_list.
Proof.
  induction args as [|word args IH]; intros initial return_list;
    cbn [deployment_first_loop]; [discriminate|].
  destruct (String.eqb_spec word "_all") as [-> | Hne].
  - intros H. apply result_bind_Ok in H as (labels & Hl & H).
    injection H as <-. split; [now left|].
    now apply list_sort_Forall, all_deployment_labels_tag.
  - intros H. apply result_bind_Ok in H as (labels & _ & H).
    destruct (Nat.eqb _ 0); [discriminate|].
    destruct (IH _ _ H) as [Hin Htag]. split; [now right | exact Htag].
Qed.

Lemma deployment_first_loop_Went_through (args : list string) :
  forall initial initial_list,
    deployment_first_loop LabelType it invocation required_tag args initial
    = Ok (Went_through initial_list) ->
    ~ In "_all"%string args.
Proof.
  induction args as [|word args IH]; intros initial initial_list;
    cbn [deployment_first_loop]; [intros _ []|].
  destruct (String.eqb_spec word "_all") as [-> | Hne].
  - intros H. apply result_bind_Ok in H as (labels & _ & H). discriminate.
  - intros H. apply result_bind_Ok in H as (labels & _ & H).
    destruct (Nat.eqb _ 0); [discriminate|].
    intros [E | Hin]; [contradiction | exact (IH _ _ H Hin)].
Qed.

Lemma deployment_first_loop_at_all (pre post : list string) :
  forall initial,
    deployment_first_loop LabelType it invocation required_tag
                          (pre ++ "_all"%string :: post) initial
    = deployment_first_loop LabelType it invocation required_tag
                            (pre ++ ["_all"%string]) initial.
Proof.
  induction pre as [|word pre IH]; intros initial;
    cbn [app deployment_first_loop].
  - reflexivity.
  - destruct (String.eqb word "_all"); [reflexivity|].
    destruct (from_command _) as [labels|e]; [|reflexivity].
    cbn [mbind result_bind].
    destruct (Nat.eqb _ 0); [reflexivity | apply IH].
Qed.

(** X25. [DeploymentCommand.decode_args] returns at the first [_all]:
    nothing that follows it among the arguments is looked at, so the
    outcome (the labels, or the exception of an argument before it) is
    that of the same arguments cut off behind [_all]. *)
Theorem deployment_all_ends_the_arguments (pre post : list string) :
  DeploymentCommand_decode_args LabelType it invocation required_tag
                                (pre ++ "_all"%string :: post)
  = DeploymentCommand_decode_args LabelType it invocation required_tag
                                  (pre ++ ["_all"%string]).
Proof.
  unfold DeploymentCommand_decode_args.
  rewrite deployment_first_loop_at_all.
  destruct (deployment_first_loop LabelType it invocation required_tag
                                  (pre ++ ["_all"%string]) [])
    as [[return_list | initial_list] | e] eqn:E; try reflexivity.
  apply deployment_first_loop_Went_through in E. destruct E.
  apply in_or_app. right. now left.
Qed.

Hypothesis required_tag_set : required_tag <> ""%string.

Lemma deployment_decode_args_fits (args : list string)
      (result_ : list Label) :
  DeploymentCommand_decode_args LabelType it invocation required_tag args
  = Ok result_ ->
  Forall (fun l => tag l = required_tag) result_
  /\ (~ In "_all"%string args ->
      Forall (fun l => type l = Deployment LabelType) result_).
Proof.
  unfold DeploymentCommand_decode_args. intros H.
  apply result_bind_Ok in H as (first & Hfirst & H).
  destruct first as [return_list | initial].
  - injection H as <-.
    apply deployment_first_loop_Returned in Hfirst as [Hin Htag].
    split; [exact Htag | contradiction].
  - apply result_bind_Ok in H as (rs & Ef & H). injection H as <-.
    assert (Hfits : Forall (fun l => type l = Deployment LabelType
                                     /\ tag l = required_tag) rs).
    { refine (for_each_Forall _ _ (enumerate initial) _ [] rs Ef
                              (List.Forall_nil _)).
      intros acc [index label] out Hb Hacc.
      cbn beta iota in Hb.
      destruct (String.eqb (type label) (Deployment LabelType)) eqn:E.
      - injection Hb as <-.
        apply set_add_Forall; [exact Hacc|].
        now apply (forced_fits required_tag required_tag_set).
      - destruct (_ || _);
          [|unfold cannot_cope in Hb;
            now destruct (nth_error args index)].
        apply result_bind_Ok in Hb as (required_labels & _ & Hb).
        injection Hb as <-. unfold add_required_deployments.
        apply fold_left_Forall; [|exact Hacc].
        intros acc' l Hacc'.
        destruct (String.eqb (type l) (Deployment LabelType)) eqn:El;
          [|exact Hacc'].
        apply set_add_Forall; [exact Hacc'|].
        now apply (forced_fits required_tag required_tag_set). }
    split; [|intros _]; apply iter_labels_Forall;
      apply (List.Forall_impl _ (P := fun l => type l = Deployment LabelType
                                         /\ tag l = required_tag));
      try exact Hfits; now intros l [? ?].
Qed.

(** The labels found for the arguments of [AnyLabelCommand.decode_args],
    argument by argument. *)
Lemma anylabel_decode_args_found (args : list string) :
  forall acc result_,
    for_each
      (fun result_list word =>
         if String.eqb word "_all" then Raise GiveUp_all_not_allowed
         else
           labels ← from_command
                      (label_from_fragment invocation word
                                           (Package LabelType));
           let used_labels :=
             List.filter (target_label_exists invocation) labels in
           if Nat.eqb (length used_labels) 0
           then Raise (Command_error (GiveUp_not_a_target labels word))
           else Ok (result_list ++ used_labels))
      args acc = Ok result_ ->
    ~ In "_all"%string args
    /\ exists found,
        Forall2
          (fun word labels =>
             label_from_fragment invocation word (Package LabelType)
             = Ok labels
             /\ List.filter (target_label_exists invocation) labels <> [])
          args found
        /\ result_
           = acc ++ flat_map (List.filter (target_label_exists invocation))
                             found.
Proof.
  induction args as [|word args IH]; intros acc result_ H.
  - cbn in H. injection H as <-. split; [intros []|].
    exists []. split; [constructor|]. cbn. now rewrite app_nil_r.
  - rewrite for_each_cons in H.
    destruct (String.eqb_spec word "_all") as [-> | Hne]; [discriminate|].
    destruct (label_from_fragment invocation word (Package LabelType))
      as [labels|e] eqn:El; [|discriminate].
    cbn [from_command mbind result_bind] in H.
    destruct (List.filter (target_label_exists invocation) labels)
      as [|u used] eqn:Eu; [discriminate|].
    cbn [length Nat.eqb] in H.
    destruct (IH _ _ H) as (Hall & found & Hfound & ->).
    split; [intros [E | Hin]; contradiction|].
    exists (labels :: found). split.
    + constructor; [|exact Hfound]. split; [exact El|].
      now rewrite Eu.
    + cbn [flat_map]. now rewrite Eu, <- app_assoc.
Qed.
End Deployments.

(** X24. Every label that [DeploymentCommand.decode_args] returns
    carries the required tag, when that tag is set; and unless [_all] is
    among the arguments, every one is a deployment label. *)
Theorem deployment_decode_args_at_required_tag
        {A : Type} (LabelType : LabelType_t) (it : iteration A)
        (invocation : Invocation A) (required_tag : string)
        (args : list string) (result_ : list Label) :
  required_tag <> ""%string ->
  DeploymentCommand_decode_args LabelType it invocation required_tag args
  = Ok result_ ->
  Forall (fun l => tag l = required_tag) result_
  /\ (~ In "_all"%string args ->
      Forall (fun l => type l = Deployment LabelType) result_).
Proof.
  intros Ht H.
  exact (deployment_decode_args_fits LabelType it invocation required_tag Ht
                                     args result_ H).
Qed.

Lemma deployment_decode_args_at_required_tag_witness :
  Forall (fun l => tag l = "deployed"%string)
         [example_label "deployment" "b" "deployed"]
  /\ (~ In "_all"%string ["b"%string] ->
      Forall (fun l => type l = Deployment example_LabelType)
             [example_label "deployment" "b" "deployed"]).
Proof.
  apply (deployment_decode_args_at_required_tag
           example_LabelType (in_list_order unit) example_invocation
           "deployed" ["b"%string]);
    [discriminate | reflexivity].
Defined.

(** X26. [AnyLabelCommand.decode_args] refuses [_all], and what it
    returns is, argument by argument and in their order, the labels of
    the fragment that are targets, with at least one for every argument:
    nothing is sorted, merged or retagged. *)
Theorem anylabel_decode_args_keeps_the_order
        {A : Type} (LabelType : LabelType_t) (invocation : Invocation A)
        (args : list string) (result_ : list Label) :
  AnyLabelCommand_decode_args LabelType invocation args = Ok result_ ->
  ~ In "_all"%string args
  /\ exists found,
      Forall2
        (fun word labels =>
           label_from_fragment invocation word (Package LabelType)
           = Ok labels
           /\ List.filter (target_label_exists invocation) labels <> [])
        args found
      /\ result_
         = flat_map (List.filter (target_label_exists invocation)) found.
Proof.
  unfold AnyLabelCommand_decode_args. intros H.
  now apply (anylabel_decode_args_found LabelType invocation) in H.
Qed.

Lemma anylabel_decode_args_keeps_the_order_witness :
  ~ In "_all"%string ["a"%string; "b"%string]
  /\ exists found,
      Forall2
        (fun word labels =>
           label_from_fragment example_invocation word
                               (Package example_LabelType)
           = Ok labels
           /\ List.filter (target_label_exists example_invocation) labels
              <> [])
        ["a"%string; "b"%string] found
      /\ [example_label "package" "a" "pulled";
          example_label "package" "b" "pulled"]
         = flat_map (List.filter (target_label_exists example_invocation))
                    found.
Proof.
  apply (anylabel_decode_args_keeps_the_order
           example_LabelType example_invocation).
  reflexivity.
Defined.

(* ================================================================== *)
(** * Query commands: [get_switches]                                   *)
(* ================================================================== *)

Lemma remove_first_perm (x : string) (l : list string) :
  In x l -> Permutation (x :: remove_first x l) l.
Proof.
  induction l as [|y l IH]; [intros []|]. cbn [remove_first].
  destruct (String.eqb_spec y x) as [-> | Hne]; [reflexivity|].
  intros [E | H]; [contradiction|].
  etransitivity; [apply perm_swap|]. now apply perm_skip, IH.
Qed.

Lemma remove_first_In (x y : string) (l : list string) :
  In y (remove_first x l) -> In y l.
Proof.
  induction l as [|z l IH]; [intros []|]. cbn [remove_first].
  destruct (String.eqb z x); [now right|].
  intros [<- | H]; [now left | right; auto].
Qed.

Lemma remove_first_sublist (x : string) (l : list string) :
  sublist (remove_first x l) l.
Proof.
  induction l as [|z l IH]; [constructor|]. cbn [remove_first].
  destruct (String.eqb z x); [now apply sublist_cons | now apply sublist_skip].
Qed.

Lemma remove_first_app (x : string) (head tl : list string) :
  ~ In x head -> remove_first x (head ++ tl) = head ++ remove_first x tl.
Proof.
  induction head as [|z head IH]; [reflexivity|]. intros H.
  cbn [app remove_first].
  destruct (String.eqb_spec z x) as [-> | Hne]; [destruct H; now left|].
  rewrite IH; [reflexivity|]. intros Hin. apply H. now right.
Qed.

Lemma lookup_In {X : Type} (l : list X) (i : nat) (x : X) :
  l !! i = Some x -> In x l.
Proof.
  revert i. induction l as [|y l IH]; intros [|i]; cbn; try discriminate.
  - intros [= ->]. now left.
  - intros H. right. eauto.
Qed.

Lemma allowed_In (arg : string) (allowed : list string) :
  existsb (String.eqb arg) allowed = true <-> In arg allowed.
Proof.
  rewrite existsb_exists. split.
  - intros (x & Hx & E). apply String.eqb_eq in E. now subst.
  - intros H. exists arg. split; [exact H | apply String.eqb_refl].
Qed.

Section Switches.
Variable allowed : list string.

Lemma get_switches_loop_step (fuel i : nat) (args sw : list string) :
  get_switches_loop (S fuel) i args allowed sw
  = match args !! i with
    | None => Some (sw, args)
    | Some arg =>
        if existsb (String.eqb arg) allowed
        then get_switches_loop fuel (S i) (remove_first arg args)
                               allowed (sw ++ [arg])
        else get_switches_loop fuel (S i) args allowed sw
    end.
Proof. reflexivity. Qed.

(** The loop comes to an end within the turns it is given, and takes
    out of [args] what it adds to [switches]. *)
Lemma get_switches_loop_spec (fuel : nat) :
  forall i args sw,
    length args - i < fuel ->
    exists sw' args',
      get_switches_loop fuel i args allowed sw = Some (sw ++ sw', args')
      /\ Permutation (sw' ++ args') args
      /\ sublist args' args
      /\ Forall (fun s => In s allowed) sw'
      /\ ((forall x, In x args -> ~ In x allowed) ->
          sw' = [] /\ args' = args).
Proof.
  induction fuel as [|fuel IH]; intros i args sw Hfuel; [lia|].
  cbn [get_switches_loop]. destruct (args !! i) as [arg|] eqn:Ei.
  - assert (Hin := lookup_In _ _ _ Ei).
    assert (Hi := lookup_lt_Some _ _ _ Ei).
    destruct (existsb (String.eqb arg) allowed) eqn:Ea.
    + apply allowed_In in Ea.
      pose proof (remove_first_perm arg args Hin) as Hperm.
      assert (Hlen := Permutation_length Hperm). cbn [length] in Hlen.
      destruct (IH (S i) (remove_first arg args) (sw ++ [arg]))
        as (sw' & args' & E & Hp & Hs & Hall & _); [lia|].
      exists (arg :: sw'), args'. split; [|split; [|split; [|split]]].
      * rewrite E, <- app_assoc. reflexivity.
      * cbn [app]. etransitivity; [apply perm_skip, Hp | exact Hperm].
      * etransitivity; [exact Hs | apply remove_first_sublist].
      * now constructor.
      * intros Hnone. destruct (Hnone arg Hin Ea).
    + destruct (IH (S i) args sw) as (sw' & args' & E & H); [lia|].
      exists sw', args'. auto.
  - exists [], args. rewrite app_nil_r.
    split; [reflexivity|]. split; [reflexivity|]. split; [reflexivity|].
    split; [constructor | auto].
Qed.

(** Arguments that are no switches are passed over. *)
Lemma get_switches_loop_scan (pre2 : list string) :
  forall pre1 tl fuel sw,
    (forall x, In x pre2 -> ~ In x allowed) ->
    get_switches_loop (length pre2 + fuel) (length pre1)
                      (pre1 ++ pre2 ++ tl) allowed sw
    = get_switches_loop fuel (length pre1 + length pre2)
                        (pre1 ++ pre2 ++ tl) allowed sw.
Proof.
  induction pre2 as [|x pre2 IH]; intros pre1 tl fuel sw Hpre.
  - cbn [length app]. now rewrite Nat.add_0_r.
  - cbn [length Nat.add get_switches_loop app].
    rewrite list_lookup_middle by reflexivity.
    assert (existsb (String.eqb x) allowed = false) as ->.
    { destruct (existsb (String.eqb x) allowed) eqn:E; [|reflexivity].
      apply allowed_In in E. destruct (Hpre x); [now left | exact E]. }
    replace (pre1 ++ x :: pre2 ++ tl) with ((pre1 ++ [x]) ++ pre2 ++ tl)
      by now rewrite <- app_assoc.
    replace (S (length pre1)) with (length (pre1 ++ [x]))
      by (rewrite length_app; cbn; lia).
    rewrite IH by (intros y Hy; apply Hpre; now right).
    f_equal. rewrite length_app. cbn. lia.
Qed.

(** Behind the position of the loop nothing changes, as long as no
    switch still to come is also found there. *)
Lemma get_switches_loop_tail (fuel : nat) :
  forall i head tl sw r,
    length head <= i ->
    (forall x, In x tl -> In x allowed -> ~ In x head) ->
    get_switches_loop fuel i (head ++ tl) allowed sw = Some r ->
    exists sw' tl', r = (sw ++ sw', head ++ tl').
Proof.
  induction fuel as [|fuel IH]; intros i head tl sw r Hi Htl;
    [discriminate|].
  cbn [get_switches_loop]. destruct ((head ++ tl) !! i) as [arg|] eqn:Ei.
  - rewrite lookup_app_r in Ei by exact Hi.
    apply lookup_In in Ei.
    destruct (existsb (String.eqb arg) allowed) eqn:Ea.
    + apply allowed_In in Ea.
      rewrite remove_first_app by now apply Htl.
      intros H. apply IH in H as (sw' & tl' & ->); [|lia|].
      * exists (arg :: sw'), tl'. now rewrite <- app_assoc.
      * intros x Hx. apply Htl. now apply remove_first_In in Hx.
    + intros H. apply IH in H; [exact H | lia | exact Htl].
  - intros [= <-]. exists [], tl. now rewrite app_nil_r.
Qed.
End Switches.

(** X27. [get_switches] always comes to an end. What it returns and
    what it leaves in [args] are together the arguments it was given,
    each as often as before; every switch returned is an allowed one;
    what is left in [args] is in its old order; and when no argument is
    an allowed switch nothing is returned and [args] is untouched. *)
Theorem get_switches_splits_the_arguments (args allowed : list string) :
  exists switches args',
    get_switches args allowed = Some (switches, args')
    /\ Permutation (switches ++ args') args
    /\ sublist args' args
    /\ Forall (fun s => In s allowed) switches
    /\ ((forall x, In x args -> ~ In x allowed) ->
        switches = [] /\ args' = args).
Proof.
  unfold get_switches.
  destruct (get_switches_loop_spec allowed (S (length args)) 0 args [])
    as (sw & args' & E & H); [lia|].
  exists sw, args'. auto.
Qed.

(** X28. [get_switches] takes items out of the list it is walking, so
    the argument that stands right behind a switch it finds is never
    looked at: where a first switch [s1] is followed by [s2], and [s2]
    does not come again later, [s1] is returned and [s2] stays in
    [args] at its place, be it an allowed switch or not. *)
Theorem get_switches_skips_what_follows_a_switch
        (allowed pre rest : list string) (s1 s2 : string) :
  (forall x, In x pre -> ~ In x allowed) ->
  In s1 allowed ->
  ~ In s2 rest ->
  exists switches rest',
    get_switches (pre ++ s1 :: s2 :: rest) allowed
    = Some (s1 :: switches, pre ++ s2 :: rest').
Proof.
  intros Hpre Hs1 Hs2. unfold get_switches.
  replace (S (length (pre ++ s1 :: s2 :: rest)))
    with (length pre + S (S (S (length rest))))
    by (rewrite length_app; cbn; lia).
  pose proof (get_switches_loop_scan allowed pre [] (s1 :: s2 :: rest)
                (S (S (S (length rest)))) [] Hpre) as Hscan.
  cbn [app length Nat.add] in Hscan. rewrite Hscan. clear Hscan.
  rewrite get_switches_loop_step.
  rewrite list_lookup_middle by reflexivity.
  rewrite (proj2 (allowed_In s1 allowed) Hs1).
  rewrite remove_first_app by (intros H; now apply (Hpre s1)).
  cbn [remove_first app]. rewrite String.eqb_refl.
  destruct (get_switches_loop_spec allowed (S (S (length rest)))
              (S (length pre)) (pre ++ s2 :: rest) [s1])
    as (sw & args' & E & _).
  { rewrite length_app. cbn. lia. }
  assert (Etail : exists sw' tl',
             ([s1] ++ sw, args') = ([s1] ++ sw', (pre ++ [s2]) ++ tl')).
  { apply (get_switches_loop_tail allowed (S (S (length rest)))
             (S (length pre)) (pre ++ [s2]) rest [s1]).
    - rewrite length_app. cbn. lia.
    - intros x Hx Ha Hin. apply in_app_or in Hin as [Hin | [<- | []]];
        [now apply (Hpre x) | contradiction].
    - rewrite <- app_assoc. exact E. }
  destruct Etail as (sw' & tl' & Er). injection Er as Esw Eargs.
  rewrite E. exists sw, tl'. rewrite Eargs, <- app_assoc. reflexivity.
Qed.

Lemma get_switches_skips_what_follows_a_switch_witness :
  exists switches rest',
    get_switches ([] ++ "-j"%string :: "-j"%string :: []) ["-j"%string]
    = Some ("-j"%string :: switches, [] ++ "-j"%string :: rest').
Proof.
  apply (get_switches_skips_what_follows_a_switch
           ["-j"%string] [] [] "-j" "-j").
  - intros x [].
  - now left.
  - intros [].
Defined.

(* ================================================================== *)
(** * Distribution: the first request for a label                      *)
(* ================================================================== *)

Module DistributeRequests.
Import Distribute.

(** The common shape of the two requests, where there is no rule yet
    for distributing the label. *)
Lemma request_first {D} it LabelTag tle expected source_tag method
      (new_action : DistributeAction D) ruleset label :
  type label = expected ->
  tle ruleset (copy_with_tag label (Distributed LabelTag)) = false ->
  rule_for_target ruleset (copy_with_tag label (Distributed LabelTag))
  = None ->
  exists ruleset',
    request it LabelTag tle expected source_tag method new_action
            ruleset label = Ok ruleset'
    /\ rule_for_target ruleset' (copy_with_tag label (Distributed LabelTag))
       = Some (mkRule (copy_with_tag label (Distributed LabelTag))
                      (Some new_action)
                      [copy_with_tag label source_tag])
    /\ (forall k,
           Label_eqb k (copy_with_tag label (Distributed LabelTag)) = false ->
           rule_for_target ruleset' k = rule_for_target ruleset k).
Proof.
  intros Ht He Hr. unfold request.
  rewrite Ht, String.eqb_refl, He. cbn [negb].
  eexists. split; [reflexivity|].
  unfold rule_for_target in *. split.
  - rewrite (RuleSet_add_same it). cbn [Rule_add Rule_init target].
    now rewrite Hr.
  - intros k Hk. now apply (RuleSet_add_other it).
Qed.

(** X29. The first request to distribute a checkout (no rule for its
    [distributed] label yet) adds one rule: to reach the label at the
    tag [distributed], after the label at the tag [checked_out], run
    an action that serves the one distribution named and holds
    [copy_vcs_dir] for it. The rules of other targets are not
    touched. *)
Theorem distribute_checkout_first_request
        it LabelTag tle LabelType ruleset name_ label copy_vcs_dir :
  type label = Checkout LabelType ->
  tle ruleset (copy_with_tag label (Distributed LabelTag)) = false ->
  rule_for_target ruleset (copy_with_tag label (Distributed LabelTag))
  = None ->
  exists ruleset' action,
    distribute_checkout it LabelTag tle LabelType ruleset name_ label
                        copy_vcs_dir = Ok ruleset'
    /\ rule_for_target ruleset' (copy_with_tag label (Distributed LabelTag))
       = Some (mkRule (copy_with_tag label (Distributed LabelTag))
                      (Some action)
                      [copy_with_tag label (CheckedOut LabelTag)])
    /\ distribution_names action = {[ name_ ]}
    /\ get_distribution action name_ = Ok copy_vcs_dir
    /\ (forall k,
           Label_eqb k (copy_with_tag label (Distributed LabelTag)) = false ->
           rule_for_target ruleset' k = rule_for_target ruleset k).
Proof.
  intros Ht He Hr. unfold distribute_checkout.
  destruct (request_first it LabelTag tle (Checkout LabelType)
              (CheckedOut LabelTag) "add_distribution"
              (DistributeCheckout name_ copy_vcs_dir) ruleset label
              Ht He Hr) as (ruleset' & E & Hrule & Hframe).
  exists ruleset', (DistributeCheckout name_ copy_vcs_dir).
  split; [exact E|]. split; [exact Hrule|].
  split; [|split; [|exact Hframe]].
  - unfold distribution_names, DistributeCheckout, DistributeAction_init.
    cbn [distributions]. apply dom_singleton_L.
  - unfold get_distribution, DistributeCheckout, DistributeAction_init.
    cbn [distributions]. now rewrite lookup_singleton_eq.
Qed.

(** X30. The first request to distribute a package adds one rule: to
    reach the label at the tag [distributed], after the label at the
    tag [postinstalled], run an action that serves the one
    distribution named. What the action holds for that name is
    [(True, False, False)], the defaults of [DistributePackage],
    whatever [binary], [source] and [copy_vcs_dir] were passed to the
    request. *)
Theorem distribute_package_first_request
        it LabelTag tle LabelType ruleset name_ label
        (binary source copy_vcs_dir : bool) :
  type label = Package LabelType ->
  tle ruleset (copy_with_tag label (Distributed LabelTag)) = false ->
  rule_for_target ruleset (copy_with_tag label (Distributed LabelTag))
  = None ->
  exists ruleset' action,
    distribute_package it LabelTag tle LabelType ruleset name_ label
                       binary source copy_vcs_dir = Ok ruleset'
    /\ rule_for_target ruleset' (copy_with_tag label (Distributed LabelTag))
       = Some (mkRule (copy_with_tag label (Distributed LabelTag))
                      (Some action)
                      [copy_with_tag label (PostInstalled LabelTag)])
    /\ distribution_names action = {[ name_ ]}
    /\ get_distribution action name_ = Ok (true, false, false)
    /\ (forall k,
           Label_eqb k (copy_with_tag label (Distributed LabelTag)) = false ->
           rule_for_target ruleset' k = rule_for_target ruleset k).
Proof.
  intros Ht He Hr. unfold distribute_package.
  destruct (request_first it LabelTag tle (Package LabelType)
              (PostInstalled LabelTag) "add_context_name"
              (DistributePackage name_ true false false) ruleset label
              Ht He Hr) as (ruleset' & E & Hrule & Hframe).
  exists ruleset', (DistributePackage name_ true false false).
  split; [exact E|]. split; [exact Hrule|].
  split; [|split; [|exact Hframe]].
  - unfold distribution_names, DistributePackage, DistributeAction_init.
    cbn [distributions]. apply dom_singleton_L.
  - unfold get_distribution, DistributePackage, DistributeAction_init.
    cbn [distributions]. now rewrite lookup_singleton_eq.
Qed.

Lemma distribute_checkout_first_request_witness :
  exists ruleset' action,
    distribute_checkout (in_list_order (DistributeAction bool))
                        example_LabelTag (fun _ _ => false)
                        example_LabelType [] "release"
                        (example_label "checkout" "b" "checked_out") true
    = Ok ruleset'
    /\ rule_for_target ruleset'
         (copy_with_tag (example_label "checkout" "b" "checked_out")
                        (Distributed example_LabelTag))
       = Some (mkRule
                 (copy_with_tag (example_label "checkout" "b" "checked_out")
                                (Distributed example_LabelTag))
                 (Some action)
                 [copy_with_tag (example_label "checkout" "b" "checked_out")
                                (CheckedOut example_LabelTag)])
    /\ distribution_names action = {[ "release"%string ]}
    /\ get_distribution action "release" = Ok true
    /\ (forall k,
           Label_eqb k (copy_with_tag
                          (example_label "checkout" "b" "checked_out")
                          (Distributed example_LabelTag)) = false ->
           rule_for_target ruleset' k = rule_for_target [] k).
Proof.
  apply (distribute_checkout_first_request
           (in_list_order (DistributeAction bool)) example_LabelTag
           (fun _ _ => false) example_LabelType [] "release"
           (example_label "checkout" "b" "checked_out") true);
    reflexivity.
Defined.

Lemma distribute_package_first_request_witness :
  exists ruleset' action,
    distribute_package (in_list_order (DistributeAction (bool * bool * bool)))
                       example_LabelTag (fun _ _ => false)
                       example_LabelType [] "release"
                       (example_label "package" "a" "built")
                       false true true
    = Ok ruleset'
    /\ rule_for_target ruleset'
         (copy_with_tag (example_label "package" "a" "built")
                        (Distributed example_LabelTag))
       = Some (mkRule
                 (copy_with_tag (example_label "package" "a" "built")
                                (Distributed example_LabelTag))
                 (Some action)
                 [copy_with_tag (example_label "package" "a" "built")
                                (PostInstalled example_LabelTag)])
    /\ distribution_names action = {[ "release"%string ]}
    /\ get_distribution action "release" = Ok (true, false, false)
    /\ (forall k,
           Label_eqb k (copy_with_tag (example_label "package" "a" "built")
                                      (Distributed example_LabelTag))
           = false ->
           rule_for_target ruleset' k = rule_for_target [] k).
Proof.
  apply (distribute_package_first_request
           (in_list_order (DistributeAction (bool * bool * bool)))
           example_LabelTag (fun _ _ => false) example_LabelType []
           "release" (example_label "package" "a" "built")
           false true true);
    reflexivity.
Defined.

End DistributeRequests.

(* ================================================================== *)
(** * The solver on a chain made by [depend_chain]                     *)
(* ================================================================== *)

(** A function on the numbers up to [n] that climbs at every step and
    ends at [n] or below is the identity there. *)
Lemma climbing_is_identity (f : nat -> nat) (n : nat) :
  (forall j, j < n -> f j < f (S j)) -> f n <= n ->
  forall i, i <= n -> f i = i.
Proof.
  intros Hstep Hend.
  assert (Hlow : forall i, i <= n -> i <= f i).
  { induction i as [|i IH]; intros Hi; [lia|].
    specialize (Hstep i ltac:(lia)). specialize (IH ltac:(lia)). lia. }
  assert (Hup : forall k i, i + k = n -> f i <= i).
  { induction k as [|k IH]; intros i Hi.
    - replace i with n by lia. exact Hend.
    - specialize (IH (S i) ltac:(lia)). specialize (Hstep i ltac:(lia)). lia. }
  intros i Hi. specialize (Hlow i Hi). specialize (Hup (n - i) i ltac:(lia)).
  lia.
Qed.

Lemma NoDup_lookup_eq {X : Type} (l : list X) (i j : nat) (x : X) :
  List.NoDup l -> l !! i = Some x -> l !! j = Some x -> i = j.
Proof.
  intros H. revert i j.
  induction H as [|y l Hy H IH]; intros [|i] [|j]; cbn;
    try discriminate; try reflexivity.
  - intros [= ->] Hj. destruct Hy. eapply lookup_In, Hj.
  - intros Hi [= ->]. destruct Hy. eapply lookup_In, Hi.
  - intros Hi Hj. f_equal. eauto.
Qed.

Lemma NoDup_map_injective {X Y : Type} (f : X -> Y) (l : list X) :
  (forall a b, f a = f b -> a = b) -> List.NoDup l ->
  List.NoDup (List.map f l).
Proof.
  intros Hf. induction 1 as [|x l Hx H IH]; cbn [List.map]; constructor.
  - intros Hin. apply in_map_iff in Hin as (y & E & Hy).
    apply Hf in E. now subst.
  - exact IH.
Qed.

(** Where a label of the list is first found, there is one equal to
    it. *)
Lemma index_of_found (x : Label) (s : list Label) :
  kin x s ->
  exists y, s !! index_of x s = Some y
            /\ Label_as_tuple y = Label_as_tuple x.
Proof.
  induction s as [|z s IH]; [intros []|]. rewrite kin_cons. cbn [index_of].
  destruct (Label_eqb x z) eqn:E.
  - intros _. exists z. split; [reflexivity|]. symmetry.
    now apply Label_eqb_tuple.
  - intros [Ek | H].
    + symmetry in Ek. apply Label_eqb_tuple in Ek. congruence.
    + exact (IH H).
Qed.

Section ChainFacts.
Context {A : Type}.
Variable it : iteration A.
Variable obj_ : option A.

Lemma map_set_fresh (self : RuleSet A) (k : Label) (v : Rule A) :
  map_get self k = None -> map_set self k v = self ++ [(k, v)].
Proof.
  induction self as [|[k0 v0] self IH]; cbn; [reflexivity|].
  destruct (Label_eqb k0 k); [discriminate|].
  intros H. now rewrite IH.
Qed.

Lemma RuleSet_add_fresh (self : RuleSet A) (r : Rule A) :
  ~ kin (target r) (map fst self) ->
  RuleSet_add it self r = self ++ [(target r, r)].
Proof.
  intros H. apply map_get_None in H. unfold RuleSet_add. rewrite H.
  now apply map_set_fresh.
Qed.

Lemma chain_rules_keys (prev : option Label) (ch : list Label) :
  List.map fst (chain_rules obj_ prev ch) = ch.
Proof.
  revert prev. induction ch as [|l ch IH]; intros prev; [reflexivity|].
  cbn [chain_rules List.map fst]. now rewrite IH.
Qed.

Lemma chain_rules_lookup (ch : list Label) :
  forall prev i,
    chain_rules obj_ prev ch !! i
    = match ch !! i with
      | Some l =>
          Some (l, chain_rule obj_ (match i with
                                    | 0 => prev
                                    | S j => ch !! j
                                    end) l)
      | None => None
      end.
Proof.
  induction ch as [|l ch IH]; intros prev [|i]; try reflexivity.
  cbn [chain_rules]. change ((?x :: ?s) !! S ?n) with (s !! n).
  rewrite IH. destruct (ch !! i); [|reflexivity]. now destruct i.
Qed.

(** The loop of [depend_chain], on tags none of which gives a label
    the rule set has a rule for. *)
Lemma depend_chain_fresh (tags : list string) :
  forall last rs,
    (forall t, In t tags -> ~ kin (set_tag last t) (List.map fst rs)) ->
    List.NoDup tags ->
    snd (fold_left (depend_chain_step it obj_) tags (last, rs))
    = rs ++ chain_rules obj_ (Some last) (List.map (set_tag last) tags).
Proof.
  induction tags as [|t tags IH]; intros last rs Hfresh Hnd.
  - cbn. now rewrite app_nil_r.
  - cbn [fold_left depend_chain_step]. unfold Label_copy.
    apply List.NoDup_cons_iff in Hnd as [Ht Hnd].
    rewrite RuleSet_add_fresh
      by (cbn [target Rule_add Rule_init]; apply Hfresh; now left).
    cbn [target Rule_add Rule_init].
    rewrite IH; [| |exact Hnd].
    + rewrite <- app_assoc. cbn [app List.map chain_rules]. reflexivity.
    + intros t' Ht'. rewrite map_app, kin_app. cbn [List.map fst].
      intros [H | H].
      * apply (Hfresh t'); [now right | exact H].
      * apply kin_cons in H as [H | []]. apply Ht.
        unfold Label_as_tuple, set_tag in H. cbn in H.
        injection H as ->. exact Ht'.
Qed.

Section OneChain.
Variable label : Label.
Variable tags : list string.
Hypothesis label_definite : definite label.
Hypothesis tags_definite : Forall (fun t => t <> "*"%string) tags.
Hypothesis tags_differ : List.NoDup (tag label :: tags).

Let ch := chain_labels label tags.
Let rs := chain_rules obj_ None ch.
Let before (i : nat) : option Label :=
  match i with 0 => None | S j => ch !! j end.

(** Started on the empty rule set, [depend_chain] gives the rules
    of the links and nothing more. *)
Lemma depend_chain_explicit : depend_chain it obj_ label tags [] = rs.
Proof using tags_differ.
  unfold depend_chain, Label_copy.
  apply List.NoDup_cons_iff in tags_differ as [Ht Hnd].
  change (RuleSet_add it [] (Rule_init label obj_))
    with [(label, Rule_init label obj_)].
  rewrite depend_chain_fresh; [reflexivity| |exact Hnd].
  intros t Hin H. cbn [List.map fst] in H.
  apply kin_cons in H as [H | []]. apply Ht.
  unfold Label_as_tuple, set_tag in H. cbn in H.
  injection H as ->. exact Hin.
Qed.

Lemma ch_definite (x : Label) : In x ch -> definite x.
Proof using label_definite tags_definite.
  intros [<- | H]; [exact label_definite|].
  apply in_map_iff in H as (t & <- & Ht).
  rewrite List.Forall_forall in tags_definite.
  specialize (tags_definite t Ht).
  unfold definite, parts, set_tag in *.
  cbn [forallb type domain name role tag] in *.
  repeat (apply andb_prop in label_definite
          as [?H label_definite]).
  repeat (apply andb_true_intro; split); try assumption.
  unfold is_star_opt, is_star.
  now destruct (String.eqb_spec t "*").
Qed.

Lemma ch_distinct : distinct ch.
Proof using tags_differ.
  unfold distinct, keys, ch, chain_labels.
  set (f := fun t => Label_as_tuple (set_tag label t)).
  replace (List.map Label_as_tuple (label :: List.map (set_tag label) tags))
    with (List.map f (tag label :: tags)).
  - apply NoDup_map_injective; [|exact tags_differ].
    intros a b. unfold f, Label_as_tuple, set_tag. cbn.
    now intros [= ->].
  - cbn [List.map]. rewrite List.map_map. reflexivity.
Qed.

Lemma ch_position (i j : nat) (x y : Label) :
  ch !! i = Some x -> ch !! j = Some y ->
  Label_as_tuple x = Label_as_tuple y -> i = j.
Proof using tags_differ.
  intros Hi Hj E.
  apply (NoDup_lookup_eq (keys ch) i j (Label_as_tuple x) ch_distinct);
    unfold keys; rewrite lookup_map.
  - now rewrite Hi.
  - rewrite Hj. cbn. now rewrite E.
Qed.

Lemma rs_lookup (i : nat) (x : Label) :
  ch !! i = Some x ->
  rs !! i = Some (x, chain_rule obj_ (before i) x).
Proof.
  intros H. unfold rs. rewrite chain_rules_lookup, H.
  now destruct i.
Qed.

Lemma rs_In (k : Label) (r : Rule A) :
  In (k, r) rs ->
  exists i, ch !! i = Some k /\ r = chain_rule obj_ (before i) k.
Proof.
  intros H. apply list_elem_of_In, list_elem_of_lookup in H as (i & Hi).
  exists i. unfold rs in Hi. rewrite chain_rules_lookup in Hi.
  destruct (ch !! i) as [l|] eqn:E; [|discriminate].
  injection Hi as -> <-. split; [reflexivity | now destruct i].
Qed.

(** A link matches the target of its own rule only. *)
Lemma ch_matching (i : nat) (x : Label) (r : Rule A) :
  ch !! i = Some x ->
  In r (matching_rules rs x) -> r = chain_rule obj_ (before i) x.
Proof using label_definite tags_definite tags_differ.
  intros Hi Hr. apply matching_rules_In in Hr as (k & Hk & Hm).
  apply rs_In in Hk as (j & Hj & ->).
  apply Label_match_definite in Hm;
    [|eapply ch_definite, lookup_In, Hi
     |eapply ch_definite, lookup_In, Hj].
  assert (i = j) as <- by exact (ch_position i j x k Hi Hj Hm).
  congruence.
Qed.

Lemma ch_own_rule (i : nat) (x : Label) :
  ch !! i = Some x ->
  In (chain_rule obj_ (before i) x) (matching_rules rs x).
Proof.
  intros Hi. apply matching_rules_In. exists x. split.
  - eapply lookup_In, rs_lookup, Hi.
  - rewrite Label_match_equal by reflexivity. eauto.
Qed.

Lemma ch_depends (i : nat) (x d : Label) :
  ch !! i = Some x -> depends_on rs x d ->
  exists j p, i = S j /\ ch !! j = Some p
              /\ Label_as_tuple p = Label_as_tuple d.
Proof using label_definite tags_definite tags_differ.
  intros Hi (r & d0 & Hr & Hd0 & E).
  apply (ch_matching i x r Hi) in Hr. subst r.
  apply Label_eqb_tuple in E.
  destruct i as [|j]; cbn [before chain_rule deps] in Hd0; [destruct Hd0|].
  destruct (ch !! j) as [p|] eqn:Hj; [|destruct Hd0].
  destruct Hd0 as [<- | []]. eauto.
Qed.

Lemma ch_depends_on_the_link_before (j : nat) (p x : Label) :
  ch !! j = Some p -> ch !! S j = Some x -> depends_on rs x p.
Proof.
  intros Hj Hi. exists (chain_rule obj_ (before (S j)) x), p.
  split; [now apply ch_own_rule|].
  cbn [before chain_rule deps]. rewrite Hj.
  split; [now left | apply Label_eqb_refl].
Qed.

Lemma ch_chain (t d : Label) :
  chain rs t d ->
  forall i x, ch !! i = Some x ->
              Label_as_tuple x = Label_as_tuple t ->
              exists j y, j < i /\ ch !! j = Some y
                          /\ Label_as_tuple y = Label_as_tuple d.
Proof using label_definite tags_definite tags_differ.
  induction 1 as [t d Hd | t d e Hd Hc IH]; intros i x Hi Ex.
  - apply (depends_on_key rs t x d d) in Hd; [|congruence|reflexivity].
    destruct (ch_depends i x d Hi Hd) as (j & p & -> & Hj & Ep).
    exists j, p. split; [lia | auto].
  - apply (depends_on_key rs t x d d) in Hd; [|congruence|reflexivity].
    destruct (ch_depends i x d Hi Hd) as (j & p & -> & Hj & Ep).
    destruct (IH j p Hj Ep) as (j' & y & Hlt & Hy & Ey).
    exists j', y. split; [lia | auto].
Qed.

Lemma ch_needed (targets : list Label) (t : Label) :
  (forall x, kin x targets -> kin x ch) ->
  needed rs targets t -> kin t ch.
Proof using label_definite tags_definite tags_differ.
  intros Hsub. induction 1 as [t Ht | t d Ht IH Hd].
  - apply Hsub. now apply label_in_kin.
  - apply kin_lookup in IH as (i & x & Hi & Ex).
    apply (depends_on_key rs t x d d) in Hd; [|congruence|reflexivity].
    destruct (ch_depends i x d Hi Hd) as (j & p & _ & Hj & Ep).
    apply kin_lookup. eauto.
Qed.

Lemma ch_last :
  ch !! length tags = Some (List.last ch label).
Proof.
  unfold ch, chain_labels.
  destruct tags as [|t ts] using rev_ind; [reflexivity|].
  rewrite map_app. cbn [List.map].
  change (label :: ?a ++ ?b) with ((label :: a) ++ b).
  rewrite List.last_last, length_app. cbn [length].
  rewrite lookup_app_r by (cbn [length]; rewrite length_map; lia).
  cbn [length]. rewrite length_map.
  now replace (length ts + 1 - S (length ts)) with 0 by lia.
Qed.

Variables useTags useMatch : bool.
Let query := List.last ch label.
Let targets := targets_match rs query useMatch.

Lemma ch_targets :
  kin query targets /\ forall x, kin x targets -> kin x ch.
Proof using label_definite tags_definite tags_differ.
  assert (Hq : In query (List.map fst rs)).
  { unfold rs. rewrite chain_rules_keys. eapply lookup_In, ch_last. }
  destruct (targets_match_facts rs query) as (F1 & _ & F3 & F4).
  unfold targets. destruct useMatch.
  - split.
    + apply label_in_kin, F4; [exact Hq|].
      rewrite Label_match_equal by reflexivity. eauto.
    + intros x Hx. apply kin_lookup in Hx as (j & y & Hj & Ey).
      apply lookup_In, F3 in Hj as [Hj _].
      unfold rs in Hj. rewrite chain_rules_keys in Hj.
      apply (in_map Label_as_tuple) in Hj. unfold kin, keys.
      now rewrite <- Ey.
  - rewrite F1. split.
    + apply kin_cons. now left.
    + intros x Hx. apply kin_cons in Hx as [Hx | []].
      unfold rs in Hq. rewrite chain_rules_keys in Hq.
      apply (in_map Label_as_tuple) in Hq. unfold kin, keys.
      now rewrite <- Hx.
Qed.

(** Every link has a rule and no link comes before itself, so the
    solver does not fail. *)
Lemma ch_solved :
  exists rl, needed_to_build it rs query useTags useMatch = Some (Ok rl).
Proof using label_definite tags_definite tags_differ.
  destruct (needed_to_build_outcome it rs query useTags useMatch)
    as (res & Hres & Hout).
  fold targets in Hout. rewrite Hres.
  destruct ch_targets as [_ Hsub].
  assert (Hcomplete : forall t, needed rs targets t ->
                                matching_rules rs t <> []).
  { intros t Ht. apply (ch_needed targets t Hsub) in Ht.
    apply kin_lookup in Ht as (i & x & Hi & Ex).
    rewrite <- (matching_rules_key rs x t Ex).
    intros E. pose proof (ch_own_rule i x Hi) as H.
    rewrite E in H. destruct H. }
  assert (Hacyclic : forall t, needed rs targets t -> ~ chain rs t t).
  { intros t Ht Hc. apply (ch_needed targets t Hsub) in Ht.
    apply kin_lookup in Ht as (i & x & Hi & Ex).
    destruct (ch_chain t t Hc i x Hi Ex) as (j & y & Hlt & Hj & Ey).
    assert (j = i) by (apply (ch_position j i y x Hj Hi); congruence).
    lia. }
  destruct res as [rl | [t | building T rl rs' | l]]; cbn [outcome] in Hout.
  - eauto.
  - destruct Hout as [Hn Hm]. now apply Hcomplete in Hn.
  - destruct Hout as (_ & _ & Hne & B & _ & _ & _ & HT). exfalso.
    destruct (closed_has_cycle rs T Hne) as (t & Ht & Hc).
    { intros t Ht.
      destruct (HT t Ht) as (_ & _ & _ & (d & Hd & _ & HdT) & _). eauto. }
    apply (Hacyclic t); [|exact Hc]. now apply HT.
  - contradiction.
Qed.

(** What the solver returns are the rules of the links, in the
    order of the chain. *)
Lemma ch_rules (rl : list (Rule A)) :
  needed_to_build it rs query useTags useMatch = Some (Ok rl) ->
  rl = List.map snd rs.
Proof using label_definite tags_definite tags_differ.
  intros Hrl.
  destruct (needed_to_build_order it rs query useTags useMatch rl Hrl)
    as (B & HB & Hcover & Hneeded).
  fold targets in Hcover, Hneeded.
  destruct ch_targets as [Hq Hsub].
  pose proof (build_order_distinct it rs B rl HB) as HBd.
  pose proof (build_order_length it rs B rl HB) as HBl.
  assert (Hlen : length ch = S (length tags)).
  { unfold ch, chain_labels. cbn [length]. now rewrite length_map. }
  (* every link is in the build order *)
  assert (Hin : forall k i x, i + k = length tags ->
                              ch !! i = Some x -> kin x B).
  { induction k as [|k IH]; intros i x Hk Hi.
    - replace i with (length tags) in Hi by lia.
      rewrite ch_last in Hi. injection Hi as <-. now apply Hcover.
    - destruct (lookup_lt_is_Some_2 ch (S i)) as [y Hy]; [lia|].
      specialize (IH (S i) y ltac:(lia) Hy).
      apply (build_order_closed it rs B rl y HB IH).
      now apply (ch_depends_on_the_link_before i). }
  (* and the build order holds nothing else *)
  assert (Hout : forall x, kin x B -> kin x ch).
  { intros x Hx. apply (ch_needed targets x Hsub). now apply Hneeded. }
  assert (HlenB : length B = S (length tags)).
  { rewrite <- Hlen. apply Nat.le_antisymm.
    - now apply distinct_length.
    - apply distinct_length; [exact ch_distinct|].
      intros x Hx. apply kin_lookup in Hx as (i & y & Hi & Ey).
      unfold kin. rewrite <- Ey.
      apply (Hin (length tags - i) i y); [|exact Hi].
      apply lookup_lt_Some in Hi. lia. }
  (* the links stand in the build order as in the chain *)
  set (f := fun i => match ch !! i with
                     | Some x => index_of x B
                     | None => 0
                     end).
  assert (Hf : forall i, i <= length tags -> f i = i).
  { apply climbing_is_identity.
    - intros j Hj. unfold f.
      destruct (lookup_lt_is_Some_2 ch j) as [p Hp]; [lia|].
      destruct (lookup_lt_is_Some_2 ch (S j)) as [x Hx]; [lia|].
      rewrite Hp, Hx.
      apply (build_order_index it rs B rl HB).
      + apply (Hin (length tags - S j) (S j) x); [lia | exact Hx].
      + now apply (ch_depends_on_the_link_before j).
    - unfold f. rewrite ch_last.
      assert (H : kin query B) by now apply Hcover.
      apply index_of_kin in H. fold query. lia. }
  apply list_eq. intros i.
  destruct (ch !! i) as [x|] eqn:Hi.
  - assert (Hi' := lookup_lt_Some _ _ _ Hi).
    assert (HxB : kin x B)
      by (apply (Hin (length tags - i) i x); [lia | exact Hi]).
    destruct (index_of_found x B HxB) as (y & Hy & Ey).
    assert (index_of x B = i) as Ei.
    { specialize (Hf i ltac:(lia)). unfold f in Hf. now rewrite Hi in Hf. }
    rewrite Ei in Hy.
    destruct (build_order_lookup it rs B rl HB i y Hy)
      as (r & Hr & Hchosen & _).
    apply chosen_rule_In in Hchosen.
    rewrite (matching_rules_key rs y x Ey) in Hchosen.
    apply (ch_matching i x r Hi) in Hchosen. subst r.
    rewrite Hr, lookup_map. pose proof (rs_lookup i x Hi) as Hrs.
    unfold RuleSet in Hrs. rewrite Hrs. reflexivity.
  - apply lookup_ge_None in Hi.
    rewrite (proj2 (lookup_ge_None rl i)) by lia.
    symmetry. apply lookup_ge_None.
    rewrite length_map. unfold rs.
    rewrite <- (length_map fst), chain_rules_keys. lia.
Qed.
End OneChain.
End ChainFacts.

(** X15. [depend_chain] and the solver fit together. Take a label with
    no wildcard part and tags that are no wildcards, differ from each
    other and from the tag of the label. Started on an empty rule set,
    [depend_chain] gives one rule per link: the label itself with
    nothing to depend on, then the label at each tag in turn, each
    depending on the link before it. Asked for the last link,
    [needed_to_build] then succeeds and returns exactly these rules, in
    the order of the chain, whatever [useTags] and [useMatch] are and in
    whatever order sets are walked. *)
Theorem solver_walks_a_chain {A : Type} (it : iteration A) (obj_ : option A)
        (label : Label) (tags : list string) (useTags useMatch : bool) :
  definite label ->
  Forall (fun t => t <> "*"%string) tags ->
  List.NoDup (tag label :: tags) ->
  depend_chain it obj_ label tags []
  = chain_rules obj_ None (chain_labels label tags)
  /\ needed_to_build it (depend_chain it obj_ label tags [])
                     (List.last (chain_labels label tags) label)
                     useTags useMatch
     = Some (Ok (List.map snd (depend_chain it obj_ label tags []))).
Proof.
  intros Hdef Htags Hnd.
  rewrite (depend_chain_explicit it obj_ label tags Hnd).
  split; [reflexivity|].
  destruct (ch_solved it obj_ label tags Hdef Htags Hnd useTags useMatch)
    as (rl & Hrl).
  rewrite Hrl. do 2 f_equal.
  exact (ch_rules it obj_ label tags Hdef Htags Hnd useTags useMatch rl Hrl).
Qed.

Lemma solver_walks_a_chain_witness :
  depend_chain (in_list_order unit) (Some tt)
               (example_label "package" "a" "preconfig")
               ["configured"%string; "built"%string] []
  = chain_rules (Some tt) None
                (chain_labels (example_label "package" "a" "preconfig")
                              ["configured"%string; "built"%string])
  /\ needed_to_build
       (in_list_order unit)
       (depend_chain (in_list_order unit) (Some tt)
                     (example_label "package" "a" "preconfig")
                     ["configured"%string; "built"%string] [])
       (List.last (chain_labels (example_label "package" "a" "preconfig")
                                ["configured"%string; "built"%string])
                  (example_label "package" "a" "preconfig"))
       true false
     = Some (Ok (List.map snd
                   (depend_chain (in_list_order unit) (Some tt)
                                 (example_label "package" "a" "preconfig")
                                 ["configured"%string; "built"%string] []))).
Proof.
  apply (solver_walks_a_chain
           (in_list_order unit) (Some tt)
           (example_label "package" "a" "preconfig")
           ["configured"%string; "built"%string] true false).
  - reflexivity.
  - repeat constructor; discriminate.
  - repeat constructor; cbn; intuition discriminate.
Defined.
